(** * HS1-SIV (hs1-siv-hi): a shallow embedding of the Go implementation

    The development follows the package file by file: the Go runtime
    facts the code relies on (panics, slices, [copy], little-endian
    loads and stores), the reference ChaCha20 of [chacha20.go], the HS1
    hash of [hs1.go] and the AEAD of [hs1siv.go].

    Fixed-width integers are [Z] with the wrap-around written out
    ([uint32], [uint64]); bytes are [Init.Byte.byte]; byte slices are
    lists.  A run-time panic is a value of type [panic]; code that can
    panic returns a [result]. *)

From Stdlib Require Import ZArith Lia ZifyNat ZifyBool List Bool.
From coqutil Require Import Byte Word.LittleEndianList Z.bitblast.
Import ListNotations.
Local Open Scope Z_scope.

(** ** Go runtime *)

Module Go.

(** The three error values of the package (hs1siv.go, [var] block). *)
Inductive error : Type :=
| ErrInvalidKeySize
| ErrInvalidNonceSize
| ErrOpen.

(** What a goroutine can panic with in this package: the two run-time
    errors of indexing and slicing, a [panic(err)] of the AEAD, and the
    two string panics of [chacha20]. *)
Inductive panic : Type :=
| IndexOutOfRange
| SliceBoundsOutOfRange
| PanicError (e : error)
| InvalidChachaKeySize
| InvalidChachaNonceSize.

Inductive result (A : Type) : Type :=
| Ok (a : A)
| Panic (p : panic).
Arguments Ok {A} a.
Arguments Panic {A} p.

Definition bind {A B} (r : result A) (k : A -> result B) : result B :=
  match r with
  | Ok a => k a
  | Panic p => Panic p
  end.

Definition uint32 (z : Z) : Z := z mod 2 ^ 32.
Definition uint64 (z : Z) : Z := z mod 2 ^ 64.

(** [s[i]]: panics when [i] is not below [len(s)]. *)
Definition index {A} (s : list A) (i : nat) : result A :=
  match nth_error s i with
  | Some x => Ok x
  | None => Panic IndexOutOfRange
  end.

(** [s[lo:]] on an array or on a slice without spare capacity. *)
Definition sliceFrom {A} (s : list A) (lo : nat) : result (list A) :=
  if (lo <=? length s)%nat then Ok (skipn lo s) else Panic SliceBoundsOutOfRange.

(** The builtin [copy(dst, src)]: the new contents of [dst].  It copies
    [min(len(dst), len(src))] elements. *)
Definition copy {A} (dst src : list A) : list A :=
  firstn (length dst) src ++ skipn (length src) dst.

Definition zeros (n : nat) : list byte := repeat Byte.x00 n.

(** Bytewise XOR of two slices, as long as the shorter one. *)
Fixpoint xorBytes (x y : list byte) : list byte :=
  match x, y with
  | a :: x', b :: y' => byte.xor a b :: xorBytes x' y'
  | _, _ => []
  end.

(** [binary.LittleEndian]: loads read the first 4 (8) bytes, stores
    produce the 4 (8) bytes written.  Every use below is dominated by a
    bounds check or reads a fixed-size array. *)
Definition Uint32 (b : list byte) : Z := le_combine (firstn 4 b).
Definition Uint64 (b : list byte) : Z := le_combine (firstn 8 b).
Definition PutUint32 (v : Z) : list byte := le_split 4 v.
Definition PutUint64 (v : Z) : list byte := le_split 8 v.

End Go.
Import Go.

Declare Scope result_scope.
Notation "x <-- e ;; k" := (bind e (fun x => k))
  (at level 61, e at next level, right associativity) : result_scope.
Notation "' p <-- e ;; k" := (bind e (fun p => k))
  (at level 61, p pattern, e at next level, right associativity) : result_scope.
Local Open Scope result_scope.

(** ** chacha20.go: RFC 7539 ChaCha20, reference implementation

    The sources hold two bodies of [chacha20]: one that delegates to
    golang.org/x/crypto, and the package's own reference implementation
    in chacha20.go, which is the one embedded here, with
    [chachaXORKeyStream] bound to [chachaXORKeyStreamRef] as in
    hwaccel_ref.go. *)

Module ChaCha.

Definition sigma0 : Z := 0x61707865.
Definition sigma1 : Z := 0x3320646e.
Definition sigma2 : Z := 0x79622d32.
Definition sigma3 : Z := 0x6b206574.

Definition chachaKeySize : nat := 32.
Definition chachaNonceSize : nat := 12.
Definition chachaBlockSize : nat := 64.
Definition chachaRounds : nat := 20.

(** [type chachaState [16]uint32]. *)
Record chachaState : Type := mkState {
  s0 : Z; s1 : Z; s2 : Z; s3 : Z; s4 : Z; s5 : Z; s6 : Z; s7 : Z;
  s8 : Z; s9 : Z; s10 : Z; s11 : Z; s12 : Z; s13 : Z; s14 : Z; s15 : Z }.

(** [bits.RotateLeft32]. *)
Definition RotateLeft32 (x : Z) (k : Z) : Z :=
  uint32 (Z.lor (Z.shiftl x k) (Z.shiftr x (32 - k))).

(** The twelve statements the round body repeats for each column and
    each diagonal, on the four registers it names. *)
Definition quarterRound (a b c d : Z) : Z * Z * Z * Z :=
  let a := uint32 (a + b) in
  let d := Z.lxor d a in
  let d := RotateLeft32 d 16 in
  let c := uint32 (c + d) in
  let b := Z.lxor b c in
  let b := RotateLeft32 b 12 in
  let a := uint32 (a + b) in
  let d := Z.lxor d a in
  let d := RotateLeft32 d 8 in
  let c := uint32 (c + d) in
  let b := Z.lxor b c in
  let b := RotateLeft32 b 7 in
  (a, b, c, d).

(** One iteration of [for i := chachaRounds; i > 0; i -= 2]. *)
Definition doubleRound (x : chachaState) : chachaState :=
  let '(mkState x0 x1 x2 x3 x4 x5 x6 x7 x8 x9 x10 x11 x12 x13 x14 x15) := x in
  let '(x0, x4, x8, x12) := quarterRound x0 x4 x8 x12 in
  let '(x1, x5, x9, x13) := quarterRound x1 x5 x9 x13 in
  let '(x2, x6, x10, x14) := quarterRound x2 x6 x10 x14 in
  let '(x3, x7, x11, x15) := quarterRound x3 x7 x11 x15 in
  let '(x0, x5, x10, x15) := quarterRound x0 x5 x10 x15 in
  let '(x1, x6, x11, x12) := quarterRound x1 x6 x11 x12 in
  let '(x2, x7, x8, x13) := quarterRound x2 x7 x8 x13 in
  let '(x3, x4, x9, x14) := quarterRound x3 x4 x9 x14 in
  mkState x0 x1 x2 x3 x4 x5 x6 x7 x8 x9 x10 x11 x12 x13 x14 x15.

(** The sixteen words [x_i + s_i] a block XORs into its input. *)
Definition blockWords (s : chachaState) : list Z :=
  let x := Nat.iter (chachaRounds / 2) doubleRound s in
  [ uint32 (s0 x + s0 s); uint32 (s1 x + s1 s); uint32 (s2 x + s2 s);
    uint32 (s3 x + s3 s); uint32 (s4 x + s4 s); uint32 (s5 x + s5 s);
    uint32 (s6 x + s6 s); uint32 (s7 x + s7 s); uint32 (s8 x + s8 s);
    uint32 (s9 x + s9 s); uint32 (s10 x + s10 s); uint32 (s11 x + s11 s);
    uint32 (s12 x + s12 s); uint32 (s13 x + s13 s); uint32 (s14 x + s14 s);
    uint32 (s15 x + s15 s) ].

(** [PutUint32(out[4i:], Uint32(in[4i:]) ^ (x_i + s_i))] for the words
    in turn: the bytes written. *)
Fixpoint xorWords (ws : list Z) (inp : list byte) : list byte :=
  match ws with
  | [] => []
  | w :: ws' => PutUint32 (Z.lxor (Uint32 inp) w) ++ xorWords ws' (skipn 4 inp)
  end.

(** [s12 = s12 + 1]. *)
Definition nextBlock (s : chachaState) : chachaState :=
  mkState (s0 s) (s1 s) (s2 s) (s3 s) (s4 s) (s5 s) (s6 s) (s7 s)
          (s8 s) (s9 s) (s10 s) (s11 s) (uint32 (s12 s + 1)) (s13 s) (s14 s) (s15 s).

(** [chachaBlocksRef(s, in, out, nrBlocks)]: the new state and the new
    contents of [out].  Each block checks [in[63]] and [out[63]], writes
    [out[0:64]] and advances both slices by a block.  Every word of
    [in] is read before the same word of [out] is written, so the
    result is the same when [in] and [out] are one buffer. *)
Fixpoint chachaBlocksRef (nrBlocks : nat) (s : chachaState) (inp out : list byte)
  : result (chachaState * list byte) :=
  match nrBlocks with
  | O => Ok (s, out)
  | S n =>
      _ <-- index inp (chachaBlockSize - 1) ;;
      _ <-- index out (chachaBlockSize - 1) ;;
      let written := xorWords (blockWords s) inp in
      '(s', rest) <-- chachaBlocksRef n (nextBlock s)
                        (skipn chachaBlockSize inp) (skipn chachaBlockSize out) ;;
      Ok (s', written ++ rest)
  end.

(** [chachaXORKeyStreamRef(s, in, out)]; [chachaXORKeyStream] is this
    function in the build without assembly (hwaccel_ref.go). *)
Definition chachaXORKeyStreamRef (s : chachaState) (inp out : list byte)
  : result (chachaState * list byte) :=
  let inLen := length inp in
  let fullBlocks := (inLen / chachaBlockSize)%nat in
  '(s, out) <-- (if (0 <? fullBlocks)%nat
                 then chachaBlocksRef fullBlocks s inp out
                 else Ok (s, out)) ;;
  let off := (if (0 <? fullBlocks)%nat then fullBlocks * chachaBlockSize else 0)%nat in
  let inLen := (if (0 <? fullBlocks)%nat
                then inLen - fullBlocks * chachaBlockSize else inLen)%nat in
  if (0 <? inLen)%nat then
    inTail <-- sliceFrom inp off ;;
    let partial := copy (zeros chachaBlockSize) inTail in
    '(s, partial) <-- chachaBlocksRef 1 s partial partial ;;
    outTail <-- sliceFrom out off ;;
    Ok (s, firstn off out ++ copy outTail partial)
  else Ok (s, out).

Definition chachaXORKeyStream := chachaXORKeyStreamRef.

(** The state [chacha20] builds: the constants, the key, the counter
    and the nonce. *)
Definition initState (key nonce : list byte) (initialCounter : Z) : chachaState :=
  mkState sigma0 sigma1 sigma2 sigma3
          (Uint32 (skipn 0 key)) (Uint32 (skipn 4 key))
          (Uint32 (skipn 8 key)) (Uint32 (skipn 12 key))
          (Uint32 (skipn 16 key)) (Uint32 (skipn 20 key))
          (Uint32 (skipn 24 key)) (Uint32 (skipn 28 key))
          initialCounter
          (Uint32 (skipn 0 nonce)) (Uint32 (skipn 4 nonce))
          (Uint32 (skipn 8 nonce)).

(** [chacha20(key, nonce, in, out, initialCounter)]: the new contents of
    [out].  The state is purged before returning, which no caller can
    observe. *)
Definition chacha20 (key nonce inp out : list byte) (initialCounter : Z)
  : result (list byte) :=
  if negb (length key =? chachaKeySize)%nat then Panic InvalidChachaKeySize
  else if negb (length nonce =? chachaNonceSize)%nat then Panic InvalidChachaNonceSize
  else if (length inp =? 0)%nat then Ok out
  else
    let inp := if (length out <? length inp)%nat then firstn (length out) inp else inp in
    let s := initState key nonce initialCounter in
    '(_, out) <-- chachaXORKeyStream s inp out ;;
    Ok out.

End ChaCha.
Import ChaCha.

(** ** hs1.go: the HS1 hash *)

Module HS1.

Definition hs1NHLen : nat := 64.     (* Parameter b *)
Definition hs1HashRounds : nat := 6. (* Parameter t *)
Definition hs1SIVLen : nat := 32.    (* Parameter l *)

Definition m60 : Z := Z.shiftl 1 60 - 1.
Definition m61 : Z := Z.shiftl 1 61 - 1.

Definition nhKeyLen : nat := hs1NHLen / 4 + 4 * (hs1HashRounds - 1).
Definition hashStateSize : nat :=
  nhKeyLen * 4 + hs1HashRounds * 8 + hs1HashRounds * 3 * 8.

(** [type hs1Ctx struct]: three arrays, of 36 [uint32], 6 [uint64] and
    18 [uint64].  An array is the list of its elements. *)
Record hs1Ctx : Type := mkHs1Ctx {
  nhKey : list Z;
  polyKey : list Z;
  asuKey : list Z }.

(** [int64(x)] of a [uint64]: the same bits, read as two's complement. *)
Definition int64 (z : Z) : Z := (z + 2 ^ 63) mod 2 ^ 64 - 2 ^ 63.

Definition polyStep (a b k : Z) : Z :=
  let m := uint64 (uint64 (uint32 (Z.shiftr a 32) * uint32 k)
                   + uint64 (uint32 (Z.shiftr k 32) * uint32 a)) in
  let h := uint64 (uint32 (Z.shiftr a 32) * uint32 (Z.shiftr k 32)) in
  let l := uint64 (uint32 a * uint32 k) in
  uint64 (uint64 (uint64 (uint64 (uint64 (Z.land l m61 + uint64 (Z.shiftl h 3))
                                  + Z.shiftr l 61)
                          + b)
                  + Z.shiftr m 29)
          + Z.land (uint64 (Z.shiftl m 32)) m61).

Definition polyFinalize (a : Z) : Z :=
  let a := uint64 (Z.land a m61 + Z.shiftr a 61) in
  let mask := uint64 (Z.shiftr (int64 (uint64 ((m61 - 1) - a))) 63) in
  uint64 (a - Z.land mask m61).

Definition asuHash (x : Z) (k : list Z) : result Z :=
  _ <-- index k 2 ;;
  let t := uint64 (uint64 (nth 0 k 0 + uint64 (nth 1 k 0 * uint32 x))
                   + uint64 (nth 2 k 0 * uint32 (Z.shiftr x 32))) in
  Ok (uint32 (Z.shiftr t 32)).

(** [a[i] = v] on an array. *)
Fixpoint set (a : list Z) (i : nat) (v : Z) : list Z :=
  match a, i with
  | [], _ => []
  | _ :: a', O => v :: a'
  | x :: a', S i' => x :: set a' i' v
  end.

(** The values of [j] in [for j := 0; j < hs1HashRounds; j += 2]. *)
Definition lanePairs : list nat := [0; 2; 4]%nat.

(** The loop over [j] of the NH layer, for the four message words of one
    16-byte chunk and the key window at [i+j*4]. *)
Fixpoint nhRounds (js : list nat) (ctx : hs1Ctx) (i : nat)
         (mp0 mp1 mp2 mp3 : Z) (nhRes : list Z) : result (list Z) :=
  match js with
  | [] => Ok nhRes
  | j :: js' =>
      kp <-- sliceFrom (nhKey ctx) (i + j * 4) ;;
      _ <-- index kp 7 ;;
      let k n := nth n kp 0 in
      let nhRes := set nhRes (j + 0)
        (uint64 (nth (j + 0) nhRes 0 + uint64 (uint32 (mp0 + k 0%nat) * uint32 (mp2 + k 2%nat)))) in
      let nhRes := set nhRes (j + 1)
        (uint64 (nth (j + 1) nhRes 0 + uint64 (uint32 (mp0 + k 4%nat) * uint32 (mp2 + k 6%nat)))) in
      let nhRes := set nhRes (j + 0)
        (uint64 (nth (j + 0) nhRes 0 + uint64 (uint32 (mp1 + k 1%nat) * uint32 (mp3 + k 3%nat)))) in
      let nhRes := set nhRes (j + 1)
        (uint64 (nth (j + 1) nhRes 0 + uint64 (uint32 (mp1 + k 5%nat) * uint32 (mp3 + k 7%nat)))) in
      nhRounds js' ctx i mp0 mp1 mp2 mp3 nhRes
  end.

(** The loop over [i] of the NH layer: one iteration per element of
    [offs], each checking [in[15]], reading four words and advancing [in]
    by 16 bytes.  It returns [nhRes] and the advanced [in]. *)
Fixpoint nhChunks (offs : list nat) (ctx : hs1Ctx) (inp : list byte) (nhRes : list Z)
  : result (list Z * list byte) :=
  match offs with
  | [] => Ok (nhRes, inp)
  | i :: offs' =>
      _ <-- index inp 15 ;;
      let mp0 := Uint32 (skipn 0 inp) in
      let mp1 := Uint32 (skipn 4 inp) in
      let mp2 := Uint32 (skipn 8 inp) in
      let mp3 := Uint32 (skipn 12 inp) in
      nhRes <-- nhRounds lanePairs ctx i mp0 mp1 mp2 mp3 nhRes ;;
      nhChunks offs' ctx (skipn 16 inp) nhRes
  end.

(** The loop over [j] of the polynomial layer. *)
Fixpoint polyRounds (js : list nat) (ctx : hs1Ctx) (nhRes accum : list Z) : list Z :=
  match js with
  | [] => accum
  | j :: js' =>
      let accum := set accum j
        (polyStep (nth j accum 0) (Z.land (nth j nhRes 0) m60) (nth j (polyKey ctx) 0)) in
      let accum := set accum (j + 1)
        (polyStep (nth (j + 1) accum 0) (Z.land (nth (j + 1) nhRes 0) m60)
                  (nth (j + 1) (polyKey ctx) 0)) in
      polyRounds js' ctx nhRes accum
  end.

(** The values of [i] in [for i := 0; 4*i < n; i += 4]. *)
Definition chunkOffsets (n : nat) : list nat :=
  map (fun t => 4 * t)%nat (seq 0 ((n + 15) / 16)).

(** [for inBytes > 0 { ...; inBytes -= hs1NHLen }] runs once per started
    block of 64 bytes; [blocks] counts the iterations left. *)
Fixpoint hashStepLoop (blocks : nat) (ctx : hs1Ctx) (inp : list byte) (accum : list Z)
  : result (list Z) :=
  match blocks with
  | O => Ok accum
  | S blocks' =>
      '(nhRes, inp) <-- nhChunks (chunkOffsets hs1NHLen) ctx inp (repeat 0 hs1HashRounds) ;;
      let accum := polyRounds lanePairs ctx nhRes accum in
      hashStepLoop blocks' ctx inp accum
  end.

(** [hashStep(ctx, in, accum)]: the new accumulator. *)
Definition hashStep (ctx : hs1Ctx) (inp : list byte) (accum : list Z) : result (list Z) :=
  hashStepLoop ((length inp + (hs1NHLen - 1)) / hs1NHLen) ctx inp accum.

(** [PutUint32(b[off:], v)]: the new contents of [b]. *)
Definition putUint32At (b : list byte) (off : nat) (v : Z) : result (list byte) :=
  tail <-- sliceFrom b off ;;
  _ <-- index tail 3 ;;
  Ok (firstn off b ++ PutUint32 v ++ skipn (off + 4) b).

(** The last loop of [hashFinalize]. *)
Fixpoint asuRounds (js : list nat) (ctx : hs1Ctx) (accum : list Z) (res : list byte)
  : result (list byte) :=
  match js with
  | [] => Ok res
  | j :: js' =>
      k0 <-- sliceFrom (asuKey ctx) (3 * j) ;;
      s0 <-- asuHash (polyFinalize (nth j accum 0)) k0 ;;
      k1 <-- sliceFrom (asuKey ctx) (3 * j + 3) ;;
      s1 <-- asuHash (polyFinalize (nth (j + 1) accum 0)) k1 ;;
      res <-- putUint32At res (j * 4) s0 ;;
      res <-- putUint32At res (j * 4 + 4) s1 ;;
      asuRounds js' ctx accum res
  end.

(** [hashFinalize(ctx, in, accum, result)]: the new accumulator and the
    new contents of [result]. *)
Definition hashFinalize (ctx : hs1Ctx) (inp : list byte) (accum : list Z) (res : list byte)
  : result (list Z * list byte) :=
  let inBytes := length inp in
  accum <-- (if (0 <? inBytes)%nat then
               '(nhRes, _) <-- nhChunks (chunkOffsets inBytes) ctx inp
                                 (repeat 0 hs1HashRounds) ;;
               Ok (polyRounds lanePairs ctx nhRes accum)
             else Ok accum) ;;
  res <-- asuRounds lanePairs ctx accum res ;;
  Ok (accum, res).

End HS1.
Import HS1.

(** ** hs1siv.go: the AEAD *)

Module HS1SIV.

Definition KeySize : nat := 32.
Definition NonceSize : nat := 12.
Definition TagSize : nat := 32.

(** The ChaCha20 sizes the AEAD names: the key and nonce sizes of
    golang.org/x/crypto/chacha20, 32 and 12, which are those of
    chacha20.go. *)
Definition chacha20KeySize : nat := chachaKeySize.
Definition chacha20NonceSize : nat := chachaNonceSize.
Definition chacha20Rounds : nat := chachaRounds.

Definition stateSize : nat := chacha20KeySize + hashStateSize.

(** [settings]: eleven values are listed, the twelfth element of the
    array is zero. *)
Definition settings : list byte :=
  map (fun n : nat => byte.of_Z (Z.of_nat n))
      [0; 0; hs1SIVLen; 0; chacha20Rounds; hs1HashRounds; hs1NHLen; 0; 0; 0; 0; 0]%nat.

Definition zero : list byte := zeros hs1SIVLen.

(** *** The calls to the hash, recorded

    The AEAD's methods run in a writer over [result]: besides their
    value they yield the list of the calls they made to [hashStep] and
    [hashFinalize], each with the input slice it was given, in order.
    The log is not part of the program; it is what statements about the
    order and the shape of the hash calls are made of. *)
Inductive event : Type :=
| HashStepCall (inp : list byte)
| HashFinalizeCall (inp : list byte).

Definition traced (A : Type) : Type := (list event * result A)%type.

Definition tret {A} (a : A) : traced A := ([], Ok a).

Definition tbind {A B} (m : traced A) (k : A -> traced B) : traced B :=
  match m with
  | (t, Ok a) => let (t', r) := k a in (t ++ t', r)
  | (t, Panic p) => (t, Panic p)
  end.

Definition lift {A} (r : result A) : traced A := ([], r).

Definition trace {A} (m : traced A) : list event := fst m.
Definition value {A} (m : traced A) : result A := snd m.

Definition callHashStep (ctx : hs1Ctx) (inp : list byte) (accum : list Z)
  : traced (list Z) :=
  ([HashStepCall inp], hashStep ctx inp accum).

Definition callHashFinalize (ctx : hs1Ctx) (inp : list byte) (accum : list Z)
           (res : list byte) : traced (list Z * list byte) :=
  ([HashFinalizeCall inp], hashFinalize ctx inp accum res).

Declare Scope traced_scope.
Notation "x <~~ e ;; k" := (tbind e (fun x => k))
  (at level 61, e at next level, right associativity) : traced_scope.
Notation "' p <~~ e ;; k" := (tbind e (fun p => k))
  (at level 61, p pattern, e at next level, right associativity) : traced_scope.
Local Open Scope traced_scope.

(** *** Slices with capacity

    A [[]byte] that is appended to is its elements together with the
    rest of its backing array: [len] is [length data] and [cap] is
    [length data + length spare].  The buffers handed to Seal and Open
    as [dst] share no memory with the other arguments here. *)
Record slice : Type := mkSlice { data : list byte; spare : list byte }.

Definition len (s : slice) : nat := length (data s).
Definition cap (s : slice) : nat := (length (data s) + length (spare s))%nat.
Definition nilSlice : slice := mkSlice [] [].

(** [head] after its tail [head[off:]] has been written through. *)
Definition withTail (head : slice) (off : nat) (tail : list byte) : slice :=
  mkSlice (firstn off (data head) ++ tail) (spare head).

(** [type AEAD struct]. *)
Record AEAD : Type := mkAEAD { key : list byte }.

(** [type aeadCtx struct]. *)
Record aeadCtx : Type := mkAeadCtx {
  chachaKey : list byte;
  hashCtx : hs1Ctx;
  sivAccum : list Z;
  sivLenBuf : list byte }.

(** [subtle.ConstantTimeCompare], by its documentation: 1 when the two
    slices have equal contents, 0 otherwise. *)
Definition ConstantTimeCompare (x y : list byte) : Z :=
  if list_eq_dec Byte.byte_eq_dec x y then 1 else 0.

(** [xorCopyChaChaKey(dst, src)]: the new contents of [dst].  Both
    arguments are 32-byte arrays at every call. *)
Definition xorCopyChaChaKey (dst src : list byte) : list byte :=
  let n := 24%nat in
  xorBytes (firstn n dst) (firstn n src) ++ copy (skipn n dst) (skipn n src).

(** The three loops of [setup] that read the key schedule, each
    advancing [off]. *)
Fixpoint readUint32s (n : nat) (buf : list byte) (off : nat) : list Z * nat :=
  match n with
  | O => ([], off)
  | S n' =>
      let v := Uint32 (skipn off buf) in
      let '(vs, off') := readUint32s n' buf (off + 4) in
      (v :: vs, off')
  end.

Fixpoint readUint64s (n : nat) (buf : list byte) (off : nat) : list Z * nat :=
  match n with
  | O => ([], off)
  | S n' =>
      let v := Uint64 (skipn off buf) in
      let '(vs, off') := readUint64s n' buf (off + 8) in
      (v :: vs, off')
  end.

(** [ctx.setup(userKey)] on a zero [aeadCtx]. *)
Definition setup (userKey : list byte) : result aeadCtx :=
  let chachaNonce := copy (zeros chacha20NonceSize) settings in
  let chachaNonce := byte.of_Z (Z.of_nat (length userKey)) :: skipn 1 chachaNonce in
  let buf := zeros stateSize in
  buf <-- chacha20 userKey chachaNonce buf buf 0 ;;
  let off := chacha20KeySize in
  let chachaKey := copy (zeros chacha20KeySize) (firstn off buf) in
  let '(nhKey, off) := readUint32s nhKeyLen buf off in
  let '(polyKey, off) := readUint64s hs1HashRounds buf off in
  let polyKey := map (fun v => Z.land v m60) polyKey in
  let '(asuKey, off) := readUint64s (hs1HashRounds * 3) buf off in
  Ok (mkAeadCtx chachaKey (mkHs1Ctx nhKey polyKey asuKey)
                (repeat 0 hs1HashRounds) (zeros 16)).

Definition sivSetup (ctx : aeadCtx) (aBytes mBytes : nat) : aeadCtx :=
  mkAeadCtx (chachaKey ctx) (hashCtx ctx)
            (repeat 1 hs1HashRounds)
            (PutUint64 (uint64 (Z.of_nat aBytes)) ++ PutUint64 (uint64 (Z.of_nat mBytes))).

(** [n & ^(hs1NHLen - 1)] on a length. *)
Definition nhMultipleOf (n : nat) : nat :=
  Z.to_nat (Z.land (Z.of_nat n) (Z.lnot (Z.of_nat hs1NHLen - 1))).

Definition withAccum (ctx : aeadCtx) (accum : list Z) : aeadCtx :=
  mkAeadCtx (chachaKey ctx) (hashCtx ctx) accum (sivLenBuf ctx).

Definition sivHashAD (ctx : aeadCtx) (a : list byte) : traced aeadCtx :=
  let aBytes := length a in
  let nhMultiple := nhMultipleOf aBytes in
  accum <~~ callHashStep (hashCtx ctx) (firstn nhMultiple a) (sivAccum ctx) ;;
  if (nhMultiple <? aBytes)%nat then
    let buf := copy (zeros hs1NHLen) (skipn nhMultiple a) in
    accum <~~ callHashStep (hashCtx ctx) buf accum ;;
    tret (withAccum ctx accum)
  else tret (withAccum ctx accum).

(** The first half of [sivGenerate], under its comment "Hash message
    data": the accumulator and the contents of the local [chachaKey]
    after [hashFinalize]. *)
Definition sivHashMessage (ctx : aeadCtx) (m : list byte) : traced (list Z * list byte) :=
  let mBytes := length m in
  let chachaKey0 := zeros chacha20KeySize in
  let nhMultiple := nhMultipleOf mBytes in
  accum <~~ callHashStep (hashCtx ctx) (firstn nhMultiple m) (sivAccum ctx) ;;
  let mBytes := (mBytes - nhMultiple)%nat in
  let mBytesWithPadding := Z.to_nat (Z.land (Z.of_nat mBytes + 15) (Z.lnot 15)) in
  if (mBytesWithPadding =? hs1NHLen)%nat then
    let buf := copy (zeros hs1NHLen) (skipn nhMultiple m) in
    accum <~~ callHashStep (hashCtx ctx) buf accum ;;
    callHashFinalize (hashCtx ctx) (sivLenBuf ctx) accum chachaKey0
  else
    let buf := copy (zeros hs1NHLen) (skipn nhMultiple m) in
    let buf := firstn mBytesWithPadding buf
                 ++ copy (skipn mBytesWithPadding buf) (sivLenBuf ctx) in
    callHashFinalize (hashCtx ctx) (firstn (mBytesWithPadding + 16) buf)
                     accum chachaKey0.

(** [ctx.sivGenerate(m, n, siv)]: the context and the new contents of
    [siv].  The second half, under "Derive the SIV", follows the
    first. *)
Definition sivGenerate (ctx : aeadCtx) (m n siv : list byte) : traced (aeadCtx * list byte) :=
  '(accum, chachaKey1) <~~ sivHashMessage ctx m ;;
  let chachaKey1 := xorCopyChaChaKey chachaKey1 (chachaKey ctx) in
  siv <~~ lift (chacha20 chachaKey1 n zero siv 0) ;;
  tret (withAccum ctx accum, siv).

(** [ctx.encrypt(m, a, n, c)]: the new contents of [c]. *)
Definition encrypt (ctx : aeadCtx) (m a n c : list byte) : traced (list byte) :=
  let mBytes := length m in
  let accum := repeat 1 hs1HashRounds in
  let siv := zeros hs1SIVLen in
  let ctx := sivSetup ctx (length a) (length m) in
  ctx <~~ sivHashAD ctx a ;;
  '(ctx, siv) <~~ sivGenerate ctx m n siv ;;
  let chachaKey0 := zeros chacha20KeySize in
  '(_, chachaKey1) <~~ callHashFinalize (hashCtx ctx) siv accum chachaKey0 ;;
  let chachaKey1 := xorCopyChaChaKey chachaKey1 (chachaKey ctx) in
  c <~~ lift (chacha20 chachaKey1 n m c 1) ;;
  cTail <~~ lift (sliceFrom c mBytes) ;;
  tret (firstn mBytes c ++ copy cTail siv).

(** [ctx.decrypt(c, a, n, m)]: the verdict and the new contents of
    [m]. *)
Definition decrypt (ctx : aeadCtx) (c a n m : list byte) : traced (bool * list byte) :=
  let cBytes := length c in
  if (cBytes <? hs1SIVLen)%nat then tret (false, m)
  else
    let mBytes := (cBytes - hs1SIVLen)%nat in
    let accum := repeat 1 hs1HashRounds in
    let siv := copy (zeros hs1SIVLen) (skipn mBytes c) in
    let nonce := copy (zeros NonceSize) n in
    let maybeSIV := zeros hs1SIVLen in
    let chachaKey0 := zeros chacha20KeySize in
    '(_, chachaKey1) <~~ callHashFinalize (hashCtx ctx) siv accum chachaKey0 ;;
    let chachaKey1 := xorCopyChaChaKey chachaKey1 (chachaKey ctx) in
    let ctx := sivSetup ctx (length a) (length m) in
    ctx <~~ sivHashAD ctx a ;;
    m <~~ lift (chacha20 chachaKey1 nonce (firstn mBytes c) m 1) ;;
    '(ctx, maybeSIV) <~~ sivGenerate ctx m nonce maybeSIV ;;
    tret (ConstantTimeCompare siv maybeSIV =? 1, m).

(** [sliceForAppend(in, n)]: [head], and the contents of [tail], which
    is [head[len(in):]] and shares its memory.  [n] is a Go [int] and
    can be negative. *)
Definition sliceForAppend (inp : slice) (n : Z) : result (slice * list byte) :=
  let total := Z.of_nat (len inp) + n in
  head <-- (if Z.of_nat (cap inp) >=? total then
              if total <? 0 then Panic SliceBoundsOutOfRange
              else
                let backing := data inp ++ spare inp in
                Ok (mkSlice (firstn (Z.to_nat total) backing)
                            (skipn (Z.to_nat total) backing))
            else
              Ok (mkSlice (copy (zeros (Z.to_nat total)) (data inp)) [])) ;;
  tail <-- sliceFrom (data head) (len inp) ;;
  Ok (head, tail).

Definition Seal (ae : AEAD) (dst : slice) (nonce plaintext additionalData : list byte)
  : traced slice :=
  if negb (length nonce =? NonceSize)%nat
  then lift (Panic (PanicError ErrInvalidNonceSize))
  else
    ctx <~~ lift (setup (key ae)) ;;
    '(ret, out) <~~ lift (sliceForAppend dst (Z.of_nat (length plaintext) + Z.of_nat TagSize)) ;;
    out <~~ encrypt ctx plaintext additionalData nonce out ;;
    tret (withTail ret (len dst) out).

(** What a call to Open leaves behind: the two values it returns and
    the final contents of [out], the memory after [dst] it decrypted
    into. *)
Record opened : Type := mkOpened {
  ret : slice;
  err : option error;
  outMem : list byte }.

Definition Open (ae : AEAD) (dst : slice) (nonce ciphertext additionalData : list byte)
  : traced opened :=
  if negb (length nonce =? NonceSize)%nat
  then lift (Panic (PanicError ErrInvalidNonceSize))
  else
    ctx <~~ lift (setup (key ae)) ;;
    '(ret, out) <~~ lift (sliceForAppend dst
                            (Z.of_nat (length ciphertext) - Z.of_nat TagSize)) ;;
    '(ok, out) <~~ decrypt ctx ciphertext additionalData nonce out ;;
    if negb ok then
      if (0 <? length out)%nat then
        let out := map (fun _ => Byte.x00) out in
        tret (mkOpened nilSlice (Some ErrOpen) out)
      else tret (mkOpened (withTail ret (len dst) out) (Some ErrOpen) out)
    else tret (mkOpened (withTail ret (len dst) out) None out).

Definition New (key : list byte) : result AEAD :=
  if negb (length key =? KeySize)%nat then Panic (PanicError ErrInvalidKeySize)
  else Ok (mkAEAD (copy (zeros (length key)) key)).

End HS1SIV.
Import HS1SIV.
Local Open Scope traced_scope.


(** ** What the claims speak of *)

Module Spec.

(** The 64 bytes of keystream of one block. *)
Definition blockBytes (s : chachaState) : list byte :=
  flat_map PutUint32 (blockWords s).

(** The keystream of [n] consecutive blocks, from the state [s] on. *)
Fixpoint keystreamBlocks (n : nat) (s : chachaState) : list byte :=
  match n with
  | O => []
  | S n' => blockBytes s ++ keystreamBlocks n' (nextBlock s)
  end.

(** The number of 64-byte blocks that [n] bytes start. *)
Definition blocksFor (n : nat) : nat := ((n + 63) / 64)%nat.

(** The first [n] bytes of the ChaCha20 keystream under a key, a nonce
    and an initial counter. *)
Definition keystream (key nonce : list byte) (counter : Z) (n : nat) : list byte :=
  firstn n (keystreamBlocks (blocksFor n) (initState key nonce counter)).

(** [inp] padded with zeros to whole blocks, XORed with the keystream:
    what the block function computes for an input [inp], the last
    block in the scratch buffer. *)
Definition xorKeyStreamPadded (key nonce : list byte) (counter : Z) (inp : list byte)
  : list byte :=
  let nb := blocksFor (length inp) in
  xorBytes (inp ++ zeros (nb * 64 - length inp))
           (keystreamBlocks nb (initState key nonce counter)).

(** The sizes the type [hs1Ctx] gives its three arrays. *)
Definition wfHashCtx (ctx : hs1Ctx) : Prop :=
  length (nhKey ctx) = nhKeyLen /\
  length (polyKey ctx) = hs1HashRounds /\
  length (asuKey ctx) = (hs1HashRounds * 3)%nat.

(** What [asuHash] returns when its key slice holds three words. *)
Definition asuValue (x : Z) (k : list Z) : Z :=
  uint32 (Z.shiftr (uint64 (uint64 (nth 0 k 0 + uint64 (nth 1 k 0 * uint32 x))
                            + uint64 (nth 2 k 0 * uint32 (Z.shiftr x 32)))) 32).

(** The bytes [hashFinalize] stores for an accumulator: four per lane. *)
Definition digest (ctx : hs1Ctx) (accum : list Z) : list byte :=
  flat_map (fun i => PutUint32 (asuValue (polyFinalize (nth i accum 0))
                                         (skipn (3 * i) (asuKey ctx))))
           (seq 0 hs1HashRounds).

(** A context as [setup] leaves it: a 32-byte cipher key and hash keys
    of the sizes of their arrays. *)
Definition wfCtx (ctx : aeadCtx) : Prop :=
  length (chachaKey ctx) = 32%nat /\ wfHashCtx (hashCtx ctx).

(** The input slice of a recorded call. *)
Definition input (e : event) : list byte :=
  match e with
  | HashStepCall inp => inp
  | HashFinalizeCall inp => inp
  end.

(** All the bytes a sequence of calls hands to the hash, in order. *)
Definition absorbedBytes (t : list event) : list byte := flat_map input t.

(** The preconditions of the two hash functions on their input: whole
    64-byte blocks for [hashStep], at most four 16-byte chunks for
    [hashFinalize]. *)
Definition callInRange (e : event) : Prop :=
  match e with
  | HashStepCall inp => (length inp mod 64 = 0)%nat
  | HashFinalizeCall inp => (length inp <= 64)%nat /\ (length inp mod 16 = 0)%nat
  end.

(** [x] followed by the zeros that fill its last block of [b] bytes. *)
Definition padTo (b : nat) (x : list byte) : list byte :=
  x ++ zeros ((b - length x mod b) mod b).

(** The length block: the two lengths as 8-byte little-endian words. *)
Definition lenBlock (aBytes mBytes : nat) : list byte :=
  PutUint64 (uint64 (Z.of_nat aBytes)) ++ PutUint64 (uint64 (Z.of_nat mBytes)).

(** The key of the SIV phase: the hash of the associated data, the
    message and the length block, folded over the cipher sub-key. *)
Definition sivKey (ctx : aeadCtx) (a m : list byte) : result (list byte) :=
  value (ctx1 <~~ sivHashAD (sivSetup ctx (length a) (length m)) a ;;
         '(_, h) <~~ sivHashMessage ctx1 m ;;
         tret (xorCopyChaChaKey h (chachaKey ctx))).

(** The key of the encryption phase: the hash of the SIV under a fresh
    accumulator, folded over the cipher sub-key. *)
Definition messageKey (ctx : aeadCtx) (siv : list byte) : result (list byte) :=
  '(_, h) <-- hashFinalize (hashCtx ctx) siv (repeat 1 hs1HashRounds)
                           (zeros chacha20KeySize) ;;
  Ok (xorCopyChaChaKey h (chachaKey ctx)).

(** Seal, in the words of its specification: the SIV is ChaCha20 of 32
    zero bytes under the derived key, the nonce and counter 0; the body
    is the plaintext XORed with the keystream under the final key, the
    nonce and counter 1; the output is the body followed by the SIV. *)
Definition sealedBytes (userKey nonce plaintext additionalData : list byte)
  : result (list byte) :=
  ctx <-- setup userKey ;;
  derivedKey <-- sivKey ctx additionalData plaintext ;;
  let siv := xorBytes (zeros 32) (keystream derivedKey nonce 0 32) in
  finalKey <-- messageKey ctx siv ;;
  let body := xorBytes plaintext (keystream finalKey nonce 1 (length plaintext)) in
  Ok (body ++ siv).

(** The claimed tag and the body of a ciphertext of at least 32
    bytes. *)
Definition tagOf (c : list byte) : list byte := skipn (length c - 32) c.
Definition bodyOf (c : list byte) : list byte := firstn (length c - 32) c.

(** Open, in the words of its specification, up to the comparison: the
    candidate plaintext is the body decrypted under the key derived
    from the claimed tag, and the recomputed SIV is the SIV of the
    associated data and the candidate plaintext. *)
Definition candidate (userKey nonce c ad : list byte) : result (list byte * list byte) :=
  ctx <-- setup userKey ;;
  finalKey <-- messageKey ctx (tagOf c) ;;
  let pt := xorBytes (bodyOf c) (keystream finalKey nonce 1 (length c - 32)) in
  derivedKey <-- sivKey ctx ad pt ;;
  Ok (pt, xorBytes (zeros 32) (keystream derivedKey nonce 0 32)).

(** The calls of a Seal but the last one, which hashes the SIV for the
    encryption key under an accumulator of its own: the calls of the
    SIV hash. *)
Definition sivHashCalls {A} (m : traced A) : list event := removelast (trace m).

(** "The length block is absorbed before any associated-data byte": in
    the bytes handed to the SIV hash, the length block occurs, and the
    associated data occurs after it. *)
Definition lengthBlockBeforeAD (a m stream : list byte) : Prop :=
  exists pre post,
    stream = pre ++ lenBlock (length a) (length m) ++ post /\
    exists x y, post = x ++ a ++ y.

(** "[hashFinalize] writes a 32-byte digest into the result buffer":
    whatever a 32-byte buffer held, it holds the same 32 bytes
    afterwards. *)
Definition writes32ByteDigest (ctx : hs1Ctx) (inp : list byte) (accum : list Z) : Prop :=
  exists d,
    length d = 32%nat /\
    forall res, length res = 32%nat ->
      exists accum', hashFinalize ctx inp accum res = Ok (accum', d).

(** "Only the needed prefix is copied into the output": the bytes of
    [out] after the first [len(in)] are as they were. *)
Definition copiesOnlyNeededPrefix (key nonce : list byte) (counter : Z)
           (inp out : list byte) : Prop :=
  exists out',
    chacha20 key nonce inp out counter = Ok out' /\
    skipn (length inp) out' = skipn (length inp) out.

End Spec.
Import Spec.

(** ** hs1siv_test.go: the inputs of [doTestKAT] *)

Module KAT.

Definition pattern (mult len : nat) : list byte :=
  map (fun i => byte.of_Z (Z.land 255 (Z.of_nat (i * mult + 123)))) (seq 0 len).

(** [w[:i]], [h[:i]], [k] and [n]. *)
Definition w (i : nat) : list byte := pattern 197 i.
Definition h (i : nat) : list byte := pattern 193 i.
Definition k : list byte := pattern 191 32.
Definition n : list byte := pattern 181 12.

Definition aead : AEAD := mkAEAD k.

(** [badC]: a copy of [c] with byte [i] XORed with [0x23]. *)
Definition flipped (c : list byte) (i : nat) : list byte :=
  firstn i c ++ map (fun b => byte.xor b Byte.x23) (firstn 1 (skipn i c)) ++ skipn (S i) c.

(** The key and the nonce of the block-function test of RFC 7539,
    section 2.3.2. *)
Definition rfcKey : list byte := map (fun i => byte.of_Z (Z.of_nat i)) (seq 0 32).
Definition rfcNonce : list byte := map byte.of_Z [0; 0; 0; 9; 0; 0; 0; 0x4a; 0; 0; 0; 0].

(** The hash keys of the test key. *)
Definition hashKeys : hs1Ctx :=
  match setup k with
  | Ok ctx => hashCtx ctx
  | Panic _ => mkHs1Ctx [] [] []
  end.

Definition sealed (i : nat) : list byte :=
  match value (Seal aead nilSlice n (w i) (h i)) with
  | Ok r => data r
  | Panic _ => []
  end.

Definition bytesEq (x y : list byte) : bool :=
  if list_eq_dec Byte.byte_eq_dec x y then true else false.

Definition isNil (s : slice) : bool :=
  match data s, spare s with
  | [], [] => true
  | _, _ => false
  end.

Definition failed (r : result opened) : bool :=
  match r with
  | Ok o => match err o with Some _ => isNil (ret o) | None => false end
  | Panic _ => false
  end.

(** The assertions of iteration [i] of the loop of [doTestKAT], the
    comparison with the table [kaths1siv] apart (the table is not among
    these sources): the length of the ciphertext, the round trip, the
    rejection of a ciphertext with byte [i] flipped and, for [i > 0], of
    associated data with byte [i - 1] flipped. *)
Definition testIteration (i : nat) : bool :=
  match value (Seal aead nilSlice n (w i) (h i)) with
  | Ok r =>
      let c := data r in
      (length c =? i + TagSize)%nat
      && match value (Open aead nilSlice n c (h i)) with
         | Ok o =>
             match err o with
             | None => (length (data (ret o)) =? i)%nat && bytesEq (data (ret o)) (w i)
             | Some _ => false
             end
         | Panic _ => false
         end
      && failed (value (Open aead nilSlice n (flipped c i) (h i)))
      && ((i =? 0)%nat
          || failed (value (Open aead nilSlice n c (flipped (h i) (i - 1)))))
  | Panic _ => false
  end.

End KAT.

(** ** hs1siv.go: the two constant methods *)

Module Methods.

(** [func (ae *AEAD) NonceSize() int]. *)
Definition NonceSizeOf (ae : AEAD) : nat := NonceSize.

(** [func (ae *AEAD) Overhead() int]. *)
Definition Overhead (ae : AEAD) : nat := TagSize.

End Methods.

(** ** hwaccel.go, hwaccel_ref.go, hwaccel_amd64.go: the choice of the back end *)

Module HwAccel.

(** The two values [hardwareAccelImpl] takes, named "Reference" and
    "AVX2". *)
Inductive impl : Type :=
| implReference
| implAVX2BMI2.

(** The two package variables. *)
Record hwState : Type := mkHwState {
  isHardwareAccelerated : bool;
  hardwareAccelImpl : impl }.

(** The variables as their declarations initialise them. *)
Definition declared : hwState := mkHwState false implReference.

Definition forceDisableHardwareAcceleration (st : hwState) : hwState :=
  mkHwState false implReference.

Definition IsHardwareAccelerated (st : hwState) : bool := isHardwareAccelerated st.

(** hwaccel_ref.go: the build without assembly. *)
Definition initHardwareAccelerationRef (st : hwState) : hwState :=
  forceDisableHardwareAcceleration st.

(** hwaccel_amd64.go.  The two assembly routines are not Go code; they
    are taken as they are declared: [cpuidAmd64] rewrites four registers
    [eax, ebx, ecx, edx] in place, [xgetbv0Amd64] two. *)
Section Amd64.

Variable cpuidAmd64 : Z * Z * Z * Z -> Z * Z * Z * Z.
Variable xgetbv0Amd64 : Z * Z -> Z * Z.

Definition osXsaveBit : Z := Z.shiftl 1 27.
Definition avx2Bit : Z := Z.shiftl 1 5.
Definition bmi2Bit : Z := Z.shiftl 1 8.

Definition supportsAVX2BMI2 : bool :=
  let '(r0, _, _, _) := cpuidAmd64 (0, 0, 0, 0) in
  if r0 <? 7 then false
  else
    let '(_, _, r2, _) := cpuidAmd64 (1, 0, 0, 0) in
    if Z.land r2 osXsaveBit =? 0 then false
    else
      let '(x0, _) := xgetbv0Amd64 (0, 0) in
      if negb (Z.land x0 6 =? 6) then false
      else
        let '(_, r1, _, _) := cpuidAmd64 (7, 0, 0, 0) in
        negb (Z.land r1 avx2Bit =? 0) && negb (Z.land r1 bmi2Bit =? 0).

Definition initHardwareAcceleration (st : hwState) : hwState :=
  if supportsAVX2BMI2 then mkHwState true implAVX2BMI2 else st.

End Amd64.

(** hs1siv_test.go, [mustInitHardwareAcceleration]: it panics when the
    initialisation did not select the accelerated back end. *)
Definition mustInitHardwareAcceleration (cpuid : Z * Z * Z * Z -> Z * Z * Z * Z)
           (xgetbv : Z * Z -> Z * Z) (st : hwState) : option hwState :=
  let st := initHardwareAcceleration cpuid xgetbv st in
  if negb (IsHardwareAccelerated st) then None else Some st.

End HwAccel.

(** ** Ranges of the hash state *)

Module Ranges.

(** An accumulator that [polyStep] maps to its like: six lanes, each
    below [5 * 2^61]. *)
Definition accumInRange (accum : list Z) : Prop :=
  length accum = hs1HashRounds /\ Forall (fun x => 0 <= x < 5 * 2 ^ 61) accum.

(** Hash keys as [setup] stores them: 32-bit NH words, 60-bit
    polynomial keys, 64-bit ASU words. *)
Definition keysInRange (ctx : hs1Ctx) : Prop :=
  Forall (fun x => 0 <= x < 2 ^ 32) (nhKey ctx) /\
  Forall (fun x => 0 <= x < 2 ^ 60) (polyKey ctx) /\
  Forall (fun x => 0 <= x < 2 ^ 64) (asuKey ctx).

End Ranges.

(** * Proofs *)

Lemma Ok_inj {A} (a b : A) : Ok a = Ok b -> a = b.
Proof. now intros [= ->]. Qed.

(** ** Lists, [copy] and XOR *)

Lemma length_zeros n : length (zeros n) = n.
Proof. apply repeat_length. Qed.

Lemma copy_length {A} (dst src : list A) : length (copy dst src) = length dst.
Proof.
  unfold copy. rewrite length_app, length_firstn, length_skipn. lia.
Qed.

Lemma copy_exact {A} (dst src : list A) :
  length src = length dst -> copy dst src = src.
Proof.
  intros H. unfold copy. rewrite <- H, firstn_all, skipn_all2 by lia.
  apply app_nil_r.
Qed.

Lemma copy_nil {A} (dst : list A) : copy dst [] = dst.
Proof. unfold copy. now rewrite firstn_nil. Qed.

Lemma copy_short {A} (dst src : list A) :
  (length src <= length dst)%nat -> copy dst src = src ++ skipn (length src) dst.
Proof. intros H. unfold copy. now rewrite firstn_all2 by lia. Qed.

Lemma copy_app {A} (dst a b : list A) :
  (length a <= length dst)%nat ->
  copy dst (a ++ b) = a ++ copy (skipn (length a) dst) b.
Proof.
  intros H. unfold copy.
  rewrite firstn_app, (firstn_all2 a) by lia.
  rewrite length_skipn, skipn_skipn, length_app, <- app_assoc.
  do 3 f_equal. lia.
Qed.

Lemma skipn_repeat_sub {A} (x : A) k n : skipn k (repeat x n) = repeat x (n - k).
Proof.
  revert k; induction n as [|n IH]; intros [|k]; simpl; auto.
Qed.

Lemma firstn_repeat_min {A} (x : A) k n : firstn k (repeat x n) = repeat x (Nat.min k n).
Proof.
  revert k; induction n as [|n IH]; intros [|k]; simpl; auto.
  now rewrite IH.
Qed.

Lemma copy_zeros_pad (n : nat) (src : list byte) :
  (length src <= n)%nat -> copy (zeros n) src = src ++ zeros (n - length src).
Proof.
  intros H. rewrite copy_short by (rewrite length_zeros; lia).
  f_equal. unfold zeros. apply skipn_repeat_sub.
Qed.

Lemma xorBytes_length x y : length (xorBytes x y) = Nat.min (length x) (length y).
Proof.
  revert y; induction x as [|a x IH]; intros [|b y]; simpl; auto.
Qed.

Lemma xorBytes_nil_r x : xorBytes x [] = [].
Proof. now destruct x. Qed.

Lemma xorBytes_app x1 x2 y1 y2 :
  length x1 = length y1 ->
  xorBytes (x1 ++ x2) (y1 ++ y2) = xorBytes x1 y1 ++ xorBytes x2 y2.
Proof.
  revert y1; induction x1 as [|a x1 IH]; intros [|b y1] H; simpl in *;
    try discriminate; auto.
  f_equal. apply IH. lia.
Qed.

Lemma xorBytes_firstn n x y :
  firstn n (xorBytes x y) = xorBytes (firstn n x) (firstn n y).
Proof.
  revert x y; induction n as [|n IH]; intros [|a x] [|b y]; simpl; auto.
  now rewrite IH.
Qed.

Lemma xorBytes_skipn n x y :
  skipn n (xorBytes x y) = xorBytes (skipn n x) (skipn n y).
Proof.
  revert x y; induction n as [|n IH]; intros [|a x] [|b y]; simpl; auto.
  now rewrite xorBytes_nil_r.
Qed.

Lemma byte_xor_cancel a b : byte.xor (byte.xor a b) b = a.
Proof.
  unfold byte.xor. apply byte.unsigned_inj.
  rewrite !byte.unsigned_of_Z. unfold byte.wrap.
  pose proof (byte.unsigned_range a) as Ha.
  pose proof (byte.unsigned_range b) as Hb.
  rewrite <- !Z.land_ones by lia.
  rewrite <- (Z.mod_small (byte.unsigned a) (2 ^ 8)) at 2 by lia.
  rewrite <- (Z.mod_small (byte.unsigned b) (2 ^ 8)) at 1 2 by lia.
  rewrite <- !Z.land_ones by lia.
  Z.bitblast.
Qed.

Lemma byte_xor_zero_l b : byte.xor Byte.x00 b = b.
Proof.
  unfold byte.xor. change (byte.unsigned Byte.x00) with 0.
  rewrite Z.lxor_0_l. apply byte.of_Z_unsigned.
Qed.

(** XOR with the same bytes twice gives the first argument back. *)
Lemma xorBytes_involutive x y :
  (length x <= length y)%nat -> xorBytes (xorBytes x y) y = x.
Proof.
  revert y; induction x as [|a x IH]; intros [|b y] H; simpl in *; auto; try lia.
  rewrite byte_xor_cancel, IH by lia. reflexivity.
Qed.

Lemma xorBytes_zeros n y :
  (n <= length y)%nat -> xorBytes (zeros n) y = firstn n y.
Proof.
  revert y; induction n as [|n IH]; intros [|b y] H; simpl in *; auto; try lia.
  rewrite byte_xor_zero_l. f_equal. apply IH. lia.
Qed.

(** ** Little-endian words and XOR *)

Lemma byte_of_Z_lxor a b :
  byte.of_Z (Z.lxor a b) = byte.xor (byte.of_Z a) (byte.of_Z b).
Proof.
  unfold byte.xor. apply byte.unsigned_inj.
  rewrite !byte.unsigned_of_Z. unfold byte.wrap.
  rewrite <- !Z.land_ones by lia. Z.bitblast.
Qed.

Lemma le_split_S n w : le_split (S n) w = byte.of_Z w :: le_split n (Z.shiftr w 8).
Proof. reflexivity. Qed.

Lemma le_split_lxor n : forall a b,
  le_split n (Z.lxor a b) = xorBytes (le_split n a) (le_split n b).
Proof.
  induction n as [|n IH]; intros a b; [reflexivity|].
  rewrite !le_split_S. cbn [xorBytes].
  rewrite byte_of_Z_lxor, <- IH. do 2 f_equal.
  apply Z.shiftr_lxor.
Qed.

Lemma PutUint32_length v : length (PutUint32 v) = 4%nat.
Proof. apply length_le_split. Qed.

Lemma PutUint32_xor_Uint32 inp w :
  (4 <= length inp)%nat ->
  PutUint32 (Z.lxor (Uint32 inp) w) = xorBytes (firstn 4 inp) (PutUint32 w).
Proof.
  intros H. unfold PutUint32, Uint32. rewrite le_split_lxor. f_equal.
  pose proof (split_le_combine (firstn 4 inp)) as E.
  rewrite length_firstn, Nat.min_l in E by lia. exact E.
Qed.

Lemma flat_map_PutUint32_length ws :
  length (flat_map PutUint32 ws) = (4 * length ws)%nat.
Proof.
  induction ws as [|w ws IH]; [reflexivity|].
  cbn [flat_map]. rewrite length_app, PutUint32_length, IH. cbn [length]. lia.
Qed.

(** The word-wise XOR of a block is the byte-wise XOR with the serialized
    words. *)
Lemma xorWords_bytes ws : forall inp,
  (4 * length ws <= length inp)%nat ->
  xorWords ws inp = xorBytes (firstn (4 * length ws) inp) (flat_map PutUint32 ws).
Proof.
  induction ws as [|w ws IH]; intros inp H; simpl length in *.
  - simpl. reflexivity.
  - cbn [xorWords flat_map].
    rewrite PutUint32_xor_Uint32 by lia.
    rewrite IH by (rewrite length_skipn; lia).
    replace (4 * S (length ws))%nat with (4 + 4 * length ws)%nat by lia.
    rewrite <- (firstn_skipn 4 inp) at 3.
    rewrite firstn_app, length_firstn, Nat.min_l by lia.
    rewrite (firstn_all2 (n := 4 + 4 * length ws) (firstn 4 inp))
      by (rewrite length_firstn; lia).
    replace (4 + 4 * length ws - 4)%nat with (4 * length ws)%nat by lia.
    rewrite xorBytes_app; [reflexivity|].
    rewrite length_firstn, PutUint32_length. lia.
Qed.

Lemma blockWords_length s : length (blockWords s) = 16%nat.
Proof. reflexivity. Qed.

Lemma blockBytes_length s : length (blockBytes s) = 64%nat.
Proof. unfold blockBytes. now rewrite flat_map_PutUint32_length, blockWords_length. Qed.

Lemma keystreamBlocks_length n : forall s, length (keystreamBlocks n s) = (64 * n)%nat.
Proof.
  induction n as [|n IH]; intros s; [reflexivity|].
  cbn [keystreamBlocks]. rewrite length_app, blockBytes_length, IH. lia.
Qed.

Lemma iter_nextBlock_shift n s :
  Nat.iter n nextBlock (nextBlock s) = Nat.iter (S n) nextBlock s.
Proof.
  induction n as [|n IH]; [reflexivity|].
  change (nextBlock (Nat.iter n nextBlock (nextBlock s))
          = nextBlock (Nat.iter (S n) nextBlock s)).
  now rewrite IH.
Qed.

Lemma keystreamBlocks_add n m : forall s,
  keystreamBlocks (n + m) s
  = keystreamBlocks n s ++ keystreamBlocks m (Nat.iter n nextBlock s).
Proof.
  induction n as [|n IH]; intros s.
  - reflexivity.
  - cbn [Nat.add keystreamBlocks].
    now rewrite IH, <- app_assoc, iter_nextBlock_shift.
Qed.

(** ** The reference ChaCha20 *)

Lemma index_ok {A} (s : list A) i :
  (i < length s)%nat -> exists x, index s i = Ok x.
Proof.
  intros H. unfold index.
  destruct (nth_error s i) eqn:E; eauto.
  apply nth_error_None in E. lia.
Qed.

Lemma index_panic {A} (s : list A) i :
  (length s <= i)%nat -> index s i = Panic IndexOutOfRange.
Proof.
  intros H. unfold index. now apply nth_error_None in H as ->.
Qed.

Lemma sliceFrom_ok {A} (s : list A) lo :
  (lo <= length s)%nat -> sliceFrom s lo = Ok (skipn lo s).
Proof. intros H. unfold sliceFrom. now apply Nat.leb_le in H as ->. Qed.

Lemma sliceFrom_panic {A} (s : list A) lo :
  (length s < lo)%nat -> sliceFrom s lo = Panic SliceBoundsOutOfRange.
Proof. intros H. unfold sliceFrom. now apply Nat.leb_gt in H as ->. Qed.

(** [n] blocks XOR [64 n] bytes of input with keystream into [out] and
    leave the rest of [out] alone. *)
Lemma chachaBlocksRef_spec n : forall s inp out,
  (64 * n <= length inp)%nat -> (64 * n <= length out)%nat ->
  chachaBlocksRef n s inp out
  = Ok (Nat.iter n nextBlock s,
        xorBytes (firstn (64 * n) inp) (keystreamBlocks n s) ++ skipn (64 * n) out).
Proof.
  induction n as [|n IH]; intros s inp out Hi Ho.
  - reflexivity.
  - cbn [chachaBlocksRef].
    destruct (index_ok inp (chachaBlockSize - 1)) as [x ->]; [unfold chachaBlockSize; lia|].
    destruct (index_ok out (chachaBlockSize - 1)) as [y ->]; [unfold chachaBlockSize; lia|].
    cbn [bind]. unfold chachaBlockSize.
    rewrite IH by (rewrite length_skipn; lia). cbn [bind].
    rewrite xorWords_bytes by (rewrite blockWords_length; lia).
    rewrite blockWords_length. change (4 * 16)%nat with 64%nat.
    cbn [keystreamBlocks]. fold (blockBytes s).
    rewrite iter_nextBlock_shift.
    f_equal. f_equal. rewrite app_assoc. f_equal.
    + rewrite <- (firstn_skipn 64 inp) at 3.
      replace (64 * S n)%nat with (64 + 64 * n)%nat by lia.
      rewrite firstn_app, length_firstn, Nat.min_l by lia.
      rewrite (firstn_all2 (n := 64 + 64 * n) (firstn 64 inp))
        by (rewrite length_firstn; lia).
      replace (64 + 64 * n - 64)%nat with (64 * n)%nat by lia.
      rewrite xorBytes_app; [reflexivity|].
      fold (blockBytes s). rewrite length_firstn, blockBytes_length. lia.
    + rewrite skipn_skipn. f_equal. lia.
Qed.

Ltac Zify.zify_post_hook ::= Z.div_mod_to_equations.

Lemma blocksFor_cases n :
  (n mod 64 = 0 /\ blocksFor n = n / 64
   \/ 0 < n mod 64 /\ blocksFor n = n / 64 + 1)%nat.
Proof. unfold blocksFor. lia. Qed.

(** The keystream function XORs the zero-padded input with whole blocks of
    keystream and copies into [out] as much of that as [out] holds. *)
Lemma chachaXORKeyStreamRef_spec s inp out :
  (length inp <= length out)%nat ->
  exists s',
    chachaXORKeyStreamRef s inp out
    = Ok (s', copy out (xorBytes (inp ++ zeros (blocksFor (length inp) * 64 - length inp))
                                 (keystreamBlocks (blocksFor (length inp)) s))).
Proof.
  intros Hlen. unfold chachaXORKeyStreamRef, chachaBlockSize.
  set (full := (length inp / 64)%nat).
  assert (Hblocks : (if (0 <? full)%nat then chachaBlocksRef full s inp out else Ok (s, out))
                    = chachaBlocksRef full s inp out).
  { destruct full; reflexivity. }
  assert (Hoff' : (if (0 <? full)%nat then full * 64 else 0)%nat = (full * 64)%nat).
  { destruct full; reflexivity. }
  assert (Hrem : (if (0 <? full)%nat then length inp - full * 64 else length inp)%nat
                 = (length inp - full * 64)%nat).
  { destruct full; simpl; lia. }
  rewrite Hblocks, Hoff', Hrem. clear Hblocks Hoff' Hrem.
  set (off := (full * 64)%nat).
  assert (Hoff : (off <= length inp)%nat) by (unfold off, full; lia).
  rewrite chachaBlocksRef_spec by (fold off; lia).
  replace (64 * full)%nat with off by (unfold off; lia).
  cbn [bind].
  set (X1 := xorBytes (firstn off inp) (keystreamBlocks full s)).
  assert (HX1 : length X1 = off).
  { unfold X1. rewrite xorBytes_length, length_firstn, keystreamBlocks_length.
    unfold off. lia. }
  destruct (blocksFor_cases (length inp)) as [[Hm Hb] | [Hm Hb]]; rewrite Hb; fold full.
  - assert (E : (length inp - off = 0)%nat) by (unfold off, full; lia).
    rewrite E. cbn [Nat.ltb Nat.leb].
    eexists. f_equal. f_equal.
    replace (full * 64 - length inp)%nat with 0%nat by (unfold off, full in *; lia).
    cbn [zeros repeat]. rewrite app_nil_r.
    assert (Hall : firstn off inp = inp).
    { apply firstn_all2. unfold off, full in *. lia. }
    unfold X1. rewrite Hall.
    rewrite copy_short by (rewrite xorBytes_length, keystreamBlocks_length; lia).
    f_equal. f_equal.
    rewrite xorBytes_length, keystreamBlocks_length.
    unfold off, full in *. lia.
  - assert (E : (0 <? length inp - off)%nat = true)
      by (apply Nat.ltb_lt; unfold off, full; lia).
    rewrite E.
    rewrite sliceFrom_ok by lia. cbn [bind].
    rewrite copy_zeros_pad by (rewrite length_skipn; unfold off, full; lia).
    set (partial := skipn off inp ++ zeros (64 - length (skipn off inp))).
    assert (Hp : length partial = 64%nat).
    { unfold partial. rewrite length_app, length_zeros, length_skipn.
      unfold off, full. lia. }
    rewrite chachaBlocksRef_spec by lia. cbn [bind].
    rewrite sliceFrom_ok by (rewrite length_app, HX1; lia). cbn [bind].
    eexists. f_equal. f_equal.
    rewrite firstn_app, HX1, Nat.sub_diag, firstn_O, app_nil_r.
    rewrite (firstn_all2 (n := off) X1) by lia.
    rewrite skipn_app, HX1, Nat.sub_diag, skipn_O, (skipn_all2 (n := off) X1), app_nil_l by lia.
    change (64 * 1)%nat with 64%nat.
    rewrite (firstn_all2 (n := 64) partial), (skipn_all2 (n := 64) partial), app_nil_r by lia.
    rewrite keystreamBlocks_add.
    rewrite <- (firstn_skipn off inp) at 1.
    rewrite <- app_assoc, xorBytes_app
      by (rewrite length_firstn, keystreamBlocks_length; unfold off, full; lia).
    fold X1. rewrite copy_app by lia. rewrite HX1.
    do 3 f_equal. unfold partial. f_equal. f_equal.
    rewrite length_skipn. unfold off, full in *. lia.
Qed.

Lemma xorKeyStreamPadded_length key nonce ctr inp :
  length (xorKeyStreamPadded key nonce ctr inp) = (blocksFor (length inp) * 64)%nat.
Proof.
  unfold xorKeyStreamPadded.
  rewrite xorBytes_length, length_app, length_zeros, keystreamBlocks_length.
  unfold blocksFor. lia.
Qed.

Lemma xorKeyStreamPadded_prefix key nonce ctr inp :
  firstn (length inp) (xorKeyStreamPadded key nonce ctr inp)
  = xorBytes inp (keystream key nonce ctr (length inp)).
Proof.
  unfold xorKeyStreamPadded, keystream.
  rewrite xorBytes_firstn, firstn_app, Nat.sub_diag, firstn_O, app_nil_r.
  now rewrite firstn_all.
Qed.

(** [chacha20] in one equation: [out] receives, by [copy], the padded
    input XORed with the keystream. *)
Lemma chacha20_spec key nonce inp out ctr :
  length key = 32%nat -> length nonce = 12%nat ->
  chacha20 key nonce inp out ctr
  = Ok (copy out (xorKeyStreamPadded key nonce ctr (firstn (length out) inp))).
Proof.
  intros Hk Hn. unfold chacha20, chachaKeySize, chachaNonceSize.
  rewrite Hk, Hn. cbn [Nat.eqb negb].
  destruct (length inp =? 0)%nat eqn:E.
  - apply Nat.eqb_eq in E. apply length_zero_iff_nil in E. subst inp.
    rewrite firstn_nil.
    change (xorKeyStreamPadded key nonce ctr []) with (@nil byte).
    now rewrite copy_nil.
  - assert (Hin : (if (length out <? length inp)%nat then firstn (length out) inp else inp)
                  = firstn (length out) inp).
    { destruct (length out <? length inp)%nat eqn:L; auto.
      apply Nat.ltb_ge in L. now rewrite firstn_all2. }
    rewrite Hin. unfold chachaXORKeyStream.
    destruct (chachaXORKeyStreamRef_spec (initState key nonce ctr)
                (firstn (length out) inp) out) as [s' ->].
    { rewrite length_firstn. lia. }
    reflexivity.
Qed.

Lemma chacha20_length key nonce inp out ctr out' :
  chacha20 key nonce inp out ctr = Ok out' -> length out' = length out.
Proof.
  intros H.
  assert (Hkn : length key = 32%nat /\ length nonce = 12%nat).
  { unfold chacha20, chachaKeySize, chachaNonceSize in H.
    destruct (length key =? 32)%nat eqn:Hk; [|discriminate].
    destruct (length nonce =? 12)%nat eqn:Hn; [|discriminate].
    split; now apply Nat.eqb_eq. }
  destruct Hkn as [Hk Hn].
  rewrite chacha20_spec in H by assumption.
  injection H as <-. apply copy_length.
Qed.

(** With an output at least as long as the input, the first [len(in)]
    bytes of the output are the input XORed with the keystream. *)
Lemma chacha20_prefix key nonce inp out ctr :
  length key = 32%nat -> length nonce = 12%nat ->
  (length inp <= length out)%nat ->
  exists out',
    chacha20 key nonce inp out ctr = Ok out' /\
    length out' = length out /\
    firstn (length inp) out' = xorBytes inp (keystream key nonce ctr (length inp)).
Proof.
  intros Hk Hn Hl. rewrite chacha20_spec by assumption.
  eexists; split; [reflexivity|]. split; [apply copy_length|].
  rewrite (firstn_all2 (n := length out) inp) by lia.
  unfold copy. rewrite firstn_app, firstn_firstn.
  rewrite Nat.min_l by lia.
  rewrite xorKeyStreamPadded_prefix.
  rewrite length_firstn, xorKeyStreamPadded_length.
  replace (length inp - _)%nat with 0%nat by (unfold blocksFor; lia).
  now rewrite firstn_O, app_nil_r.
Qed.

Lemma chacha20_same_length key nonce inp out ctr :
  length key = 32%nat -> length nonce = 12%nat ->
  length inp = length out ->
  chacha20 key nonce inp out ctr
  = Ok (xorBytes inp (keystream key nonce ctr (length inp))).
Proof.
  intros Hk Hn Hl.
  destruct (chacha20_prefix key nonce inp out ctr) as (o & E & L & P); try lia; auto.
  rewrite E. f_equal. rewrite <- P. rewrite Hl, <- L. now rewrite firstn_all.
Qed.

(** ** The hash: when its array accesses are in range *)

Lemma set_length a : forall i v, length (set a i v) = length a.
Proof.
  induction a as [|x a IH]; intros [|i] v; simpl; auto.
Qed.

Lemma polyRounds_length js ctx nhRes : forall accum,
  length (polyRounds js ctx nhRes accum) = length accum.
Proof.
  induction js as [|j js IH]; intros accum; cbn [polyRounds]; auto.
  now rewrite IH, !set_length.
Qed.

Ltac forall_lia :=
  repeat (apply Forall_cons; [lia|]); apply Forall_nil.

Section NH.
Variable ctx : hs1Ctx.
Hypothesis Hnh : length (nhKey ctx) = 36%nat.

Lemma nhRounds_total i mp0 mp1 mp2 mp3 js : forall nhRes,
  Forall (fun j => i + j * 4 + 8 <= 36)%nat js ->
  exists r, nhRounds js ctx i mp0 mp1 mp2 mp3 nhRes = Ok r /\ length r = length nhRes.
Proof.
  induction js as [|j js IH]; intros nhRes HF.
  - eexists; split; reflexivity.
  - inversion HF as [|? ? Hj HF']; subst.
    cbn [nhRounds]. rewrite sliceFrom_ok by lia. cbn [bind].
    destruct (index_ok (skipn (i + j * 4) (nhKey ctx)) 7) as [x ->];
      [rewrite length_skipn; lia|].
    cbn [bind].
    edestruct IH as (r & -> & Hr); [exact HF'|].
    eexists; split; [reflexivity|]. now rewrite Hr, !set_length.
Qed.

Lemma nhRounds_fails i mp0 mp1 mp2 mp3 js : forall nhRes,
  Exists (fun j => 36 < i + j * 4 + 8)%nat js ->
  exists p, nhRounds js ctx i mp0 mp1 mp2 mp3 nhRes = Panic p.
Proof.
  induction js as [|j js IH]; intros nhRes HE.
  - inversion HE.
  - cbn [nhRounds].
    destruct (Nat.le_gt_cases (i + j * 4 + 8) 36) as [Hle | Hgt].
    + rewrite sliceFrom_ok by lia. cbn [bind].
      destruct (index_ok (skipn (i + j * 4) (nhKey ctx)) 7) as [x ->];
        [rewrite length_skipn; lia|].
      cbn [bind]. apply IH.
      inversion HE; subst; [lia | assumption].
    + destruct (Nat.le_gt_cases (i + j * 4) 36) as [Hs | Hs].
      * rewrite sliceFrom_ok by lia. cbn [bind].
        rewrite index_panic by (rewrite length_skipn; lia).
        eexists; reflexivity.
      * rewrite sliceFrom_panic by lia. eexists; reflexivity.
Qed.

Lemma nhChunks_total offs : forall inp nhRes,
  Forall (fun i => i <= 12)%nat offs ->
  (16 * length offs <= length inp)%nat ->
  exists r, nhChunks offs ctx inp nhRes = Ok (r, skipn (16 * length offs) inp)
            /\ length r = length nhRes.
Proof.
  induction offs as [|i offs IH]; intros inp nhRes HF Hl.
  - eexists; split; reflexivity.
  - inversion HF as [|? ? Hi HF']; subst. cbn [length] in Hl.
    cbn [nhChunks].
    destruct (index_ok inp 15) as [x ->]; [lia|]. cbn [bind].
    edestruct (nhRounds_total i) as (r & -> & Hr).
    { unfold lanePairs. forall_lia. }
    cbn [bind].
    edestruct IH as (r' & -> & Hr'); [exact HF'| rewrite length_skipn; lia |].
    eexists; split.
    + rewrite skipn_skipn. do 3 f_equal. cbn [length]. lia.
    + congruence.
Qed.

Lemma nhChunks_fails offs : forall inp nhRes,
  Exists (fun i => 12 < i)%nat offs \/ (length inp < 16 * length offs)%nat ->
  exists p, nhChunks offs ctx inp nhRes = Panic p.
Proof.
  induction offs as [|i offs IH]; intros inp nhRes H.
  - destruct H as [H | H]; [inversion H | simpl in H; lia].
  - cbn [nhChunks].
    destruct (Nat.le_gt_cases 16 (length inp)) as [H16 | H16].
    2:{ rewrite index_panic by lia. eexists; reflexivity. }
    destruct (index_ok inp 15) as [x ->]; [lia|]. cbn [bind].
    destruct (Nat.le_gt_cases i 12) as [Hi | Hi].
    2:{ edestruct (nhRounds_fails i) as (p & ->).
        { unfold lanePairs. apply Exists_cons_tl, Exists_cons_tl, Exists_cons_hd. lia. }
        eexists; reflexivity. }
    edestruct (nhRounds_total i) as (r & -> & Hr).
    { unfold lanePairs. forall_lia. }
    cbn [bind]. apply IH.
    destruct H as [H | H].
    + inversion H; subst; [lia | now left].
    + right. rewrite length_skipn. cbn [length] in H. lia.
Qed.

End NH.

Lemma chunkOffsets_length n : length (chunkOffsets n) = ((n + 15) / 16)%nat.
Proof. unfold chunkOffsets. now rewrite length_map, length_seq. Qed.

Lemma chunkOffsets_small n :
  (n <= 64)%nat -> Forall (fun i => i <= 12)%nat (chunkOffsets n).
Proof.
  intros H. apply Forall_forall. intros i Hi.
  unfold chunkOffsets in Hi. apply in_map_iff in Hi as (t & <- & Ht).
  apply in_seq in Ht. lia.
Qed.

Lemma chunkOffsets_large n :
  (64 < n)%nat -> Exists (fun i => 12 < i)%nat (chunkOffsets n).
Proof.
  intros H. apply Exists_exists. exists 16%nat. split; [|lia].
  unfold chunkOffsets. apply in_map_iff. exists 4%nat. split; [reflexivity|].
  apply in_seq. lia.
Qed.

Section HashStep.
Variable ctx : hs1Ctx.
Hypothesis Hnh : length (nhKey ctx) = 36%nat.

Lemma hashStepLoop_total n : forall inp accum,
  (64 * n <= length inp)%nat ->
  exists a, hashStepLoop n ctx inp accum = Ok a /\ length a = length accum.
Proof.
  induction n as [|n IH]; intros inp accum H.
  - eexists; split; reflexivity.
  - cbn [hashStepLoop].
    edestruct (nhChunks_total ctx Hnh (chunkOffsets hs1NHLen)) as (r & -> & Hr).
    { apply chunkOffsets_small. unfold hs1NHLen. lia. }
    { rewrite chunkOffsets_length. unfold hs1NHLen. cbn. lia. }
    cbn [bind].
    edestruct IH as (a & -> & Ha).
    { rewrite length_skipn, chunkOffsets_length. unfold hs1NHLen. cbn. lia. }
    eexists; split; [reflexivity|]. now rewrite Ha, polyRounds_length.
Qed.

Lemma hashStepLoop_fails n : forall inp accum,
  (length inp < 64 * n)%nat ->
  exists p, hashStepLoop n ctx inp accum = Panic p.
Proof.
  induction n as [|n IH]; intros inp accum H; [lia|].
  cbn [hashStepLoop].
  destruct (Nat.le_gt_cases 64 (length inp)) as [H64 | H64].
  - edestruct (nhChunks_total ctx Hnh (chunkOffsets hs1NHLen)) as (r & -> & Hr).
    { apply chunkOffsets_small. unfold hs1NHLen. lia. }
    { rewrite chunkOffsets_length. unfold hs1NHLen. cbn. lia. }
    cbn [bind]. apply IH.
    rewrite length_skipn, chunkOffsets_length. unfold hs1NHLen. cbn. lia.
  - edestruct (nhChunks_fails ctx Hnh (chunkOffsets hs1NHLen)) as (p & ->).
    { right. rewrite chunkOffsets_length. unfold hs1NHLen. cbn. lia. }
    eexists; reflexivity.
Qed.

(** [hashStep] stays in range on whole blocks. *)
Lemma hashStep_total inp accum :
  (length inp mod 64 = 0)%nat ->
  exists a, hashStep ctx inp accum = Ok a /\ length a = length accum.
Proof.
  intros H. unfold hashStep, hs1NHLen. apply hashStepLoop_total. lia.
Qed.

(** On anything else it runs off the end of its input. *)
Lemma hashStep_fails inp accum :
  (length inp mod 64 <> 0)%nat ->
  exists p, hashStep ctx inp accum = Panic p.
Proof.
  intros H. unfold hashStep, hs1NHLen. apply hashStepLoop_fails. lia.
Qed.

End HashStep.

Lemma asuHash_ok x k : (3 <= length k)%nat -> asuHash x k = Ok (asuValue x k).
Proof.
  intros H. unfold asuHash.
  destruct (index_ok k 2) as [y ->]; [lia|]. reflexivity.
Qed.

Lemma putUint32At_app pre rest off v :
  length pre = off -> (4 <= length rest)%nat ->
  putUint32At (pre ++ rest) off v = Ok ((pre ++ PutUint32 v) ++ skipn 4 rest).
Proof.
  intros Hp Hr. unfold putUint32At.
  rewrite sliceFrom_ok by (rewrite length_app; lia). cbn [bind].
  rewrite skipn_app, Hp, Nat.sub_diag, skipn_O, (skipn_all2 (n := off) pre), app_nil_l by lia.
  destruct (index_ok rest 3) as [y ->]; [lia|]. cbn [bind].
  rewrite firstn_app, Hp, Nat.sub_diag, firstn_O, app_nil_r, (firstn_all2 (n := off) pre) by lia.
  rewrite skipn_app, (skipn_all2 (n := off + 4) pre), app_nil_l by lia.
  rewrite <- app_assoc. do 4 f_equal. lia.
Qed.

Lemma putUint32At_short res off v :
  (length res < off + 4)%nat -> exists p, putUint32At res off v = Panic p.
Proof.
  intros H. unfold putUint32At.
  destruct (Nat.le_gt_cases off (length res)).
  - rewrite sliceFrom_ok by lia. cbn [bind].
    rewrite index_panic by (rewrite length_skipn; lia). eexists; reflexivity.
  - rewrite sliceFrom_panic by lia. eexists; reflexivity.
Qed.

Lemma digest_length ctx accum : length (digest ctx accum) = 24%nat.
Proof.
  unfold digest, hs1HashRounds. cbn [seq flat_map].
  rewrite !length_app, !PutUint32_length. reflexivity.
Qed.

(** The last loop of [hashFinalize] stores 24 bytes and leaves the rest of
    the buffer as it was. *)
Lemma asuRounds_spec ctx accum res :
  length (asuKey ctx) = 18%nat -> (24 <= length res)%nat ->
  asuRounds lanePairs ctx accum res = Ok (digest ctx accum ++ skipn 24 res).
Proof.
  intros Hk Hr. unfold lanePairs.
  rewrite <- (app_nil_l res) at 1.
  cbn [asuRounds].
  rewrite !sliceFrom_ok by lia. cbn [bind].
  rewrite !asuHash_ok by (rewrite length_skipn; lia). cbn [bind].
  repeat (rewrite putUint32At_app
            by (rewrite ?length_app, ?PutUint32_length, ?length_skipn; cbn [length]; lia);
          cbn [bind]).
  f_equal.
  unfold digest, hs1HashRounds. cbn [seq flat_map].
  rewrite !skipn_skipn. cbn [Nat.add Nat.mul app].
  rewrite <- !app_assoc. reflexivity.
Qed.

Section HashFinalize.
Variable ctx : hs1Ctx.
Hypothesis Hwf : wfHashCtx ctx.

(** [hashFinalize] stays in range on a tail of at most four 16-byte
    chunks; it then stores the 24 bytes of [digest] at the front of
    [result], whatever [result] held. *)
Lemma hashFinalize_spec inp accum :
  (length inp <= 64)%nat -> (length inp mod 16 = 0)%nat ->
  exists accum',
    length accum' = length accum /\
    forall res, (24 <= length res)%nat ->
      hashFinalize ctx inp accum res = Ok (accum', digest ctx accum' ++ skipn 24 res).
Proof.
  intros H64 H16. destruct Hwf as (Hnh & _ & Hasu).
  unfold hashFinalize.
  destruct (0 <? length inp)%nat eqn:E.
  - edestruct (nhChunks_total ctx Hnh (chunkOffsets (length inp)) inp
                 (repeat 0 hs1HashRounds)) as (r & Hr & _).
    { now apply chunkOffsets_small. }
    { rewrite chunkOffsets_length. lia. }
    eexists; split; [|intros res Hres; rewrite Hr; cbn [bind];
                      rewrite asuRounds_spec by assumption; reflexivity].
    apply polyRounds_length.
  - exists accum; split; [reflexivity|]. intros res Hres. cbn [bind].
    now rewrite asuRounds_spec by assumption.
Qed.

(** A longer tail, or one that is not a whole number of chunks, is read
    out of range. *)
Lemma hashFinalize_fails inp accum res :
  (64 < length inp)%nat \/ (length inp mod 16 <> 0)%nat ->
  exists p, hashFinalize ctx inp accum res = Panic p.
Proof.
  intros H. destruct Hwf as (Hnh & _ & Hasu).
  unfold hashFinalize.
  assert (E : (0 <? length inp)%nat = true) by (apply Nat.ltb_lt; lia).
  rewrite E.
  edestruct (nhChunks_fails ctx Hnh (chunkOffsets (length inp)) inp
               (repeat 0 hs1HashRounds)) as (p & ->).
  { destruct H as [H | H].
    - left. now apply chunkOffsets_large.
    - right. rewrite chunkOffsets_length. lia. }
  eexists; reflexivity.
Qed.

End HashFinalize.

(** ** The key schedule *)

Lemma readUint32s_length n buf : forall off, length (fst (readUint32s n buf off)) = n.
Proof.
  induction n as [|n IH]; intros off; cbn [readUint32s]; [reflexivity|].
  specialize (IH (off + 4)%nat).
  destruct (readUint32s n buf (off + 4)) as [vs off']. cbn in *. now rewrite IH.
Qed.

Lemma readUint64s_length n buf : forall off, length (fst (readUint64s n buf off)) = n.
Proof.
  induction n as [|n IH]; intros off; cbn [readUint64s]; [reflexivity|].
  specialize (IH (off + 8)%nat).
  destruct (readUint64s n buf (off + 8)) as [vs off']. cbn in *. now rewrite IH.
Qed.

(** [setup] succeeds on a 32-byte key and leaves a well-formed context. *)
Lemma setup_ok userKey :
  length userKey = 32%nat -> exists ctx, setup userKey = Ok ctx /\ wfCtx ctx.
Proof.
  intros Hk. unfold setup.
  rewrite chacha20_spec; [|assumption|].
  2:{ cbn [length]. rewrite length_skipn, copy_length, length_zeros. reflexivity. }
  cbn [bind].
  set (buf := copy _ _). clearbody buf.
  pose proof (readUint32s_length nhKeyLen buf chacha20KeySize) as H1.
  destruct (readUint32s nhKeyLen buf chacha20KeySize) as [nk off1].
  pose proof (readUint64s_length hs1HashRounds buf off1) as H2.
  destruct (readUint64s hs1HashRounds buf off1) as [pk off2].
  pose proof (readUint64s_length (hs1HashRounds * 3) buf off2) as H3.
  destruct (readUint64s (hs1HashRounds * 3) buf off2) as [ak off3].
  cbn [fst] in *.
  eexists; split; [reflexivity|].
  unfold wfCtx, wfHashCtx. cbn [chachaKey hashCtx nhKey polyKey asuKey].
  split; [|split; [|split]].
  - rewrite copy_length, length_zeros. reflexivity.
  - exact H1.
  - rewrite length_map. exact H2.
  - exact H3.
Qed.

(** ** Bit masks on lengths *)

Lemma land_lnot_ones x k :
  0 <= x -> 0 <= k -> Z.land x (Z.lnot (Z.ones k)) = 2 ^ k * (x / 2 ^ k).
Proof.
  intros Hx Hk.
  rewrite <- Z.ldiff_land, Z.ldiff_ones_r by assumption.
  rewrite Z.shiftl_mul_pow2, Z.shiftr_div_pow2 by assumption. lia.
Qed.

Lemma nhMultipleOf_eq n : nhMultipleOf n = (64 * (n / 64))%nat.
Proof.
  unfold nhMultipleOf, hs1NHLen.
  change (Z.of_nat 64 - 1) with (Z.ones 6).
  rewrite land_lnot_ones by lia. change (2 ^ 6) with 64. lia.
Qed.

Lemma padded16_eq r :
  Z.to_nat (Z.land (Z.of_nat r + 15) (Z.lnot 15)) = (16 * ((r + 15) / 16))%nat.
Proof.
  change 15 with (Z.ones 4) at 2.
  rewrite land_lnot_ones by lia. change (2 ^ 4) with 16. lia.
Qed.

(** ** The calls of the SIV hash *)

Lemma padTo_exact b x : (length x mod b = 0)%nat -> padTo b x = x.
Proof.
  intros H. unfold padTo. rewrite H, Nat.sub_0_r.
  destruct b; [|rewrite Nat.Div0.mod_same]; cbn; apply app_nil_r.
Qed.

Ltac calls_in_range tac :=
  repeat (apply Forall_cons; [cbn [callInRange]; tac|]); apply Forall_nil.

Section SivHash.
Variable ctx : aeadCtx.
Hypothesis Hwf : wfHashCtx (hashCtx ctx).

Let Hnh : length (nhKey (hashCtx ctx)) = 36%nat := proj1 Hwf.

(** [sivHashAD] hands the associated data to [hashStep], padded with
    zeros to whole blocks. *)
Lemma sivHashAD_run a :
  exists t accum,
    sivHashAD ctx a = (t, Ok (withAccum ctx accum)) /\
    length accum = length (sivAccum ctx) /\
    Forall callInRange t /\
    absorbedBytes t = padTo 64 a.
Proof.
  unfold sivHashAD, callHashStep. rewrite nhMultipleOf_eq.
  set (nhm := (64 * (length a / 64))%nat).
  assert (Hle : (nhm <= length a)%nat) by (unfold nhm; lia).
  assert (Hfl : length (firstn nhm a) = nhm) by (rewrite length_firstn; lia).
  destruct (hashStep_total (hashCtx ctx) Hnh (firstn nhm a) (sivAccum ctx))
    as (acc1 & E1 & L1); [rewrite Hfl; unfold nhm; lia|].
  rewrite E1. cbn [tbind].
  destruct (nhm <? length a)%nat eqn:Hlt.
  - apply Nat.ltb_lt in Hlt.
    set (buf := copy (zeros hs1NHLen) (skipn nhm a)).
    assert (Hbuf : length buf = 64%nat)
      by (unfold buf; rewrite copy_length, length_zeros; reflexivity).
    destruct (hashStep_total (hashCtx ctx) Hnh buf acc1) as (acc2 & E2 & L2);
      [rewrite Hbuf; reflexivity|].
    rewrite E2. cbn [tbind tret app].
    exists [HashStepCall (firstn nhm a); HashStepCall buf], acc2.
    split; [reflexivity|]. split; [congruence|]. split.
    + calls_in_range ltac:(rewrite ?Hfl, ?Hbuf; unfold nhm; lia).
    + cbn [absorbedBytes flat_map input]. rewrite app_nil_r.
      unfold buf, hs1NHLen.
      rewrite copy_zeros_pad by (rewrite length_skipn; unfold nhm; lia).
      rewrite app_assoc, firstn_skipn. unfold padTo. f_equal. f_equal.
      rewrite length_skipn. unfold nhm in *. lia.
  - apply Nat.ltb_ge in Hlt. cbn [tret app].
    exists [HashStepCall (firstn nhm a)], acc1.
    split; [reflexivity|]. split; [assumption|]. split.
    + calls_in_range ltac:(rewrite Hfl; unfold nhm; lia).
    + cbn [absorbedBytes flat_map input]. rewrite app_nil_r.
      rewrite firstn_all2 by lia.
      symmetry. apply padTo_exact. unfold nhm in *. lia.
Qed.

Hypothesis Hlenbuf : length (sivLenBuf ctx) = 16%nat.

(** [sivHashMessage] hands over the message, padded with zeros to whole
    16-byte chunks, and then the length block; [hashFinalize] leaves
    the digest in the first 24 bytes of the zero key buffer. *)
Lemma sivHashMessage_run m :
  exists t accum,
    sivHashMessage ctx m
    = (t, Ok (accum, digest (hashCtx ctx) accum ++ zeros 8)) /\
    Forall callInRange t /\
    absorbedBytes t = padTo 16 m ++ sivLenBuf ctx.
Proof.
  unfold sivHashMessage, callHashStep, callHashFinalize.
  rewrite nhMultipleOf_eq, padded16_eq.
  set (nhm := (64 * (length m / 64))%nat).
  assert (Hle : (nhm <= length m)%nat) by (unfold nhm; lia).
  assert (Hfl : length (firstn nhm m) = nhm) by (rewrite length_firstn; lia).
  set (r := (length m - nhm)%nat).
  assert (Hr : (r < 64)%nat) by (unfold r, nhm; lia).
  assert (Htail : length (skipn nhm m) = r) by (rewrite length_skipn; reflexivity).
  destruct (hashStep_total (hashCtx ctx) Hnh (firstn nhm m) (sivAccum ctx))
    as (acc1 & E1 & L1); [rewrite Hfl; unfold nhm; lia|].
  rewrite E1. cbn [tbind].
  assert (Hz : skipn 24 (zeros chacha20KeySize) = zeros 8) by reflexivity.
  assert (Hzl : (24 <= length (zeros chacha20KeySize))%nat)
    by (rewrite length_zeros; unfold chacha20KeySize, chachaKeySize; lia).
  set (buf0 := copy (zeros hs1NHLen) (skipn nhm m)).
  assert (Hbuf0 : buf0 = skipn nhm m ++ zeros (64 - r)).
  { unfold buf0, hs1NHLen. rewrite copy_zeros_pad by lia. now rewrite Htail. }
  assert (Hbuf0l : length buf0 = 64%nat)
    by (unfold buf0; rewrite copy_length, length_zeros; reflexivity).
  destruct (16 * ((r + 15) / 16) =? hs1NHLen)%nat eqn:Hpad.
  - apply Nat.eqb_eq in Hpad. unfold hs1NHLen in Hpad.
    destruct (hashStep_total (hashCtx ctx) Hnh buf0 acc1) as (acc2 & E2 & L2);
      [rewrite Hbuf0l; reflexivity|].
    rewrite E2. cbn [tbind].
    destruct (hashFinalize_spec (hashCtx ctx) Hwf (sivLenBuf ctx) acc2)
      as (acc3 & L3 & E3); [lia | rewrite Hlenbuf; reflexivity |].
    rewrite E3 by exact Hzl. rewrite Hz. cbn [app].
    exists [HashStepCall (firstn nhm m); HashStepCall buf0;
            HashFinalizeCall (sivLenBuf ctx)], acc3.
    split; [reflexivity|]. split.
    + calls_in_range ltac:(rewrite ?Hfl, ?Hbuf0l, ?Hlenbuf; unfold nhm; lia).
    + cbn [absorbedBytes flat_map input]. rewrite app_nil_r, Hbuf0.
      rewrite !app_assoc, firstn_skipn. f_equal.
      unfold padTo. f_equal. f_equal. unfold r, nhm in *. lia.
  - apply Nat.eqb_neq in Hpad. unfold hs1NHLen in Hpad.
    set (p := (16 * ((r + 15) / 16))%nat) in *.
    assert (Hp : (p <= 48)%nat) by (unfold p in *; lia).
    assert (Hrp : (r <= p)%nat) by (unfold p; lia).
    set (buf := firstn p buf0 ++ copy (skipn p buf0) (sivLenBuf ctx)).
    assert (Hcut : firstn (p + 16) buf = firstn p buf0 ++ sivLenBuf ctx).
    { unfold buf.
      rewrite copy_short by (rewrite length_skipn, Hbuf0l, Hlenbuf; lia).
      rewrite firstn_app, length_firstn, Hbuf0l.
      rewrite Nat.min_l by lia.
      rewrite (firstn_all2 (n := p + 16) (firstn p buf0))
        by (rewrite length_firstn; lia).
      replace (p + 16 - p)%nat with 16%nat by lia.
      rewrite firstn_app, Hlenbuf, Nat.sub_diag, firstn_O, app_nil_r.
      now rewrite (firstn_all2 (n := 16) (sivLenBuf ctx)) by lia. }
    rewrite Hcut.
    assert (Hcl : length (firstn p buf0 ++ sivLenBuf ctx) = (p + 16)%nat).
    { rewrite length_app, length_firstn, Hbuf0l, Hlenbuf. lia. }
    destruct (hashFinalize_spec (hashCtx ctx) Hwf (firstn p buf0 ++ sivLenBuf ctx) acc1)
      as (acc3 & L3 & E3); [rewrite Hcl; lia | rewrite Hcl; unfold p; lia |].
    rewrite E3 by exact Hzl. rewrite Hz. cbn [app].
    exists [HashStepCall (firstn nhm m);
            HashFinalizeCall (firstn p buf0 ++ sivLenBuf ctx)], acc3.
    split; [reflexivity|]. split.
    + calls_in_range ltac:(rewrite ?Hfl, ?Hcl; unfold nhm, p; lia).
    + cbn [absorbedBytes flat_map input]. rewrite app_nil_r, Hbuf0.
      rewrite firstn_app, Htail, (firstn_all2 (n := p) (skipn nhm m)) by lia.
      unfold zeros at 1. rewrite firstn_repeat_min.
      rewrite !app_assoc. f_equal. rewrite firstn_skipn.
      unfold padTo. f_equal. unfold zeros. f_equal.
      unfold p, r, nhm in *. lia.
Qed.

End SivHash.

(** ** The two phases of the AEAD *)

Lemma xorCopyChaChaKey_length dst src :
  length dst = 32%nat -> length src = 32%nat ->
  length (xorCopyChaChaKey dst src) = 32%nat.
Proof.
  intros Hd Hs. unfold xorCopyChaChaKey.
  rewrite length_app, xorBytes_length, copy_length, !length_firstn, length_skipn. lia.
Qed.

Lemma hashed_key_length hctx accum :
  length (digest hctx accum ++ zeros 8) = 32%nat.
Proof. now rewrite length_app, digest_length, length_zeros. Qed.

Lemma lenBlock_length x y : length (lenBlock x y) = 16%nat.
Proof. unfold lenBlock, PutUint64. now rewrite length_app, !length_le_split. Qed.

Lemma keystream_length key nonce ctr n : length (keystream key nonce ctr n) = n.
Proof.
  unfold keystream. rewrite length_firstn, keystreamBlocks_length.
  unfold blocksFor. lia.
Qed.

Lemma sivBytes_length key nonce :
  length (xorBytes (zeros 32) (keystream key nonce 0 32)) = 32%nat.
Proof. now rewrite xorBytes_length, length_zeros, keystream_length. Qed.

(** The encryption key exists for every 32-byte SIV. *)
Lemma messageKey_ok ctx (Hwf : wfCtx ctx) siv :
  length siv = 32%nat ->
  exists accum,
    hashFinalize (hashCtx ctx) siv (repeat 1 hs1HashRounds) (zeros chacha20KeySize)
    = Ok (accum, digest (hashCtx ctx) accum ++ zeros 8) /\
    messageKey ctx siv
    = Ok (xorCopyChaChaKey (digest (hashCtx ctx) accum ++ zeros 8) (chachaKey ctx)).
Proof.
  intros Hs. destruct Hwf as [Hck Hh].
  destruct (hashFinalize_spec (hashCtx ctx) Hh siv (repeat 1 hs1HashRounds))
    as (acc & _ & E); [lia | rewrite Hs; reflexivity |].
  specialize (E (zeros chacha20KeySize)).
  rewrite length_zeros in E. specialize (E ltac:(unfold chacha20KeySize, chachaKeySize; lia)).
  change (skipn 24 (zeros chacha20KeySize)) with (zeros 8) in E.
  exists acc. split; [exact E|]. unfold messageKey. now rewrite E.
Qed.

Section Phases.
Variable ctx : aeadCtx.
Hypothesis Hwf : wfCtx ctx.
Variable n : list byte.
Hypothesis Hn : length n = 12%nat.

(** The SIV phase: the associated data and the message are hashed
    without leaving the arrays, the length block is absorbed last, and
    the SIV is 32 bytes of keystream under [sivKey] and counter 0. *)
Lemma siv_phase a m mLen :
  mLen = length m ->
  exists t1 t2 ctx1 accum key,
    sivHashAD (sivSetup ctx (length a) mLen) a = (t1, Ok ctx1) /\
    sivGenerate ctx1 m n (zeros hs1SIVLen)
    = (t2, Ok (withAccum ctx1 accum, xorBytes (zeros 32) (keystream key n 0 32))) /\
    hashCtx ctx1 = hashCtx ctx /\ chachaKey ctx1 = chachaKey ctx /\
    sivKey ctx a m = Ok key /\ length key = 32%nat /\
    Forall callInRange (t1 ++ t2) /\
    absorbedBytes (t1 ++ t2)
    = padTo 64 a ++ padTo 16 m ++ lenBlock (length a) (length m).
Proof.
  intros ->. destruct Hwf as [Hck Hh].
  set (ctx0 := sivSetup ctx (length a) (length m)).
  assert (Hh0 : wfHashCtx (hashCtx ctx0)) by exact Hh.
  destruct (sivHashAD_run ctx0 Hh0 a) as (t1 & acc1 & E1 & _ & R1 & A1).
  set (ctx1 := withAccum ctx0 acc1) in *.
  assert (Hh1 : wfHashCtx (hashCtx ctx1)) by exact Hh.
  assert (Hl1 : length (sivLenBuf ctx1) = 16%nat) by apply lenBlock_length.
  destruct (sivHashMessage_run ctx1 Hh1 Hl1 m) as (t2 & acc2 & E2 & R2 & A2).
  set (h := digest (hashCtx ctx1) acc2 ++ zeros 8) in *.
  set (key := xorCopyChaChaKey h (chachaKey ctx)).
  assert (Hkey : length key = 32%nat).
  { apply xorCopyChaChaKey_length; [apply hashed_key_length | exact Hck]. }
  exists t1, t2, ctx1, acc2, key.
  split; [exact E1|]. split.
  { unfold sivGenerate. rewrite E2. cbn [tbind].
    change (chachaKey ctx1) with (chachaKey ctx). fold key.
    unfold zero. rewrite chacha20_same_length; try assumption.
    - cbn [lift tbind tret]. rewrite length_zeros, app_nil_r. reflexivity.
    - now rewrite !length_zeros. }
  split; [reflexivity|]. split; [reflexivity|]. split.
  { unfold sivKey. fold ctx0. rewrite E1. cbn [tbind]. fold ctx1. rewrite E2.
    cbn [tbind tret value snd]. reflexivity. }
  split; [exact Hkey|]. split.
  { apply Forall_app; split; assumption. }
  unfold absorbedBytes in *. rewrite flat_map_app, A1, A2. reflexivity.
Qed.

End Phases.

Section EncryptDecrypt.
Variable ctx : aeadCtx.
Hypothesis Hwf : wfCtx ctx.
Variable n : list byte.
Hypothesis Hn : length n = 12%nat.

(** [encrypt] fills a buffer of [len(m) + 32] bytes with the body and
    the SIV. *)
Lemma encrypt_run m a c :
  length c = (length m + 32)%nat ->
  exists t key fkey,
    let siv := xorBytes (zeros 32) (keystream key n 0 32) in
    encrypt ctx m a n c
    = (t ++ [HashFinalizeCall siv],
       Ok (xorBytes m (keystream fkey n 1 (length m)) ++ siv)) /\
    sivKey ctx a m = Ok key /\
    messageKey ctx siv = Ok fkey /\
    Forall callInRange (t ++ [HashFinalizeCall siv]) /\
    absorbedBytes t = padTo 64 a ++ padTo 16 m ++ lenBlock (length a) (length m).
Proof.
  intros Hc.
  destruct (siv_phase ctx Hwf n Hn a m (length m) eq_refl)
    as (t1 & t2 & ctx1 & acc & key & E1 & E2 & Hh & Hk & Ekey & Lkey & R & A).
  set (siv := xorBytes (zeros 32) (keystream key n 0 32)) in *.
  assert (Lsiv : length siv = 32%nat) by apply sivBytes_length.
  destruct (messageKey_ok ctx Hwf siv Lsiv) as (acc' & EF & EM).
  set (fkey := xorCopyChaChaKey (digest (hashCtx ctx) acc' ++ zeros 8) (chachaKey ctx)) in *.
  assert (Lf : length fkey = 32%nat).
  { apply xorCopyChaChaKey_length; [apply hashed_key_length | apply Hwf]. }
  destruct (chacha20_prefix fkey n m c 1 Lf Hn) as (c1 & EC & LC & PC); [lia|].
  exists (t1 ++ t2), key, fkey. cbv zeta. fold siv.
  split.
  - unfold encrypt. rewrite E1. cbn [tbind]. rewrite E2. cbn [tbind].
    unfold callHashFinalize.
    change (hashCtx (withAccum ctx1 acc)) with (hashCtx ctx1). rewrite Hh.
    fold siv. rewrite EF. cbn [tbind].
    change (chachaKey (withAccum ctx1 acc)) with (chachaKey ctx1). rewrite Hk.
    fold fkey. rewrite EC. cbn [lift tbind].
    rewrite sliceFrom_ok by lia. cbn [tbind tret].
    rewrite PC, !app_nil_r, <- app_assoc.
    rewrite copy_exact by (rewrite length_skipn; lia).
    reflexivity.
  - split; [exact Ekey|]. split; [exact EM|]. split; [|exact A].
    apply Forall_app; split; [exact R|].
    apply Forall_cons; [|apply Forall_nil]. cbn [callInRange]. rewrite Lsiv. lia.
Qed.

(** [decrypt], on a ciphertext of at least 32 bytes and a buffer for
    the plaintext: it decrypts the body under the key derived from the
    tag and compares the tag with the SIV of what it decrypted. *)
Lemma decrypt_run c a m :
  (32 <= length c)%nat -> length m = (length c - 32)%nat ->
  exists t key fkey,
    let tag := skipn (length c - 32) c in
    let pt := xorBytes (firstn (length c - 32) c)
                       (keystream fkey n 1 (length c - 32)) in
    decrypt ctx c a n m
    = (HashFinalizeCall tag :: t,
       Ok (ConstantTimeCompare tag (xorBytes (zeros 32) (keystream key n 0 32)) =? 1, pt)) /\
    messageKey ctx tag = Ok fkey /\
    sivKey ctx a pt = Ok key /\
    Forall callInRange (HashFinalizeCall tag :: t).
Proof.
  intros Hc Hm.
  set (mBytes := (length c - 32)%nat) in *.
  set (tag := skipn mBytes c).
  assert (Ltag : length tag = 32%nat) by (unfold tag; rewrite length_skipn; lia).
  destruct (messageKey_ok ctx Hwf tag Ltag) as (acc' & EF & EM).
  set (fkey := xorCopyChaChaKey (digest (hashCtx ctx) acc' ++ zeros 8) (chachaKey ctx)) in *.
  assert (Lf : length fkey = 32%nat).
  { apply xorCopyChaChaKey_length; [apply hashed_key_length | apply Hwf]. }
  set (pt := xorBytes (firstn mBytes c) (keystream fkey n 1 mBytes)).
  assert (Lpt : length pt = mBytes).
  { unfold pt. rewrite xorBytes_length, length_firstn, keystream_length. lia. }
  destruct (siv_phase ctx Hwf n Hn a pt (length m) ltac:(lia))
    as (t1 & t2 & ctx1 & acc & key & E1 & E2 & Hh & Hk & Ekey & Lkey & R & A).
  exists (t1 ++ t2), key, fkey. cbv zeta. fold tag pt.
  split.
  - unfold decrypt, hs1SIVLen, NonceSize.
    assert (Hlt : (length c <? 32)%nat = false) by (apply Nat.ltb_ge; lia).
    rewrite Hlt. fold mBytes.
    rewrite (copy_exact (zeros 32)) by (fold tag; rewrite length_zeros; lia).
    rewrite (copy_exact (zeros 12)) by (rewrite length_zeros; lia).
    fold tag. unfold callHashFinalize. rewrite EF. cbn [tbind].
    fold fkey. rewrite E1. cbn [tbind].
    rewrite chacha20_same_length; try assumption.
    2:{ rewrite length_firstn. lia. }
    rewrite length_firstn, Nat.min_l by lia. fold pt.
    cbn [lift tbind]. change (zeros 32) with (zeros hs1SIVLen) at 1.
    rewrite E2. cbn [tbind tret]. rewrite !app_nil_r. reflexivity.
  - split; [exact EM|]. split; [exact Ekey|].
    apply Forall_cons; [|exact R]. cbn [callInRange]. rewrite Ltag. lia.
Qed.

End EncryptDecrypt.

(** ** Seal and Open *)

Lemma New_ok userKey ae : New userKey = Ok ae -> key ae = userKey /\ length userKey = 32%nat.
Proof.
  unfold New, KeySize.
  destruct (length userKey =? 32)%nat eqn:E; cbn [negb]; [|discriminate].
  apply Nat.eqb_eq in E. intros [= <-]. cbn [key].
  split; [|exact E]. apply copy_exact. now rewrite length_zeros.
Qed.

(** Appending [k] bytes: [head] keeps the bytes of [in], and [tail] is a
    buffer of [k] bytes after them. *)
Lemma sliceForAppend_append dst k :
  exists head tail,
    sliceForAppend dst (Z.of_nat k) = Ok (head, tail) /\
    length tail = k /\
    firstn (len dst) (data head) = data dst /\
    (length (data head) = len dst + k)%nat.
Proof.
  unfold sliceForAppend, len, cap.
  destruct (Z.of_nat (length (data dst) + length (spare dst))
            >=? Z.of_nat (length (data dst)) + Z.of_nat k) eqn:E.
  - assert (Hcap : (k <= length (spare dst))%nat) by lia.
    assert (Hneg : (Z.of_nat (length (data dst)) + Z.of_nat k <? 0) = false) by lia.
    rewrite Hneg. cbn [bind data].
    replace (Z.to_nat (Z.of_nat (length (data dst)) + Z.of_nat k))
      with (length (data dst) + k)%nat by lia.
    rewrite firstn_app_2.
    rewrite sliceFrom_ok by (rewrite length_app; lia). cbn [bind].
    do 2 eexists. split; [reflexivity|]. cbn [data].
    rewrite skipn_app, Nat.sub_diag, skipn_O, skipn_all2, app_nil_l by lia.
    rewrite firstn_app, Nat.sub_diag, firstn_O, app_nil_r, firstn_all.
    rewrite length_app, length_firstn. repeat split; lia.
  - cbn [bind data].
    replace (Z.to_nat (Z.of_nat (length (data dst)) + Z.of_nat k))
      with (length (data dst) + k)%nat by lia.
    rewrite copy_zeros_pad by lia.
    replace (length (data dst) + k - length (data dst))%nat with k by lia.
    rewrite sliceFrom_ok by (rewrite length_app; lia). cbn [bind].
    do 2 eexists. split; [reflexivity|]. cbn [data].
    rewrite skipn_app, Nat.sub_diag, skipn_O, skipn_all2, app_nil_l by lia.
    rewrite firstn_app, Nat.sub_diag, firstn_O, app_nil_r, firstn_all.
    rewrite length_app, length_zeros. repeat split; lia.
Qed.

(** With a negative [n] the function cannot build its slices. *)
Lemma sliceForAppend_negative dst n :
  n < 0 -> sliceForAppend dst n = Panic SliceBoundsOutOfRange.
Proof.
  intros Hn. unfold sliceForAppend, len, cap.
  assert (E : (Z.of_nat (length (data dst) + length (spare dst))
               >=? Z.of_nat (length (data dst)) + n) = true) by lia.
  rewrite E.
  destruct (Z.of_nat (length (data dst)) + n <? 0) eqn:E0; [reflexivity|].
  cbn [bind data].
  rewrite sliceFrom_panic by (rewrite length_firstn; lia). reflexivity.
Qed.

Lemma ConstantTimeCompare_refl x : ConstantTimeCompare x x = 1.
Proof.
  unfold ConstantTimeCompare. now destruct (list_eq_dec Byte.byte_eq_dec x x).
Qed.

Lemma map_zero_zeros (out : list byte) : map (fun _ => Byte.x00) out = zeros (length out).
Proof. induction out as [|b out IH]; cbn; [reflexivity | now rewrite IH]. Qed.

(** Seal on a 32-byte key and a 12-byte nonce: it appends [sealedBytes],
    and its hash calls are in range, the length block coming last in the
    SIV hash. *)
Lemma Seal_run ae dst nonce plaintext ad :
  length (key ae) = 32%nat -> length nonce = 12%nat ->
  exists t siv out sp,
    Seal ae dst nonce plaintext ad
    = (t ++ [HashFinalizeCall siv], Ok (mkSlice (data dst ++ out) sp)) /\
    sealedBytes (key ae) nonce plaintext ad = Ok out /\
    length out = (length plaintext + 32)%nat /\
    Forall callInRange (t ++ [HashFinalizeCall siv]) /\
    absorbedBytes t
    = padTo 64 ad ++ padTo 16 plaintext ++ lenBlock (length ad) (length plaintext).
Proof.
  intros Hk Hn.
  destruct (setup_ok (key ae) Hk) as (ctx & Es & Hwf).
  destruct (sliceForAppend_append dst (length plaintext + 32))
    as (head & tail & Ea & Lt & Hd & _).
  destruct (encrypt_run ctx Hwf nonce Hn plaintext ad tail Lt)
    as (t & skey & fkey & Ee & Ek & Ef & R & A).
  cbv zeta in *.
  set (siv := xorBytes (zeros 32) (keystream skey nonce 0 32)) in *.
  exists t, siv, (xorBytes plaintext (keystream fkey nonce 1 (length plaintext)) ++ siv),
         (spare head).
  split.
  - unfold Seal, NonceSize, TagSize. rewrite Hn. cbn [Nat.eqb negb].
    rewrite Es. cbn [lift tbind].
    replace (Z.of_nat (length plaintext) + Z.of_nat 32)
      with (Z.of_nat (length plaintext + 32)) by lia.
    rewrite Ea. cbn [tbind]. rewrite Ee. cbn [tbind tret app].
    rewrite app_nil_r. unfold withTail. now rewrite Hd.
  - split.
    + unfold sealedBytes. rewrite Es. cbn [bind]. rewrite Ek. cbn [bind].
      fold siv. rewrite Ef. reflexivity.
    + split; [|split; assumption].
      rewrite length_app, xorBytes_length, keystream_length.
      unfold siv. rewrite sivBytes_length. lia.
Qed.

(** Open on a ciphertext of at least 32 bytes: it never panics; it
    returns the candidate plaintext when the recomputed SIV is the tag,
    and otherwise [ErrOpen], after zeroing the buffer it decrypted into. *)
Lemma Open_run ae dst nonce c ad :
  length (key ae) = 32%nat -> length nonce = 12%nat -> (32 <= length c)%nat ->
  exists t pt siv sp,
    candidate (key ae) nonce c ad = Ok (pt, siv) /\
    length pt = (length c - 32)%nat /\
    Forall callInRange t /\
    Open ae dst nonce c ad
    = (t, Ok (if ConstantTimeCompare (tagOf c) siv =? 1
              then mkOpened (mkSlice (data dst ++ pt) sp) None pt
              else if (0 <? length pt)%nat
                   then mkOpened nilSlice (Some ErrOpen) (zeros (length pt))
                   else mkOpened (mkSlice (data dst ++ pt) sp) (Some ErrOpen) pt)).
Proof.
  intros Hk Hn Hc.
  destruct (setup_ok (key ae) Hk) as (ctx & Es & Hwf).
  destruct (sliceForAppend_append dst (length c - 32))
    as (head & tail & Ea & Lt & Hd & _).
  destruct (decrypt_run ctx Hwf nonce Hn c ad tail Hc Lt)
    as (t & skey & fkey & Ed & Ef & Ek & R).
  cbv zeta in *. fold (tagOf c) in *. fold (bodyOf c) in *.
  set (pt := xorBytes (bodyOf c) (keystream fkey nonce 1 (length c - 32))) in *.
  set (siv := xorBytes (zeros 32) (keystream skey nonce 0 32)) in *.
  assert (Lpt : length pt = (length c - 32)%nat).
  { unfold pt, bodyOf. rewrite xorBytes_length, length_firstn, keystream_length. lia. }
  exists (HashFinalizeCall (tagOf c) :: t), pt, siv, (spare head).
  split.
  { unfold candidate. rewrite Es. cbn [bind]. rewrite Ef. cbn [bind].
    fold pt. rewrite Ek. reflexivity. }
  split; [exact Lpt|]. split; [exact R|].
  unfold Open, NonceSize, TagSize. rewrite Hn. cbn [Nat.eqb negb].
  rewrite Es. cbn [lift tbind].
  replace (Z.of_nat (length c) - Z.of_nat 32) with (Z.of_nat (length c - 32)) by lia.
  rewrite Ea. cbn [tbind]. rewrite Ed. cbn [tbind app].
  destruct (ConstantTimeCompare (tagOf c) siv =? 1) eqn:Ecmp; cbn [negb].
  - cbn [tret]. rewrite app_nil_r. unfold withTail. now rewrite Hd.
  - destruct (0 <? length pt)%nat eqn:E0; cbn [tret]; rewrite app_nil_r.
    + now rewrite map_zero_zeros.
    + unfold withTail. now rewrite Hd.
Qed.

(** ** The polynomial layer *)

Section PolyStep.
Variables a b k : Z.
Hypothesis Ha : 0 <= a < 5 * 2 ^ 61.
Hypothesis Hb : 0 <= b < 2 ^ 60.
Hypothesis Hk : 0 <= k < 2 ^ 60.

Let ah := a / 2 ^ 32.
Let al := a mod 2 ^ 32.
Let kh := k / 2 ^ 32.
Let kl := k mod 2 ^ 32.

Lemma polyStep_halves :
  0 <= ah < 5 * 2 ^ 29 /\ 0 <= al < 2 ^ 32 /\ 0 <= kh < 2 ^ 28 /\ 0 <= kl < 2 ^ 32 /\
  a = ah * 2 ^ 32 + al /\ k = kh * 2 ^ 32 + kl.
Proof. unfold ah, al, kh, kl. lia. Qed.

(** With [a] below [5 * 2^61] (so for every 63-bit [a]) and 60-bit [b]
    and [k], no product and no sum of [polyStep] wraps around 64 bits:
    the function computes the sum of its six terms over the integers,
    the last term being the low 29 bits of [m] shifted left by 32; and
    the result is again below [5 * 2^61]. *)
Lemma polyStep_no_wrap :
  ah * kl + kh * al < 2 ^ 64 /\ ah * kh * 2 ^ 3 < 2 ^ 64 /\ al * kl < 2 ^ 64 /\
  polyStep a b k
  = (al * kl) mod 2 ^ 61 + 8 * (ah * kh) + (al * kl) / 2 ^ 61 + b
    + (ah * kl + kh * al) / 2 ^ 29 + ((ah * kl + kh * al) mod 2 ^ 29) * 2 ^ 32 /\
  0 <= polyStep a b k < 5 * 2 ^ 61.
Proof.
  destruct polyStep_halves as (Hah & Hal & Hkh & Hkl & Ea & Ek).
  unfold polyStep. change m61 with (Z.ones 61).
  rewrite !Z.shiftr_div_pow2, !Z.shiftl_mul_pow2, !Z.land_ones by lia.
  unfold uint32, uint64. fold al kl.
  rewrite (Z.mod_small (a / 2 ^ 32)) by (fold ah; lia).
  rewrite (Z.mod_small (k / 2 ^ 32)) by (fold kh; lia).
  fold ah kh.
  assert (H1 : 0 <= ah * kl < 5 * 2 ^ 61) by nia.
  assert (H2 : 0 <= kh * al < 2 ^ 60) by nia.
  assert (H3 : 0 <= ah * kh < 5 * 2 ^ 57) by nia.
  assert (H4 : 0 <= al * kl < 2 ^ 64) by nia.
  assert (H5 : 8 * (ah * kh) + (ah * kl + kh * al) / 2 ^ 29 <= 5 * 2 ^ 60 - 8).
  { assert (ah * kl + kh * al <= (ah + kh) * 2 ^ 32) by nia.
    assert ((ah + 1) * (kh + 1) <= 5 * 2 ^ 29 * 2 ^ 28) by (apply Z.mul_le_mono_nonneg; lia).
    assert ((ah * kl + kh * al) / 2 ^ 29 <= 8 * (ah + kh)) by lia.
    lia. }
  rewrite (Z.mod_small (ah * kl)) by lia.
  rewrite (Z.mod_small (kh * al)) by lia.
  rewrite (Z.mod_small (ah * kh)) by lia.
  rewrite (Z.mod_small (al * kl)) by lia.
  rewrite (Z.mod_small (ah * kl + kh * al)) by lia.
  rewrite (Z.mod_small (ah * kh * 2 ^ 3)) by lia.
  set (m := ah * kl + kh * al) in *.
  set (l := al * kl) in *.
  set (h := ah * kh) in *.
  assert (Hm : ((m * 2 ^ 32) mod 2 ^ 64) mod 2 ^ 61 = m mod 2 ^ 29 * 2 ^ 32) by lia.
  rewrite Hm.
  assert (Hl1 : 0 <= l mod 2 ^ 61 < 2 ^ 61) by lia.
  assert (Hl2 : 0 <= l / 2 ^ 61 < 8) by lia.
  assert (Hm1 : 0 <= m mod 2 ^ 29 * 2 ^ 32 <= 2 ^ 61 - 2 ^ 32) by lia.
  assert (Hm2 : 0 <= m / 2 ^ 29) by lia.
  rewrite (Z.mod_small (l mod 2 ^ 61 + h * 2 ^ 3)) by lia.
  rewrite (Z.mod_small (l mod 2 ^ 61 + h * 2 ^ 3 + l / 2 ^ 61)) by lia.
  rewrite (Z.mod_small (l mod 2 ^ 61 + h * 2 ^ 3 + l / 2 ^ 61 + b)) by lia.
  rewrite (Z.mod_small (l mod 2 ^ 61 + h * 2 ^ 3 + l / 2 ^ 61 + b + m / 2 ^ 29)) by lia.
  rewrite Z.mod_small by lia.
  repeat split; lia.
Qed.

(** The result is congruent to [a * k + b] modulo [2^61 - 1]. *)
Lemma polyStep_congruent :
  polyStep a b k mod (2 ^ 61 - 1) = (a * k + b) mod (2 ^ 61 - 1).
Proof.
  destruct polyStep_halves as (Hah & Hal & Hkh & Hkl & Ea & Ek).
  destruct polyStep_no_wrap as (_ & _ & _ & -> & _).
  assert (E : a * k = ah * kh * 2 ^ 64 + (ah * kl + kh * al) * 2 ^ 32 + al * kl).
  { rewrite Ea at 1. rewrite Ek at 1. ring. }
  set (m := ah * kl + kh * al) in *.
  set (l := al * kl) in *.
  set (h := ah * kh) in *.
  rewrite E.
  replace (h * 2 ^ 64 + m * 2 ^ 32 + l + b)
    with (l mod 2 ^ 61 + 8 * h + l / 2 ^ 61 + b + m / 2 ^ 29 + m mod 2 ^ 29 * 2 ^ 32
          + (8 * h + m / 2 ^ 29 + l / 2 ^ 61) * (2 ^ 61 - 1)) by lia.
  now rewrite Z.mod_add by lia.
Qed.

End PolyStep.

(** [polyFinalize] maps every 64-bit value to its residue modulo
    [2^61 - 1], in [0, 2^61 - 2]. *)
Lemma polyFinalize_canonical a :
  0 <= a < 2 ^ 64 ->
  0 <= polyFinalize a <= 2 ^ 61 - 2 /\
  polyFinalize a = a mod (2 ^ 61 - 1).
Proof.
  intros Ha. unfold polyFinalize. change m61 with (Z.ones 61).
  rewrite !Z.shiftr_div_pow2, !Z.land_ones by lia.
  unfold uint64, int64.
  assert (H1 : 0 <= a mod 2 ^ 61 < 2 ^ 61) by lia.
  assert (H2 : 0 <= a / 2 ^ 61 < 8) by lia.
  rewrite (Z.mod_small (a mod 2 ^ 61 + a / 2 ^ 61)) by lia.
  set (r := a mod 2 ^ 61 + a / 2 ^ 61).
  assert (Hr : 0 <= r <= 2 ^ 61 + 6) by (unfold r; lia).
  assert (Ea : a = r + a / 2 ^ 61 * (2 ^ 61 - 1)) by (unfold r; lia).
  change (Z.ones 61 - 1) with (2 ^ 61 - 2).
  destruct (Z_lt_le_dec r (2 ^ 61 - 1)) as [Hlt | Hge].
  - rewrite (Z.mod_small (2 ^ 61 - 2 - r)) by lia.
    rewrite (Z.mod_small (2 ^ 61 - 2 - r + 2 ^ 63)) by lia.
    replace ((2 ^ 61 - 2 - r + 2 ^ 63 - 2 ^ 63) / 2 ^ 63) with 0 by lia.
    change (0 mod 2 ^ 64) with 0. change (0 mod 2 ^ 61) with 0.
    rewrite Z.sub_0_r, (Z.mod_small r) by lia.
    split; [lia|].
    rewrite Ea at 1. rewrite Z.mod_add by lia. now rewrite Z.mod_small by lia.
  - assert (E1 : (2 ^ 61 - 2 - r) mod 2 ^ 64 = 2 ^ 64 + 2 ^ 61 - 2 - r) by lia.
    rewrite E1.
    assert (E2 : (2 ^ 64 + 2 ^ 61 - 2 - r + 2 ^ 63) mod 2 ^ 64 = 2 ^ 61 - 2 - r + 2 ^ 63) by lia.
    rewrite E2.
    replace ((2 ^ 61 - 2 - r + 2 ^ 63 - 2 ^ 63) / 2 ^ 63) with (-1) by lia.
    change ((-1) mod 2 ^ 64) with (2 ^ 64 - 1).
    change ((2 ^ 64 - 1) mod 2 ^ 61) with (2 ^ 61 - 1).
    rewrite (Z.mod_small (r - (2 ^ 61 - 1))) by lia.
    split; [lia|].
    replace a with (r - (2 ^ 61 - 1) + (a / 2 ^ 61 + 1) * (2 ^ 61 - 1)) at 1 by lia.
    rewrite Z.mod_add by lia. now rewrite Z.mod_small by lia.
Qed.

(** ** RFC 7539 *)

(** The block function on the test vector of RFC 7539, section 2.3.2. *)
Example chacha20_rfc7539_block :
  map byte.unsigned (keystream KAT.rfcKey KAT.rfcNonce 1 64)
  = [0x10; 0xf1; 0xe7; 0xe4; 0xd1; 0x3b; 0x59; 0x15; 0x50; 0x0f; 0xdd; 0x1f; 0xa3; 0x20; 0x71; 0xc4;
     0xc7; 0xd1; 0xf4; 0xc7; 0x33; 0xc0; 0x68; 0x03; 0x04; 0x22; 0xaa; 0x9a; 0xc3; 0xd4; 0x6c; 0x4e;
     0xd2; 0x82; 0x64; 0x46; 0x07; 0x9f; 0xaa; 0x09; 0x14; 0xc2; 0xd7; 0x05; 0xd9; 0x8b; 0x02; 0xa2;
     0xb5; 0x12; 0x9c; 0xd1; 0xde; 0x16; 0x4e; 0xb9; 0xcb; 0xd0; 0x83; 0xe8; 0xa2; 0x50; 0x3c; 0x4e].
Proof. vm_compute. reflexivity. Qed.

(** ** The package's own test *)

(** The embedding passes the assertions of [doTestKAT] that do not need
    the table of known answers, at message lengths around the chunk and
    block boundaries. *)
Example doTestKAT_iterations :
  forallb KAT.testIteration [0; 1; 16; 49; 64; 65]%nat = true.
Proof. vm_compute. reflexivity. Qed.

(** * The claims *)

(** C1. Round trip: for every 32-byte key, 12-byte nonce, plaintext [P]
    and associated data [A], sealing onto [nil] and opening the result
    onto [nil] with the same nonce and associated data succeeds and
    returns exactly [P]. *)
Theorem Open_Seal_roundtrip userKey ae nonce P A :
  New userKey = Ok ae -> length nonce = 12%nat ->
  exists sealed opened,
    value (Seal ae nilSlice nonce P A) = Ok sealed /\
    value (Open ae nilSlice nonce (data sealed) A) = Ok opened /\
    err opened = None /\
    data (ret opened) = P.
Proof.
  intros HN Hn. apply New_ok in HN as [Hkey Hk]. rewrite <- Hkey in Hk.
  destruct (Seal_run ae nilSlice nonce P A Hk Hn)
    as (t & siv & out & sp & ES & Eout & Lout & _ & _).
  cbn [data nilSlice app] in ES.
  destruct (Open_run ae nilSlice nonce out A Hk Hn ltac:(lia))
    as (t' & pt & siv' & sp' & EC & Lpt & _ & EO).
  exists (mkSlice out sp). eexists.
  split; [unfold value; now rewrite ES|]. cbn [data].
  split; [unfold value; rewrite EO; reflexivity|].
  (* what was sealed and what is recomputed are the same functions of the
     same arguments *)
  unfold sealedBytes in Eout. unfold candidate in EC.
  destruct (setup (key ae)) as [ctx|]; [|discriminate]. cbn [bind] in *.
  destruct (sivKey ctx A P) as [dk|] eqn:Edk; [|discriminate]. cbn [bind] in *.
  destruct (messageKey ctx (xorBytes (zeros 32) (keystream dk nonce 0 32)))
    as [fk|] eqn:Efk; [|discriminate].
  cbn [bind] in Eout. apply Ok_inj in Eout. subst out.
  set (sv := xorBytes (zeros 32) (keystream dk nonce 0 32)) in *.
  set (body := xorBytes P (keystream fk nonce 1 (length P))) in *.
  assert (Lsv : length sv = 32%nat) by apply sivBytes_length.
  assert (Lbody : length body = length P).
  { unfold body. rewrite xorBytes_length, keystream_length. lia. }
  assert (Htag : tagOf (body ++ sv) = sv).
  { unfold tagOf. rewrite length_app, Lsv, Nat.add_sub.
    rewrite skipn_app, Lbody, Nat.sub_diag, skipn_O, skipn_all2 by lia. reflexivity. }
  assert (Hbody : bodyOf (body ++ sv) = body).
  { unfold bodyOf. rewrite length_app, Lsv, Nat.add_sub.
    rewrite firstn_app, Lbody, Nat.sub_diag, firstn_O, app_nil_r.
    apply firstn_all2. lia. }
  rewrite Htag, Hbody, Efk in EC. cbn [bind] in EC.
  rewrite length_app, Lsv, Nat.add_sub, Lbody in EC.
  assert (Hpt : xorBytes body (keystream fk nonce 1 (length P)) = P).
  { unfold body. apply xorBytes_involutive. rewrite keystream_length. lia. }
  rewrite Hpt, Edk in EC. cbn [bind] in EC. fold sv in EC.
  apply Ok_inj in EC. apply pair_equal_spec in EC as [<- <-].
  rewrite Htag, ConstantTimeCompare_refl. cbn [Z.eqb Pos.eqb err ret data app].
  split; reflexivity.
Qed.

(** The round trip on the second vector of the known-answer test. *)
Lemma Open_Seal_roundtrip_witness :
  exists sealed opened,
    value (Seal KAT.aead nilSlice KAT.n (KAT.w 1) (KAT.h 1)) = Ok sealed /\
    value (Open KAT.aead nilSlice KAT.n (data sealed) (KAT.h 1)) = Ok opened /\
    err opened = None /\
    data (ret opened) = KAT.w 1.
Proof.
  apply (Open_Seal_roundtrip KAT.k KAT.aead KAT.n (KAT.w 1) (KAT.h 1)); reflexivity.
Defined.

(** C2. Seal output: for every 32-byte key, 12-byte nonce, plaintext [P]
    and associated data, the bytes Seal appends to [dst] are
    [sealedBytes]: [len(P) + 32] bytes, the body ([P] XOR the ChaCha20
    keystream under the final key, the nonce and counter 1) followed by
    the SIV (ChaCha20 of 32 zero bytes under the derived key, the nonce
    and counter 0). *)
Theorem Seal_appends_body_and_siv userKey ae dst nonce P A :
  New userKey = Ok ae -> length nonce = 12%nat ->
  exists ctx derivedKey finalKey r,
    let siv := xorBytes (zeros 32) (keystream derivedKey nonce 0 32) in
    let body := xorBytes P (keystream finalKey nonce 1 (length P)) in
    setup userKey = Ok ctx /\
    sivKey ctx A P = Ok derivedKey /\
    messageKey ctx siv = Ok finalKey /\
    sealedBytes userKey nonce P A = Ok (body ++ siv) /\
    value (Seal ae dst nonce P A) = Ok r /\
    data r = data dst ++ body ++ siv /\
    length body = length P /\ length siv = 32%nat.
Proof.
  intros HN Hn. apply New_ok in HN as [Hkey Hk]. rewrite <- Hkey in *.
  destruct (Seal_run ae dst nonce P A Hk Hn)
    as (t & siv & out & sp & ES & Eout & Lout & _ & _).
  pose proof Eout as Eout'.
  unfold sealedBytes in Eout.
  destruct (setup (key ae)) as [ctx|]; [|discriminate]. cbn [bind] in Eout.
  destruct (sivKey ctx A P) as [dk|] eqn:Edk; [|discriminate]. cbn [bind] in Eout.
  destruct (messageKey ctx (xorBytes (zeros 32) (keystream dk nonce 0 32)))
    as [fk|] eqn:Efk; [|discriminate].
  cbn [bind] in Eout. apply Ok_inj in Eout. subst out.
  exists ctx, dk, fk, (mkSlice (data dst ++
    xorBytes P (keystream fk nonce 1 (length P))
    ++ xorBytes (zeros 32) (keystream dk nonce 0 32)) sp).
  cbv zeta.
  split; [reflexivity|]. split; [exact Edk|]. split; [exact Efk|].
  split; [exact Eout'|]. split; [unfold value; now rewrite ES|].
  split; [reflexivity|]. split.
  - rewrite xorBytes_length, keystream_length. lia.
  - apply sivBytes_length.
Qed.

Lemma Seal_appends_body_and_siv_witness :
  exists ctx derivedKey finalKey r,
    let siv := xorBytes (zeros 32) (keystream derivedKey KAT.n 0 32) in
    let body := xorBytes (KAT.w 3) (keystream finalKey KAT.n 1 (length (KAT.w 3))) in
    setup KAT.k = Ok ctx /\
    sivKey ctx (KAT.h 3) (KAT.w 3) = Ok derivedKey /\
    messageKey ctx siv = Ok finalKey /\
    sealedBytes KAT.k KAT.n (KAT.w 3) (KAT.h 3) = Ok (body ++ siv) /\
    value (Seal KAT.aead nilSlice KAT.n (KAT.w 3) (KAT.h 3)) = Ok r /\
    data r = data nilSlice ++ body ++ siv /\
    length body = length (KAT.w 3) /\ length siv = 32%nat.
Proof.
  apply (Seal_appends_body_and_siv KAT.k KAT.aead nilSlice KAT.n (KAT.w 3) (KAT.h 3));
    reflexivity.
Defined.

(** C9. Determinism: the bytes Seal appends are a function of the key,
    the nonce, the plaintext and the associated data alone; two calls
    with these inputs append the same bytes, whatever [dst] and the
    memory behind it hold. *)
Theorem Seal_deterministic userKey ae nonce P A :
  New userKey = Ok ae -> length nonce = 12%nat ->
  exists out,
    length out = (length P + 32)%nat /\
    forall dst, exists r,
      value (Seal ae dst nonce P A) = Ok r /\ data r = data dst ++ out.
Proof.
  intros HN Hn. apply New_ok in HN as [Hkey Hk]. rewrite <- Hkey in *.
  destruct (Seal_run ae nilSlice nonce P A Hk Hn)
    as (t & siv & out & sp & _ & Eout & Lout & _ & _).
  exists out. split; [exact Lout|]. intros dst.
  destruct (Seal_run ae dst nonce P A Hk Hn)
    as (t' & siv' & out' & sp' & ES & Eout' & _).
  rewrite Eout in Eout'. apply Ok_inj in Eout'. subst out'.
  eexists. split; [unfold value; now rewrite ES|]. reflexivity.
Qed.

Lemma Seal_deterministic_witness :
  exists out,
    length out = (length (KAT.w 5) + 32)%nat /\
    forall dst, exists r,
      value (Seal KAT.aead dst KAT.n (KAT.w 5) (KAT.h 5)) = Ok r /\
      data r = data dst ++ out.
Proof.
  apply (Seal_deterministic KAT.k KAT.aead KAT.n (KAT.w 5) (KAT.h 5)); reflexivity.
Defined.

(** C3. A ciphertext shorter than the tag: Open does not return
    [ErrOpen].  [sliceForAppend] is called with the negative length
    [len(ciphertext) - TagSize] and panics on its slice bounds, for every
    [dst]; [decrypt], which checks the length, is never reached. *)
Theorem Open_short_ciphertext_panics userKey ae dst nonce c A :
  New userKey = Ok ae -> length nonce = 12%nat -> (length c < 32)%nat ->
  Open ae dst nonce c A = ([], Panic SliceBoundsOutOfRange).
Proof.
  intros HN Hn Hc. apply New_ok in HN as [Hkey Hk]. rewrite <- Hkey in *.
  destruct (setup_ok (key ae) Hk) as (ctx & Es & _).
  unfold Open, NonceSize, TagSize. rewrite Hn. cbn [Nat.eqb negb].
  rewrite Es. cbn [lift tbind].
  rewrite sliceForAppend_negative by lia. reflexivity.
Qed.

Lemma Open_short_ciphertext_panics_witness :
  Open KAT.aead nilSlice KAT.n (zeros 31) [] = ([], Panic SliceBoundsOutOfRange).
Proof.
  apply (Open_short_ciphertext_panics KAT.k KAT.aead nilSlice KAT.n (zeros 31) []);
    [reflexivity | reflexivity | cbn; lia].
Defined.

(** C4. Authentication failure: on a ciphertext of at least 32 bytes
    Open computes a candidate plaintext and a SIV for it; when that SIV
    differs from the claimed tag, Open returns [ErrOpen] (it does not
    panic), every byte of the buffer it decrypted into is zero, and the
    slice it returns is [nil] or, when there was no plaintext to write,
    [dst] with nothing appended. *)
Theorem Open_failure_zeroes_plaintext userKey ae dst nonce c A :
  New userKey = Ok ae -> length nonce = 12%nat -> (32 <= length c)%nat ->
  exists pt siv,
    candidate userKey nonce c A = Ok (pt, siv) /\
    (siv <> tagOf c ->
     exists o,
       value (Open ae dst nonce c A) = Ok o /\
       err o = Some ErrOpen /\
       outMem o = zeros (length c - 32) /\
       (ret o = nilSlice \/ pt = [] /\ data (ret o) = data dst)).
Proof.
  intros HN Hn Hc. apply New_ok in HN as [Hkey Hk]. rewrite <- Hkey in *.
  destruct (Open_run ae dst nonce c A Hk Hn Hc)
    as (t & pt & siv & sp & EC & Lpt & _ & EO).
  exists pt, siv. split; [exact EC|]. intros Hne.
  assert (Ecmp : (ConstantTimeCompare (tagOf c) siv =? 1) = false).
  { unfold ConstantTimeCompare.
    destruct (list_eq_dec Byte.byte_eq_dec (tagOf c) siv) as [E | _]; [|reflexivity].
    now elim Hne. }
  rewrite Ecmp in EO. unfold value. rewrite EO. cbn [snd].
  destruct (0 <? length pt)%nat eqn:E0.
  - eexists. split; [reflexivity|]. cbn [err outMem ret].
    rewrite Lpt. repeat split; auto.
  - eexists. split; [reflexivity|]. cbn [err outMem ret data].
    assert (Hnil : pt = []) by (apply length_zero_iff_nil; lia).
    rewrite Hnil, app_nil_r. rewrite <- Lpt, Hnil. repeat split; auto.
Qed.

(** Open on the second known-answer ciphertext with byte 1 flipped, as in
    the test of malformed ciphertexts. *)
Lemma Open_failure_zeroes_plaintext_witness :
  exists o,
    value (Open KAT.aead nilSlice KAT.n (KAT.flipped (KAT.sealed 1) 1) (KAT.h 1)) = Ok o /\
    err o = Some ErrOpen /\
    outMem o = zeros 1 /\
    ret o = nilSlice.
Proof.
  destruct (Open_failure_zeroes_plaintext KAT.k KAT.aead nilSlice KAT.n
              (KAT.flipped (KAT.sealed 1) 1) (KAT.h 1))
    as (pt & siv & EC & H); [reflexivity | reflexivity | vm_compute; lia |].
  vm_compute in EC. apply Ok_inj in EC. apply pair_equal_spec in EC as [<- <-].
  destruct H as (o & EO & Eerr & Emem & Eret).
  - vm_compute. discriminate.
  - exists o. repeat split; try assumption.
    destruct Eret as [E | [E _]]; [exact E | discriminate E].
Defined.

(** C5, as stated, fails: sealing the empty plaintext with the one-byte
    associated data [0xff] hands the hash the padded associated data
    first and the length block after it. *)
Lemma Seal_absorbs_AD_before_length_block :
  ~ lengthBlockBeforeAD [Byte.xff] []
      (absorbedBytes (sivHashCalls (Seal KAT.aead nilSlice KAT.n [] [Byte.xff]))).
Proof.
  assert (E : absorbedBytes (sivHashCalls (Seal KAT.aead nilSlice KAT.n [] [Byte.xff]))
              = Byte.xff :: zeros 63 ++ lenBlock 1 0)
    by (vm_compute; reflexivity).
  rewrite E. clear E.
  intros (pre & post & E & x & y & ->).
  pose proof (f_equal (count_occ Byte.byte_eq_dec) E) as C.
  apply (f_equal (fun f => f Byte.xff)) in C.
  rewrite !count_occ_app in C.
  change (count_occ Byte.byte_eq_dec (Byte.xff :: zeros 63 ++ lenBlock 1 0) Byte.xff)
    with 1%nat in C.
  change (count_occ Byte.byte_eq_dec [Byte.xff] Byte.xff) with 1%nat in C.
  destruct pre as [|b pre].
  - cbn [app length] in E. vm_compute in E. discriminate E.
  - cbn [app] in E. injection E as <- _.
    cbn [count_occ] in C.
    destruct (Byte.byte_eq_dec Byte.xff Byte.xff) as [_ | N]; [lia | now elim N].
Qed.

(** C5, amended: in every Seal the SIV hash absorbs the associated data,
    zero-padded to whole 64-byte blocks, then the plaintext, zero-padded
    to whole 16-byte chunks, and the length block last. *)
Theorem Seal_absorbs_length_block_last userKey ae dst nonce P A :
  New userKey = Ok ae -> length nonce = 12%nat ->
  absorbedBytes (sivHashCalls (Seal ae dst nonce P A))
  = padTo 64 A ++ padTo 16 P ++ lenBlock (length A) (length P).
Proof.
  intros HN Hn. apply New_ok in HN as [Hkey Hk]. rewrite <- Hkey in *.
  destruct (Seal_run ae dst nonce P A Hk Hn)
    as (t & siv & out & sp & ES & _ & _ & _ & EA).
  unfold sivHashCalls, trace. rewrite ES. cbn [fst].
  now rewrite removelast_last.
Qed.

Lemma Seal_absorbs_length_block_last_witness :
  absorbedBytes (sivHashCalls (Seal KAT.aead nilSlice KAT.n (KAT.w 70) (KAT.h 3)))
  = padTo 64 (KAT.h 3) ++ padTo 16 (KAT.w 70) ++ lenBlock 3 70.
Proof.
  apply (Seal_absorbs_length_block_last KAT.k KAT.aead nilSlice KAT.n (KAT.w 70) (KAT.h 3));
    reflexivity.
Defined.

(** C6, as stated, fails: with the hash keys of the test key, no input
    and the initial accumulator, the last eight bytes of a 32-byte result
    buffer are what they were before the call. *)
Lemma hashFinalize_leaves_last_8_bytes :
  ~ writes32ByteDigest KAT.hashKeys [] (repeat 1 hs1HashRounds).
Proof.
  intros (d & _ & H).
  destruct (H (zeros 32) eq_refl) as (a1 & E1).
  destruct (H (repeat Byte.xff 32) eq_refl) as (a2 & E2).
  vm_compute in E1. vm_compute in E2.
  apply Ok_inj, pair_equal_spec in E1 as [_ E1].
  apply Ok_inj, pair_equal_spec in E2 as [_ E2].
  rewrite <- E2 in E1. discriminate E1.
Qed.

(** C6, amended: on a tail of at most 64 bytes in whole 16-byte chunks
    [hashFinalize] produces a digest of 24 bytes, four for each of the
    six lanes; it stores them in the first 24 bytes of the result buffer
    and leaves the rest of the buffer unchanged. *)
Theorem hashFinalize_writes_24_bytes ctx inp accum :
  wfHashCtx ctx -> (length inp <= 64)%nat -> (length inp mod 16 = 0)%nat ->
  exists accum' d,
    length d = 24%nat /\
    forall res, (24 <= length res)%nat ->
      hashFinalize ctx inp accum res = Ok (accum', d ++ skipn 24 res).
Proof.
  intros Hwf H64 H16.
  destruct (hashFinalize_spec ctx Hwf inp accum H64 H16) as (accum' & _ & E).
  exists accum', (digest ctx accum'). split; [apply digest_length | exact E].
Qed.

Lemma KAT_hashKeys_wf : wfHashCtx KAT.hashKeys.
Proof.
  unfold KAT.hashKeys.
  destruct (setup_ok KAT.k eq_refl) as (ctx & -> & Hwf). apply Hwf.
Qed.

Lemma hashFinalize_writes_24_bytes_witness :
  exists accum' d,
    length d = 24%nat /\
    forall res, (24 <= length res)%nat ->
      hashFinalize KAT.hashKeys (zeros 32) (repeat 1 hs1HashRounds) res
      = Ok (accum', d ++ skipn 24 res).
Proof.
  apply (hashFinalize_writes_24_bytes KAT.hashKeys (zeros 32) (repeat 1 hs1HashRounds));
    [exact KAT_hashKeys_wf | cbn; lia | reflexivity].
Defined.

(** C8, as stated, fails: with one byte of input and two bytes of output
    the second byte of the output is overwritten with keystream. *)
Lemma chacha20_copies_past_input :
  ~ copiesOnlyNeededPrefix KAT.k KAT.n 1 [Byte.x00] (zeros 2).
Proof.
  intros (out' & E & H).
  vm_compute in E. apply Ok_inj in E. subst out'.
  vm_compute in H. discriminate H.
Qed.

(** C8, amended: the keystream operation never panics and returns an
    output of the length of [out]; it reads at most the first [len(out)]
    bytes of [in], XORs them, zero-padded to whole blocks, with the
    keystream, the last block in a scratch buffer, and copies the result
    into [out] as far as [out] reaches.  So when [out] is as long as
    [in], [out] is [in] XOR keystream; when [out] is longer, its first
    [len(in)] bytes are, the bytes up to the end of the last block
    started are keystream, and the bytes after that block are
    untouched. *)
Theorem chacha20_partial_block key nonce inp out ctr :
  length key = 32%nat -> length nonce = 12%nat ->
  exists out',
    chacha20 key nonce inp out ctr = Ok out' /\
    length out' = length out /\
    out' = copy out (xorKeyStreamPadded key nonce ctr (firstn (length out) inp)) /\
    (length inp = length out ->
     out' = xorBytes inp (keystream key nonce ctr (length inp))) /\
    ((length inp <= length out)%nat ->
     firstn (length inp) out' = xorBytes inp (keystream key nonce ctr (length inp)) /\
     skipn (blocksFor (length inp) * 64) out' = skipn (blocksFor (length inp) * 64) out).
Proof.
  intros Hk Hn. rewrite chacha20_spec by assumption.
  eexists. split; [reflexivity|]. split; [apply copy_length|].
  split; [reflexivity|]. split.
  - intros Hl.
    pose proof (chacha20_same_length key nonce inp out ctr Hk Hn Hl) as E.
    rewrite chacha20_spec in E by assumption. now apply Ok_inj in E.
  - intros Hl.
    destruct (chacha20_prefix key nonce inp out ctr Hk Hn Hl) as (o & E & _ & P).
    rewrite chacha20_spec in E by assumption. apply Ok_inj in E.
    rewrite E. split; [exact P|].
    rewrite <- E. rewrite (firstn_all2 (n := length out) inp) by lia.
    set (X := xorKeyStreamPadded key nonce ctr inp).
    assert (LX : length X = (blocksFor (length inp) * 64)%nat)
      by apply xorKeyStreamPadded_length.
    unfold copy. rewrite LX, skipn_app.
    rewrite (skipn_all2 (firstn (length out) X)) by (rewrite length_firstn; lia).
    rewrite app_nil_l, skipn_skipn, length_firstn, LX.
    destruct (Nat.le_gt_cases (blocksFor (length inp) * 64) (length out)).
    + f_equal. lia.
    + now rewrite !skipn_all2 by lia.
Qed.

Lemma chacha20_partial_block_witness :
  exists out',
    chacha20 KAT.k KAT.n (KAT.w 70) (zeros 140) 1 = Ok out' /\
    length out' = 140%nat /\
    firstn 70 out' = xorBytes (KAT.w 70) (keystream KAT.k KAT.n 1 70) /\
    skipn 128 out' = skipn 128 (zeros 140).
Proof.
  destruct (chacha20_partial_block KAT.k KAT.n (KAT.w 70) (zeros 140) 1)
    as (o & E & L & _ & _ & H); [reflexivity | reflexivity |].
  exists o. split; [exact E|]. split; [exact L|].
  apply H. cbn. lia.
Defined.

(** C10. Every call Seal and Open make to [hashStep] passes whole 64-byte
    blocks and every call to [hashFinalize] passes at most 64 bytes in
    whole 16-byte chunks; on such inputs, and with the key arrays of the
    sizes of their types, neither function indexes or slices out of
    range; and so Seal never panics, nor does Open on a ciphertext that
    holds a tag. *)
Theorem hash_calls_stay_in_range userKey ae dst nonce P c A :
  New userKey = Ok ae -> length nonce = 12%nat ->
  (Forall callInRange (trace (Seal ae dst nonce P A)) /\
   Forall callInRange (trace (Open ae dst nonce c A))) /\
  (forall hctx inp accum,
      wfHashCtx hctx -> callInRange (HashStepCall inp) ->
      exists accum', hashStep hctx inp accum = Ok accum') /\
  (forall hctx inp accum res,
      wfHashCtx hctx -> callInRange (HashFinalizeCall inp) -> (24 <= length res)%nat ->
      exists r, hashFinalize hctx inp accum res = Ok r) /\
  (exists r, value (Seal ae dst nonce P A) = Ok r) /\
  ((32 <= length c)%nat -> exists o, value (Open ae dst nonce c A) = Ok o).
Proof.
  intros HN Hn. pose proof HN as HN'. apply New_ok in HN as [Hkey Hk]. rewrite <- Hkey in *.
  destruct (Seal_run ae dst nonce P A Hk Hn)
    as (t & siv & out & sp & ES & _ & _ & RS & _).
  split; [split|].
  - unfold trace. now rewrite ES.
  - destruct (Nat.le_gt_cases 32 (length c)) as [Hc | Hc].
    + destruct (Open_run ae dst nonce c A Hk Hn Hc) as (t' & pt & sv & sp' & _ & _ & RO & EO).
      unfold trace. now rewrite EO.
    + assert (EO : Open ae dst nonce c A = ([], Panic SliceBoundsOutOfRange)).
      { destruct (setup_ok (key ae) Hk) as (ctx & Es & _).
        unfold Open, NonceSize, TagSize. rewrite Hn. cbn [Nat.eqb negb].
        rewrite Es. cbn [lift tbind].
        rewrite sliceForAppend_negative by lia. reflexivity. }
      rewrite EO. apply Forall_nil.
  - split; [|split; [|split]].
    + intros hctx inp accum Hwf Hr. cbn [callInRange] in Hr.
      destruct (hashStep_total hctx (proj1 Hwf) inp accum Hr) as (a & E & _). eauto.
    + intros hctx inp accum res Hwf [H64 H16] Hres.
      destruct (hashFinalize_spec hctx Hwf inp accum H64 H16) as (a & _ & E).
      rewrite E by assumption. eauto.
    + eexists. unfold value. now rewrite ES.
    + intros Hc.
      destruct (Open_run ae dst nonce c A Hk Hn Hc) as (t' & pt & sv & sp' & _ & _ & _ & EO).
      eexists. unfold value. now rewrite EO.
Qed.

Lemma hash_calls_stay_in_range_witness :
  Forall callInRange (trace (Seal KAT.aead nilSlice KAT.n (KAT.w 70) (KAT.h 3))) /\
  Forall callInRange (trace (Open KAT.aead nilSlice KAT.n (KAT.sealed 70) (KAT.h 3))).
Proof.
  apply (hash_calls_stay_in_range KAT.k KAT.aead nilSlice KAT.n (KAT.w 70)
           (KAT.sealed 70) (KAT.h 3)); reflexivity.
Defined.

(** The preconditions are needed: off them, both functions panic. *)
Lemma hash_calls_out_of_range_panic hctx inp accum res :
  wfHashCtx hctx ->
  (~ callInRange (HashStepCall inp) -> exists p, hashStep hctx inp accum = Panic p) /\
  (~ callInRange (HashFinalizeCall inp) -> exists p, hashFinalize hctx inp accum res = Panic p).
Proof.
  intros Hwf. split; intros H; cbn [callInRange] in H.
  - apply hashStep_fails; [apply Hwf | exact H].
  - apply hashFinalize_fails; [exact Hwf | lia].
Qed.

(** C7, on the code: for the 63-bit [a = 2^63 - 7] and the 60-bit
    [b = 2^60 - 1] and [k = 2^60 - 9], [polyStep] returns [2^63 + 21], a
    value of 64 bits, against its comment "Return 63 bits".  The other
    parts of the claim hold: see [polyStep_no_wrap], [polyStep_congruent]
    and [polyFinalize_canonical]. *)
Theorem polyStep_exceeds_63_bits :
  let a := 2 ^ 63 - 7 in
  let b := 2 ^ 60 - 1 in
  let k := 2 ^ 60 - 9 in
  0 <= a < 2 ^ 63 /\ 0 <= b < 2 ^ 60 /\ 0 <= k < 2 ^ 60 /\
  polyStep a b k = 2 ^ 63 + 21 /\
  ~ polyStep a b k < 2 ^ 63.
Proof. vm_compute. intuition discriminate. Qed.

(** * Further properties of the code *)

(** ** The polynomial layer *)

(** X1. [polyStep] on an accumulator below [5 * 2^61] and a 60-bit key
    and addend: the result is again below [5 * 2^61] and is congruent to
    [a * k + b] modulo [2^61 - 1]. *)
Theorem polyStep_invariant a b k :
  0 <= a < 5 * 2 ^ 61 -> 0 <= b < 2 ^ 60 -> 0 <= k < 2 ^ 60 ->
  0 <= polyStep a b k < 5 * 2 ^ 61 /\
  polyStep a b k mod (2 ^ 61 - 1) = (a * k + b) mod (2 ^ 61 - 1).
Proof.
  intros Ha Hb Hk. split.
  - apply (polyStep_no_wrap a b k Ha Hb Hk).
  - apply (polyStep_congruent a b k Ha Hb Hk).
Qed.

Lemma polyStep_invariant_witness :
  0 <= polyStep (2 ^ 63 - 7) (2 ^ 60 - 1) (2 ^ 60 - 9) < 5 * 2 ^ 61 /\
  polyStep (2 ^ 63 - 7) (2 ^ 60 - 1) (2 ^ 60 - 9) mod (2 ^ 61 - 1)
  = ((2 ^ 63 - 7) * (2 ^ 60 - 9) + (2 ^ 60 - 1)) mod (2 ^ 61 - 1).
Proof.
  apply (polyStep_invariant (2 ^ 63 - 7) (2 ^ 60 - 1) (2 ^ 60 - 9)); lia.
Defined.

(** X2. [polyFinalize] reduces every 64-bit value modulo [2^61 - 1]: the
    result is the canonical residue. *)
Theorem polyFinalize_reduces a :
  0 <= a < 2 ^ 64 -> polyFinalize a = a mod (2 ^ 61 - 1).
Proof. intros Ha. apply (polyFinalize_canonical a Ha). Qed.

Lemma polyFinalize_reduces_witness :
  polyFinalize (2 ^ 64 - 1) = (2 ^ 64 - 1) mod (2 ^ 61 - 1).
Proof. apply (polyFinalize_reduces (2 ^ 64 - 1)). lia. Defined.

Lemma Forall_set_value (P : Z -> Prop) a : forall i v,
  Forall P a -> P v -> Forall P (set a i v).
Proof.
  induction a as [|x a IH]; intros [|i] v Ha Hv; cbn [set]; auto;
    inversion Ha; subst; constructor; auto.
Qed.

Lemma Forall_nth_default (P : Z -> Prop) l i d : Forall P l -> P d -> P (nth i l d).
Proof.
  intros Hl Hd. destruct (Nat.lt_ge_cases i (length l)) as [H | H].
  - rewrite Forall_forall in Hl. apply Hl, nth_In, H.
  - now rewrite nth_overflow.
Qed.

Lemma land_m60_range x : 0 <= Z.land x m60 < 2 ^ 60.
Proof. change m60 with (Z.ones 60). rewrite Z.land_ones by lia. lia. Qed.

Lemma polyRounds_in_range js ctx nhRes : forall accum,
  Forall (fun x => 0 <= x < 2 ^ 60) (polyKey ctx) ->
  Forall (fun x => 0 <= x < 5 * 2 ^ 61) accum ->
  Forall (fun x => 0 <= x < 5 * 2 ^ 61) (polyRounds js ctx nhRes accum).
Proof.
  intros accum Hk. revert accum.
  assert (Step : forall j acc, Forall (fun x => 0 <= x < 5 * 2 ^ 61) acc ->
            0 <= polyStep (nth j acc 0) (Z.land (nth j nhRes 0) m60) (nth j (polyKey ctx) 0)
            < 5 * 2 ^ 61).
  { intros j acc Hacc. apply polyStep_no_wrap.
    - apply (Forall_nth_default (fun x => 0 <= x < 5 * 2 ^ 61)); [exact Hacc | lia].
    - apply land_m60_range.
    - apply (Forall_nth_default (fun x => 0 <= x < 2 ^ 60)); [exact Hk | lia]. }
  induction js as [|j js IH]; intros accum Hacc; cbn [polyRounds]; [exact Hacc|].
  apply IH. apply Forall_set_value.
  - apply Forall_set_value; [exact Hacc | apply Step, Hacc].
  - apply Step. apply Forall_set_value; [exact Hacc | apply Step, Hacc].
Qed.

Lemma hashStepLoop_in_range ctx (Hnh : length (nhKey ctx) = 36%nat) n :
  forall inp accum,
    Forall (fun x => 0 <= x < 2 ^ 60) (polyKey ctx) ->
    Ranges.accumInRange accum ->
    (64 * n <= length inp)%nat ->
    exists accum', hashStepLoop n ctx inp accum = Ok accum' /\ Ranges.accumInRange accum'.
Proof.
  induction n as [|n IH]; intros inp accum Hk [Hl Hacc] H.
  - exists accum. split; [reflexivity | split; assumption].
  - cbn [hashStepLoop].
    edestruct (nhChunks_total ctx Hnh (chunkOffsets hs1NHLen)) as (r & -> & Hr).
    { apply chunkOffsets_small. unfold hs1NHLen. lia. }
    { rewrite chunkOffsets_length. unfold hs1NHLen. cbn. lia. }
    cbn [bind]. apply IH; [exact Hk | |].
    + split; [now rewrite polyRounds_length | now apply polyRounds_in_range].
    + rewrite length_skipn, chunkOffsets_length. unfold hs1NHLen. cbn. lia.
Qed.

(** X3. The accumulator stays in the range in which [polyStep] does not
    wrap: with well-sized keys and 60-bit polynomial keys, [hashStep] on
    whole blocks and [hashFinalize] on a valid tail take six lanes below
    [5 * 2^61] to six lanes below [5 * 2^61]. *)
Theorem hash_keeps_accumulator_in_range ctx inp accum :
  wfHashCtx ctx -> Forall (fun x => 0 <= x < 2 ^ 60) (polyKey ctx) ->
  Ranges.accumInRange accum ->
  ((length inp mod 64 = 0)%nat ->
   exists accum', hashStep ctx inp accum = Ok accum' /\ Ranges.accumInRange accum') /\
  ((length inp <= 64)%nat -> (length inp mod 16 = 0)%nat ->
   forall res, (24 <= length res)%nat ->
   exists accum' res',
     hashFinalize ctx inp accum res = Ok (accum', res') /\ Ranges.accumInRange accum').
Proof.
  intros Hwf Hk Hacc. pose proof (proj1 Hwf) as Hnh. split.
  - intros H. unfold hashStep, hs1NHLen. apply hashStepLoop_in_range; auto. lia.
  - intros H64 H16 res Hres. unfold hashFinalize.
    destruct (0 <? length inp)%nat eqn:E.
    + edestruct (nhChunks_total ctx Hnh (chunkOffsets (length inp)) inp
                   (repeat 0 hs1HashRounds)) as (r & -> & _).
      { now apply chunkOffsets_small. }
      { rewrite chunkOffsets_length. lia. }
      cbn [bind]. rewrite asuRounds_spec by (apply Hwf || assumption). cbn [bind].
      do 2 eexists. split; [reflexivity|].
      destruct Hacc as [Hl Ha].
      split; [now rewrite polyRounds_length | now apply polyRounds_in_range].
    + cbn [bind]. rewrite asuRounds_spec by (apply Hwf || assumption). cbn [bind].
      do 2 eexists. split; [reflexivity | exact Hacc].
Qed.

Lemma KAT_hashKeys_ranges : Forall (fun x => 0 <= x < 2 ^ 60) (polyKey KAT.hashKeys).
Proof.
  unfold KAT.hashKeys.
  destruct (setup_ok KAT.k eq_refl) as (ctx & E & _).
  revert E. unfold setup.
  rewrite chacha20_spec by reflexivity. cbn [bind].
  set (buf := copy _ _). clearbody buf.
  destruct (readUint32s nhKeyLen buf chacha20KeySize) as [nk off1].
  destruct (readUint64s hs1HashRounds buf off1) as [pk off2].
  destruct (readUint64s (hs1HashRounds * 3) buf off2) as [ak off3].
  intros E. apply Ok_inj in E. subst ctx. cbn [hashCtx polyKey].
  apply Forall_map, Forall_forall. intros x _. apply land_m60_range.
Qed.

Lemma hash_keeps_accumulator_in_range_witness :
  exists accum',
    hashStep KAT.hashKeys (KAT.w 128) (repeat 1 6) = Ok accum' /\
    Ranges.accumInRange accum'.
Proof.
  apply (hash_keeps_accumulator_in_range KAT.hashKeys (KAT.w 128) (repeat 1 6)).
  - exact KAT_hashKeys_wf.
  - exact KAT_hashKeys_ranges.
  - split; [reflexivity|]. cbn [repeat]. forall_lia.
  - reflexivity.
Defined.

Lemma readUint32s_Forall (P : Z -> Prop) (HP : forall b, P (Uint32 b)) n buf :
  forall off, Forall P (fst (readUint32s n buf off)).
Proof.
  induction n as [|n IH]; intros off; cbn [readUint32s]; [constructor|].
  specialize (IH (off + 4)%nat).
  destruct (readUint32s n buf (off + 4)) as [vs off']. cbn [fst] in *.
  constructor; [apply HP | exact IH].
Qed.

Lemma readUint64s_Forall (P : Z -> Prop) (HP : forall b, P (Uint64 b)) n buf :
  forall off, Forall P (fst (readUint64s n buf off)).
Proof.
  induction n as [|n IH]; intros off; cbn [readUint64s]; [constructor|].
  specialize (IH (off + 8)%nat).
  destruct (readUint64s n buf (off + 8)) as [vs off']. cbn [fst] in *.
  constructor; [apply HP | exact IH].
Qed.

Lemma Uint32_range b : 0 <= Uint32 b < 2 ^ 32.
Proof.
  unfold Uint32. pose proof (le_combine_bound (firstn 4 b)) as H.
  rewrite length_firstn in H.
  assert (2 ^ (8 * Z.of_nat (Nat.min 4 (length b))) <= 2 ^ 32)
    by (apply Z.pow_le_mono_r; lia).
  lia.
Qed.

Lemma Uint64_range b : 0 <= Uint64 b < 2 ^ 64.
Proof.
  unfold Uint64. pose proof (le_combine_bound (firstn 8 b)) as H.
  rewrite length_firstn in H.
  assert (2 ^ (8 * Z.of_nat (Nat.min 8 (length b))) <= 2 ^ 64)
    by (apply Z.pow_le_mono_r; lia).
  lia.
Qed.

(** X4. The key schedule: on a 32-byte key [setup] returns a context
    with a 32-byte cipher key, 36 NH words of 32 bits, 6 polynomial keys
    of 60 bits and 18 ASU words of 64 bits, an accumulator of six zero
    lanes and a zero length block. *)
Theorem setup_key_schedule userKey :
  length userKey = 32%nat ->
  exists ctx,
    setup userKey = Ok ctx /\
    length (chachaKey ctx) = 32%nat /\
    wfHashCtx (hashCtx ctx) /\
    Ranges.keysInRange (hashCtx ctx) /\
    sivAccum ctx = repeat 0 6 /\ sivLenBuf ctx = zeros 16.
Proof.
  intros Hk. unfold setup.
  rewrite chacha20_spec; [|assumption|].
  2:{ cbn [length]. rewrite length_skipn, copy_length, length_zeros. reflexivity. }
  cbn [bind].
  set (buf := copy _ _). clearbody buf.
  pose proof (readUint32s_length nhKeyLen buf chacha20KeySize) as H1.
  pose proof (readUint32s_Forall (fun x => 0 <= x < 2 ^ 32) Uint32_range
                nhKeyLen buf chacha20KeySize) as R1.
  destruct (readUint32s nhKeyLen buf chacha20KeySize) as [nk off1].
  pose proof (readUint64s_length hs1HashRounds buf off1) as H2.
  destruct (readUint64s hs1HashRounds buf off1) as [pk off2].
  pose proof (readUint64s_length (hs1HashRounds * 3) buf off2) as H3.
  pose proof (readUint64s_Forall (fun x => 0 <= x < 2 ^ 64) Uint64_range
                (hs1HashRounds * 3) buf off2) as R3.
  destruct (readUint64s (hs1HashRounds * 3) buf off2) as [ak off3].
  cbn [fst] in *.
  eexists; split; [reflexivity|].
  unfold wfHashCtx, Ranges.keysInRange.
  cbn [chachaKey hashCtx nhKey polyKey asuKey sivAccum sivLenBuf].
  split; [rewrite copy_length, length_zeros; reflexivity|].
  split; [split; [exact H1 | split; [rewrite length_map; exact H2 | exact H3]]|].
  split; [|split; reflexivity].
  split; [exact R1 | split; [|exact R3]].
  apply Forall_map, Forall_forall. intros x _. apply land_m60_range.
Qed.

Lemma setup_key_schedule_witness :
  exists ctx,
    setup KAT.k = Ok ctx /\
    length (chachaKey ctx) = 32%nat /\
    wfHashCtx (hashCtx ctx) /\
    Ranges.keysInRange (hashCtx ctx) /\
    sivAccum ctx = repeat 0 6 /\ sivLenBuf ctx = zeros 16.
Proof. apply (setup_key_schedule KAT.k). reflexivity. Defined.

(** ** The stream cipher *)

(** X5. [chacha20] is its own inverse: with the same key, nonce and
    counter and buffers of the length of the input, applying it to its
    output gives the input back. *)
Theorem chacha20_involutive key nonce ctr x out1 out2 :
  length key = 32%nat -> length nonce = 12%nat ->
  length out1 = length x -> length out2 = length x ->
  exists y,
    chacha20 key nonce x out1 ctr = Ok y /\
    length y = length x /\
    chacha20 key nonce y out2 ctr = Ok x.
Proof.
  intros Hk Hn H1 H2.
  rewrite (chacha20_same_length key nonce x out1 ctr) by auto.
  set (y := xorBytes x (keystream key nonce ctr (length x))).
  assert (Ly : length y = length x).
  { unfold y. rewrite xorBytes_length, keystream_length. lia. }
  exists y. split; [reflexivity|]. split; [exact Ly|].
  rewrite (chacha20_same_length key nonce y out2 ctr) by (auto; lia).
  f_equal. rewrite Ly. unfold y. apply xorBytes_involutive.
  rewrite keystream_length. lia.
Qed.

Lemma chacha20_involutive_witness :
  exists y,
    chacha20 KAT.k KAT.n (KAT.w 100) (zeros 100) 7 = Ok y /\
    length y = length (KAT.w 100) /\
    chacha20 KAT.k KAT.n y (zeros 100) 7 = Ok (KAT.w 100).
Proof.
  apply (chacha20_involutive KAT.k KAT.n 7 (KAT.w 100) (zeros 100) (zeros 100));
    reflexivity.
Defined.

(** X6. [chacha20] panics exactly on a wrong key or nonce size: with a
    key that is not 32 bytes long it panics on the key, whatever the
    nonce; with a 32-byte key and a nonce that is not 12 bytes long it
    panics on the nonce; otherwise it returns, for all inputs and
    outputs, and the output keeps its length. *)
Theorem chacha20_panics_on_sizes key nonce inp out ctr :
  (length key <> 32%nat ->
   chacha20 key nonce inp out ctr = Panic InvalidChachaKeySize) /\
  (length key = 32%nat -> length nonce <> 12%nat ->
   chacha20 key nonce inp out ctr = Panic InvalidChachaNonceSize) /\
  (length key = 32%nat -> length nonce = 12%nat ->
   exists out', chacha20 key nonce inp out ctr = Ok out' /\ length out' = length out).
Proof.
  split; [|split].
  - intros H. unfold chacha20, chachaKeySize.
    apply Nat.eqb_neq in H. now rewrite H.
  - intros Hk H. unfold chacha20, chachaKeySize, chachaNonceSize.
    apply Nat.eqb_neq in H. now rewrite Hk, H.
  - intros Hk Hn. rewrite chacha20_spec by assumption.
    eexists. split; [reflexivity | apply copy_length].
Qed.

(** X7. An output shorter than the input: [chacha20] processes the
    first [len(out)] bytes of the input and ignores the rest; with an
    empty input it leaves the output as it is. *)
Theorem chacha20_short_output key nonce inp out ctr :
  length key = 32%nat -> length nonce = 12%nat ->
  ((length out <= length inp)%nat ->
   chacha20 key nonce inp out ctr
   = Ok (xorBytes (firstn (length out) inp) (keystream key nonce ctr (length out)))) /\
  (inp = [] -> chacha20 key nonce inp out ctr = Ok out).
Proof.
  intros Hk Hn. split.
  - intros Hl.
    pose proof (chacha20_same_length key nonce (firstn (length out) inp) out ctr Hk Hn) as E.
    rewrite length_firstn, Nat.min_l in E by lia. specialize (E eq_refl).
    rewrite <- E. rewrite !chacha20_spec by assumption.
    now rewrite firstn_firstn, Nat.min_id.
  - intros ->. unfold chacha20, chachaKeySize, chachaNonceSize.
    now rewrite Hk, Hn.
Qed.

Lemma chacha20_short_output_witness :
  chacha20 KAT.k KAT.n (KAT.w 100) (zeros 70) 1
  = Ok (xorBytes (firstn 70 (KAT.w 100)) (keystream KAT.k KAT.n 1 70)).
Proof.
  apply (chacha20_short_output KAT.k KAT.n (KAT.w 100) (zeros 70) 1);
    [reflexivity | reflexivity | cbn; lia].
Defined.

Lemma nextBlock_initState key nonce ctr :
  nextBlock (initState key nonce ctr) = initState key nonce (uint32 (ctr + 1)).
Proof. reflexivity. Qed.

Lemma iter_nextBlock_initState key nonce ctr n :
  0 <= ctr < 2 ^ 32 ->
  Nat.iter n nextBlock (initState key nonce ctr)
  = initState key nonce (uint32 (ctr + Z.of_nat n)).
Proof.
  intros Hc. induction n as [|n IH].
  - cbn [Nat.iter nat_rect]. f_equal. unfold uint32. rewrite Z.add_0_r.
    now rewrite Z.mod_small.
  - change (Nat.iter (S n) nextBlock (initState key nonce ctr))
      with (nextBlock (Nat.iter n nextBlock (initState key nonce ctr))).
    rewrite IH, nextBlock_initState. f_equal. unfold uint32. lia.
Qed.

Lemma keystream_split key nonce ctr n m :
  0 <= ctr < 2 ^ 32 ->
  keystream key nonce ctr (64 * n + m)
  = keystream key nonce ctr (64 * n)
    ++ keystream key nonce (uint32 (ctr + Z.of_nat n)) m.
Proof.
  intros Hc. unfold keystream.
  replace (blocksFor (64 * n + m)) with (n + blocksFor m)%nat by (unfold blocksFor; lia).
  replace (blocksFor (64 * n)) with n by (unfold blocksFor; lia).
  rewrite keystreamBlocks_add, iter_nextBlock_initState by assumption.
  rewrite firstn_app, keystreamBlocks_length.
  rewrite (firstn_all2 (n := 64 * n + m)) by (rewrite keystreamBlocks_length; lia).
  rewrite (firstn_all2 (n := 64 * n)) by (rewrite keystreamBlocks_length; lia).
  do 2 f_equal. lia.
Qed.

(** X8. The block counter continues across calls: encrypting [x ++ y],
    with [x] of [n] whole blocks, from counter [ctr] is encrypting [x]
    from [ctr] and [y] from [ctr + n], the counter being taken modulo
    [2^32]. *)
Theorem chacha20_counter_continues key nonce ctr n x y :
  length key = 32%nat -> length nonce = 12%nat ->
  0 <= ctr < 2 ^ 32 -> length x = (64 * n)%nat ->
  exists ox oy,
    chacha20 key nonce x (zeros (length x)) ctr = Ok ox /\
    chacha20 key nonce y (zeros (length y)) (uint32 (ctr + Z.of_nat n)) = Ok oy /\
    chacha20 key nonce (x ++ y) (zeros (length (x ++ y))) ctr = Ok (ox ++ oy).
Proof.
  intros Hk Hn Hc Hx.
  rewrite !chacha20_same_length by (auto; now rewrite length_zeros).
  do 2 eexists. split; [reflexivity|]. split; [reflexivity|].
  f_equal. rewrite length_app, Hx, keystream_split by assumption.
  apply xorBytes_app. now rewrite keystream_length.
Qed.

Lemma chacha20_counter_continues_witness :
  exists ox oy,
    chacha20 KAT.k KAT.n (KAT.w 128) (zeros 128) (2 ^ 32 - 1) = Ok ox /\
    chacha20 KAT.k KAT.n (KAT.h 5) (zeros 5) 1 = Ok oy /\
    chacha20 KAT.k KAT.n (KAT.w 128 ++ KAT.h 5) (zeros 133) (2 ^ 32 - 1) = Ok (ox ++ oy).
Proof.
  apply (chacha20_counter_continues KAT.k KAT.n (2 ^ 32 - 1) 2 (KAT.w 128) (KAT.h 5));
    [reflexivity | reflexivity | lia | reflexivity].
Defined.

(** ** The hash, block by block *)

Lemma index_app_l {A} (x y : list A) i :
  (i < length x)%nat -> index (x ++ y) i = index x i.
Proof. intros H. unfold index. now rewrite nth_error_app1. Qed.

Lemma Uint32_skipn_app x y k :
  (k + 4 <= length x)%nat -> Uint32 (skipn k (x ++ y)) = Uint32 (skipn k x).
Proof.
  intros H. unfold Uint32.
  rewrite skipn_app, firstn_app.
  replace (4 - length (skipn k x))%nat with 0%nat by (rewrite length_skipn; lia).
  now rewrite firstn_O, app_nil_r.
Qed.

(** The NH loop reads only the chunks it is asked to read. *)
Lemma nhChunks_app ctx y offs : forall x nhRes,
  (16 * length offs <= length x)%nat ->
  nhChunks offs ctx (x ++ y) nhRes
  = '(r, rest) <-- nhChunks offs ctx x nhRes ;; Ok (r, rest ++ y).
Proof.
  induction offs as [|i offs IH]; intros x nhRes H.
  - reflexivity.
  - cbn [length] in H. cbn [nhChunks].
    rewrite index_app_l by lia.
    destruct (index x 15) as [b|p]; [|reflexivity]. cbn [bind].
    rewrite !Uint32_skipn_app by lia.
    destruct (nhRounds lanePairs ctx i _ _ _ _ nhRes) as [r|p]; [|reflexivity].
    cbn [bind].
    rewrite skipn_app.
    replace (16 - length x)%nat with 0%nat by lia. rewrite skipn_O.
    apply IH. rewrite length_skipn. lia.
Qed.

Lemma nhChunks_rest ctx offs : forall x nhRes r rest,
  nhChunks offs ctx x nhRes = Ok (r, rest) -> rest = skipn (16 * length offs) x.
Proof.
  induction offs as [|i offs IH]; intros x nhRes r rest H.
  - cbn in H. apply Ok_inj, pair_equal_spec in H as [_ <-]. reflexivity.
  - cbn [nhChunks] in H.
    destruct (index x 15) as [b|p]; [|discriminate]. cbn [bind] in H.
    destruct (nhRounds lanePairs ctx i _ _ _ _ nhRes) as [r'|p]; [|discriminate].
    cbn [bind] in H. apply IH in H. rewrite H, skipn_skipn. f_equal. cbn [length]. lia.
Qed.

Lemma hashStepLoop_app ctx y m n : forall x accum,
  length x = (64 * n)%nat ->
  hashStepLoop (n + m) ctx (x ++ y) accum
  = a <-- hashStepLoop n ctx x accum ;; hashStepLoop m ctx y a.
Proof.
  induction n as [|n IH]; intros x accum H.
  - apply length_zero_iff_nil in H. now subst x.
  - cbn [Nat.add hashStepLoop].
    rewrite nhChunks_app by (rewrite chunkOffsets_length; unfold hs1NHLen; cbn; lia).
    destruct (nhChunks (chunkOffsets hs1NHLen) ctx x (repeat 0 hs1HashRounds))
      as [[r rest]|p] eqn:E; [|reflexivity].
    cbn [bind]. apply nhChunks_rest in E.
    apply IH. rewrite E, length_skipn, chunkOffsets_length. unfold hs1NHLen. cbn. lia.
Qed.

Lemma hashStep_append ctx x y accum :
  (length x mod 64 = 0)%nat ->
  hashStep ctx (x ++ y) accum
  = a <-- hashStep ctx x accum ;; hashStep ctx y a.
Proof.
  intros H. unfold hashStep, hs1NHLen.
  replace ((length (x ++ y) + (64 - 1)) / 64)%nat
    with (length x / 64 + (length y + (64 - 1)) / 64)%nat
    by (rewrite length_app; lia).
  replace ((length x + (64 - 1)) / 64)%nat with (length x / 64)%nat by lia.
  apply hashStepLoop_app. lia.
Qed.

(** X9. Hashing block by block: when [x] is whole 64-byte blocks,
    [hashStep] on [x ++ y] is [hashStep] on [x] followed by [hashStep] on
    [y] from the accumulator the first call left, panics included. *)
Theorem hashStep_app ctx x y accum :
  (length x mod 64 = 0)%nat ->
  hashStep ctx (x ++ y) accum
  = a <-- hashStep ctx x accum ;; hashStep ctx y a.
Proof. exact (hashStep_append ctx x y accum). Qed.

Lemma hashStep_app_witness :
  hashStep KAT.hashKeys (KAT.w 128 ++ KAT.h 64) (repeat 1 6)
  = a <-- hashStep KAT.hashKeys (KAT.w 128) (repeat 1 6) ;;
    hashStep KAT.hashKeys (KAT.h 64) a.
Proof.
  apply (hashStep_app KAT.hashKeys (KAT.w 128) (KAT.h 64) (repeat 1 6)). reflexivity.
Defined.

(** X10. A tail of exactly one block: [hashFinalize] on 64 bytes is
    [hashStep] on them followed by [hashFinalize] on the empty tail. *)
Theorem hashFinalize_full_block ctx x accum res :
  length x = 64%nat ->
  hashFinalize ctx x accum res
  = a <-- hashStep ctx x accum ;; hashFinalize ctx [] a res.
Proof.
  intros H. unfold hashFinalize, hashStep, hs1NHLen. rewrite H.
  change ((64 + (64 - 1)) / 64)%nat with 1%nat.
  change (0 <? 64)%nat with true. change (0 <? length (@nil byte))%nat with false.
  cbn [hashStepLoop]. change (chunkOffsets hs1NHLen) with (chunkOffsets 64).
  destruct (nhChunks (chunkOffsets 64) ctx x (repeat 0 hs1HashRounds))
    as [[r rest]|p]; reflexivity.
Qed.

Lemma hashFinalize_full_block_witness :
  hashFinalize KAT.hashKeys (KAT.w 64) (repeat 1 6) (zeros 32)
  = a <-- hashStep KAT.hashKeys (KAT.w 64) (repeat 1 6) ;;
    hashFinalize KAT.hashKeys [] a (zeros 32).
Proof.
  apply (hashFinalize_full_block KAT.hashKeys (KAT.w 64) (repeat 1 6) (zeros 32)).
  reflexivity.
Defined.

(** ** What the SIV hash hashes *)

Lemma value_tbind {A B} (m : traced A) (k : A -> traced B) :
  value (tbind m k) = x <-- value m ;; value (k x).
Proof.
  destruct m as [t [a|p]]; cbn [tbind value snd bind]; [|reflexivity].
  now destruct (k a).
Qed.

Lemma bind_assoc {A B C} (m : result A) (f : A -> result B) (g : B -> result C) :
  (y <-- (x <-- m ;; f x) ;; g y) = (x <-- m ;; y <-- f x ;; g y).
Proof. now destruct m. Qed.

Lemma bind_ext {A B} (m : result A) (f g : A -> result B) :
  (forall x, f x = g x) -> (x <-- m ;; f x) = (x <-- m ;; g x).
Proof. intros H. destruct m; cbn [bind]; auto. Qed.

Lemma padTo_64_length x : (length (padTo 64 x) mod 64 = 0)%nat.
Proof. unfold padTo. rewrite length_app, length_zeros. lia. Qed.

(** [sivHashAD] leaves the accumulator of [hashStep] on the padded
    associated data. *)
Lemma sivHashAD_value ctx a :
  value (sivHashAD ctx a)
  = acc <-- hashStep (hashCtx ctx) (padTo 64 a) (sivAccum ctx) ;; Ok (withAccum ctx acc).
Proof.
  unfold sivHashAD, callHashStep. rewrite nhMultipleOf_eq.
  set (nhm := (64 * (length a / 64))%nat).
  assert (Hle : (nhm <= length a)%nat) by (unfold nhm; lia).
  rewrite value_tbind. cbn [value snd].
  destruct (nhm <? length a)%nat eqn:Hlt.
  - apply Nat.ltb_lt in Hlt.
    assert (Hpad : padTo 64 a = firstn nhm a ++ copy (zeros hs1NHLen) (skipn nhm a)).
    { unfold hs1NHLen. rewrite copy_zeros_pad by (rewrite length_skipn; unfold nhm; lia).
      rewrite app_assoc, firstn_skipn. unfold padTo. do 2 f_equal.
      rewrite length_skipn. unfold nhm in *. lia. }
    rewrite Hpad, hashStep_append by (rewrite length_firstn; unfold nhm; lia).
    rewrite bind_assoc. apply bind_ext. intros acc.
    rewrite value_tbind. reflexivity.
  - apply Nat.ltb_ge in Hlt.
    rewrite (firstn_all2 (n := nhm) a) by lia.
    rewrite padTo_exact by (unfold nhm in *; lia). reflexivity.
Qed.

(** [sivHashMessage] hashes the message padded to 16-byte chunks: its
    whole blocks by [hashStep], what is left, with the length block
    after it, by [hashFinalize]. *)
Lemma sivHashMessage_value ctx m :
  length (sivLenBuf ctx) = 16%nat ->
  let padded := padTo 16 m in
  let whole := (64 * (length padded / 64))%nat in
  value (sivHashMessage ctx m)
  = acc <-- hashStep (hashCtx ctx) (firstn whole padded) (sivAccum ctx) ;;
    hashFinalize (hashCtx ctx) (skipn whole padded ++ sivLenBuf ctx) acc
                 (zeros chacha20KeySize).
Proof.
  intros Hlb. cbv zeta.
  unfold sivHashMessage, callHashStep, callHashFinalize.
  rewrite nhMultipleOf_eq, padded16_eq.
  set (nhm := (64 * (length m / 64))%nat).
  assert (Hle : (nhm <= length m)%nat) by (unfold nhm; lia).
  set (r := (length m - nhm)%nat).
  assert (Hr : (r < 64)%nat) by (unfold r, nhm; lia).
  assert (Htail : length (skipn nhm m) = r) by (rewrite length_skipn; reflexivity).
  set (p := (16 * ((r + 15) / 16))%nat).
  assert (Hrp : (r <= p)%nat) by (unfold p; lia).
  assert (Hpadded : padTo 16 m = m ++ zeros (p - r)).
  { unfold padTo. do 2 f_equal. unfold p, r, nhm in *. lia. }
  rewrite Hpadded.
  assert (Lpadded : length (m ++ zeros (p - r)) = (nhm + p)%nat).
  { rewrite length_app, length_zeros. unfold r in *. lia. }
  rewrite Lpadded.
  set (buf0 := copy (zeros hs1NHLen) (skipn nhm m)).
  assert (Hbuf0 : buf0 = skipn nhm m ++ zeros (64 - r)).
  { unfold buf0, hs1NHLen. rewrite copy_zeros_pad by lia. now rewrite Htail. }
  assert (Hbuf0l : length buf0 = 64%nat)
    by (unfold buf0; rewrite copy_length, length_zeros; reflexivity).
  rewrite value_tbind. cbn [value snd].
  destruct (p =? hs1NHLen)%nat eqn:Hp.
  - apply Nat.eqb_eq in Hp. unfold hs1NHLen in Hp.
    replace (64 * ((nhm + p) / 64))%nat with (nhm + p)%nat by (unfold nhm in *; lia).
    rewrite <- Lpadded, firstn_all, skipn_all, app_nil_l.
    rewrite Hp.
    assert (Hsplit : m ++ zeros (64 - r) = firstn nhm m ++ buf0)
      by (rewrite Hbuf0, app_assoc, firstn_skipn; reflexivity).
    rewrite Hsplit.
    rewrite hashStep_append by (rewrite length_firstn; unfold nhm; lia).
    rewrite bind_assoc. apply bind_ext. intros acc.
    rewrite value_tbind. reflexivity.
  - apply Nat.eqb_neq in Hp. unfold hs1NHLen in Hp.
    assert (Hp48 : (p <= 48)%nat) by (unfold p in *; lia).
    replace (64 * ((nhm + p) / 64))%nat with nhm by (unfold nhm in *; lia).
    rewrite (firstn_app nhm m).
    replace (nhm - length m)%nat with 0%nat by lia.
    rewrite firstn_O, app_nil_r.
    apply bind_ext. intros acc. cbn [value snd].
    f_equal.
    rewrite copy_short by (rewrite length_skipn, Hbuf0l, Hlb; lia).
    rewrite firstn_app, length_firstn, Hbuf0l.
    rewrite Nat.min_l by lia.
    rewrite (firstn_all2 (n := p + 16) (firstn p buf0)) by (rewrite length_firstn; lia).
    replace (p + 16 - p)%nat with 16%nat by lia.
    rewrite firstn_app, Hlb, Nat.sub_diag, firstn_O, app_nil_r.
    rewrite (firstn_all2 (n := 16) (sivLenBuf ctx)) by lia.
    f_equal.
    rewrite Hbuf0, firstn_app, Htail, (firstn_all2 (n := p) (skipn nhm m)) by lia.
    unfold zeros at 1. rewrite firstn_repeat_min.
    rewrite skipn_app. replace (nhm - length m)%nat with 0%nat by lia.
    rewrite skipn_O. f_equal. unfold zeros. f_equal. lia.
Qed.

(** [sivKey] as two calls of the hash. *)
Lemma sivKey_eq ctx a m :
  let padded := padTo 16 m in
  let whole := (64 * (length padded / 64))%nat in
  sivKey ctx a m
  = acc <-- hashStep (hashCtx ctx) (padTo 64 a ++ firstn whole padded)
                     (repeat 1 hs1HashRounds) ;;
    '(_, h) <-- hashFinalize (hashCtx ctx)
                  (skipn whole padded ++ lenBlock (length a) (length m)) acc
                  (zeros chacha20KeySize) ;;
    Ok (xorCopyChaChaKey h (chachaKey ctx)).
Proof.
  cbv zeta. unfold sivKey.
  rewrite value_tbind, sivHashAD_value.
  rewrite hashStep_append by apply padTo_64_length.
  cbn [sivSetup hashCtx sivAccum].
  rewrite !bind_assoc. apply bind_ext. intros acc. cbn [bind].
  rewrite value_tbind.
  rewrite (sivHashMessage_value (withAccum (sivSetup ctx (length a) (length m)) acc) m)
    by apply lenBlock_length.
  cbn [withAccum sivSetup hashCtx sivAccum sivLenBuf].
  rewrite bind_assoc. apply bind_ext. intros acc2.
  fold (lenBlock (length a) (length m)).
  destruct (hashFinalize _ _ _ _) as [[acc3 h]|p]; reflexivity.
Qed.

(** X11. What the SIV key is a hash of: the associated data padded to
    64-byte blocks, then the message padded to 16-byte chunks, then the
    length block.  The whole blocks of the first two go through
    [hashStep] from the accumulator of ones, the chunks left of the
    message together with the length block through [hashFinalize], and
    the 24 bytes of digest are folded over the cipher sub-key. *)
Theorem sivKey_hashes_padded_input ctx a m :
  let padded := padTo 16 m in
  let whole := (64 * (length padded / 64))%nat in
  sivKey ctx a m
  = acc <-- hashStep (hashCtx ctx) (padTo 64 a ++ firstn whole padded)
                     (repeat 1 hs1HashRounds) ;;
    '(_, h) <-- hashFinalize (hashCtx ctx)
                  (skipn whole padded ++ lenBlock (length a) (length m)) acc
                  (zeros chacha20KeySize) ;;
    Ok (xorCopyChaChaKey h (chachaKey ctx)).
Proof. apply sivKey_eq. Qed.

(** ** Seal and Open, for every destination *)

(** What was sealed opens: the candidate plaintext of sealed bytes is
    the plaintext, and the recomputed SIV is the tag. *)
Lemma candidate_of_sealed userKey nonce P A out :
  sealedBytes userKey nonce P A = Ok out ->
  candidate userKey nonce out A = Ok (P, tagOf out) /\
  length out = (length P + 32)%nat.
Proof.
  intros Eout. unfold sealedBytes in Eout. unfold candidate.
  destruct (setup userKey) as [ctx|]; [|discriminate]. cbn [bind] in *.
  destruct (sivKey ctx A P) as [dk|] eqn:Edk; [|discriminate]. cbn [bind] in *.
  destruct (messageKey ctx (xorBytes (zeros 32) (keystream dk nonce 0 32)))
    as [fk|] eqn:Efk; [|discriminate].
  cbn [bind] in Eout. apply Ok_inj in Eout. subst out.
  set (sv := xorBytes (zeros 32) (keystream dk nonce 0 32)) in *.
  set (body := xorBytes P (keystream fk nonce 1 (length P))) in *.
  assert (Lsv : length sv = 32%nat) by apply sivBytes_length.
  assert (Lbody : length body = length P).
  { unfold body. rewrite xorBytes_length, keystream_length. lia. }
  assert (Htag : tagOf (body ++ sv) = sv).
  { unfold tagOf. rewrite length_app, Lsv, Nat.add_sub.
    rewrite skipn_app, Lbody, Nat.sub_diag, skipn_O, skipn_all2 by lia. reflexivity. }
  assert (Hbody : bodyOf (body ++ sv) = body).
  { unfold bodyOf. rewrite length_app, Lsv, Nat.add_sub.
    rewrite firstn_app, Lbody, Nat.sub_diag, firstn_O, app_nil_r.
    apply firstn_all2. lia. }
  rewrite Htag, Hbody, Efk. cbn [bind].
  rewrite length_app, Lsv, Nat.add_sub, Lbody.
  assert (Hpt : xorBytes body (keystream fk nonce 1 (length P)) = P).
  { unfold body. apply xorBytes_involutive. rewrite keystream_length. lia. }
  rewrite Hpt, Edk. cbn [bind]. fold sv. split; [reflexivity | lia].
Qed.

Lemma ConstantTimeCompare_eq x y : (ConstantTimeCompare x y =? 1) = true <-> x = y.
Proof.
  unfold ConstantTimeCompare.
  destruct (list_eq_dec Byte.byte_eq_dec x y) as [E | N]; split; intros H;
    auto; try discriminate; now elim N.
Qed.

(** X12. The round trip for every pair of destinations: Seal appends
    [len(P) + Overhead()] bytes to [dst1]; Open on those bytes appends
    exactly [P] to [dst2] and returns no error. *)
Theorem Seal_Open_roundtrip_any_dst userKey ae dst1 dst2 nonce P A :
  New userKey = Ok ae -> length nonce = Methods.NonceSizeOf ae ->
  exists sealed out opened,
    value (Seal ae dst1 nonce P A) = Ok sealed /\
    data sealed = data dst1 ++ out /\
    length out = (length P + Methods.Overhead ae)%nat /\
    value (Open ae dst2 nonce out A) = Ok opened /\
    err opened = None /\
    data (ret opened) = data dst2 ++ P /\
    outMem opened = P.
Proof.
  intros HN Hn. apply New_ok in HN as [Hkey Hk]. rewrite <- Hkey in Hk.
  unfold Methods.NonceSizeOf, NonceSize in Hn. unfold Methods.Overhead, TagSize.
  destruct (Seal_run ae dst1 nonce P A Hk Hn)
    as (t & siv & out & sp & ES & Eout & Lout & _ & _).
  destruct (candidate_of_sealed _ _ _ _ _ Eout) as [EC _].
  destruct (Open_run ae dst2 nonce out A Hk Hn ltac:(lia))
    as (t' & pt & siv' & sp' & EC' & Lpt & _ & EO).
  rewrite EC in EC'. apply Ok_inj, pair_equal_spec in EC' as [<- <-].
  rewrite ConstantTimeCompare_refl in EO. cbn [Z.eqb Pos.eqb] in EO.
  exists (mkSlice (data dst1 ++ out) sp), out. eexists.
  split; [unfold value; now rewrite ES|]. split; [reflexivity|]. split; [exact Lout|].
  split; [unfold value; rewrite EO; reflexivity|].
  cbn [err ret outMem data]. repeat split.
Qed.

Lemma Seal_Open_roundtrip_any_dst_witness :
  exists sealed out opened,
    value (Seal KAT.aead (mkSlice (KAT.h 2) (zeros 40)) KAT.n (KAT.w 3) (KAT.h 3)) = Ok sealed /\
    data sealed = KAT.h 2 ++ out /\
    length out = (3 + Methods.Overhead KAT.aead)%nat /\
    value (Open KAT.aead (mkSlice (KAT.h 1) []) KAT.n out (KAT.h 3)) = Ok opened /\
    err opened = None /\
    data (ret opened) = KAT.h 1 ++ KAT.w 3 /\
    outMem opened = KAT.w 3.
Proof.
  apply (Seal_Open_roundtrip_any_dst KAT.k KAT.aead (mkSlice (KAT.h 2) (zeros 40))
           (mkSlice (KAT.h 1) []) KAT.n (KAT.w 3) (KAT.h 3)); reflexivity.
Defined.

(** X13. When Open accepts: on a ciphertext of at least 32 bytes Open
    returns no error exactly when the SIV recomputed over the associated
    data and the candidate plaintext equals the tag; it then appends the
    candidate plaintext to [dst]; the only error it returns is
    [ErrOpen]. *)
Theorem Open_accepts_iff_siv_matches userKey ae dst nonce c A :
  New userKey = Ok ae -> length nonce = 12%nat -> (32 <= length c)%nat ->
  exists pt siv o,
    candidate userKey nonce c A = Ok (pt, siv) /\
    value (Open ae dst nonce c A) = Ok o /\
    (err o = None <-> siv = tagOf c) /\
    (err o = None -> data (ret o) = data dst ++ pt /\ outMem o = pt) /\
    (err o <> None -> err o = Some ErrOpen).
Proof.
  intros HN Hn Hc. apply New_ok in HN as [Hkey Hk]. rewrite <- Hkey in *.
  destruct (Open_run ae dst nonce c A Hk Hn Hc)
    as (t & pt & siv & sp & EC & Lpt & _ & EO).
  exists pt, siv. eexists. split; [exact EC|].
  split; [unfold value; rewrite EO; reflexivity|].
  destruct (ConstantTimeCompare (tagOf c) siv =? 1) eqn:E.
  - apply ConstantTimeCompare_eq in E. cbn [err ret outMem data].
    repeat split; auto; try congruence.
  - assert (N : siv <> tagOf c).
    { intros ->. now rewrite ConstantTimeCompare_refl in E. }
    destruct (0 <? length pt)%nat; cbn [err ret outMem data];
      repeat split; auto; try congruence; try discriminate.
Qed.

Lemma Open_accepts_iff_siv_matches_witness :
  exists pt siv o,
    candidate KAT.k KAT.n (KAT.sealed 2) (KAT.h 2) = Ok (pt, siv) /\
    value (Open KAT.aead nilSlice KAT.n (KAT.sealed 2) (KAT.h 2)) = Ok o /\
    (err o = None <-> siv = tagOf (KAT.sealed 2)) /\
    (err o = None -> data (ret o) = data nilSlice ++ pt /\ outMem o = pt) /\
    (err o <> None -> err o = Some ErrOpen).
Proof.
  apply (Open_accepts_iff_siv_matches KAT.k KAT.aead nilSlice KAT.n (KAT.sealed 2) (KAT.h 2));
    [reflexivity | reflexivity | vm_compute; lia].
Defined.

(** X14. A nonce of the wrong size: Seal and Open panic with
    [ErrInvalidNonceSize] before anything else is done, whatever the key
    and the other arguments. *)
Theorem wrong_nonce_size_panics ae dst nonce x A :
  length nonce <> Methods.NonceSizeOf ae ->
  Seal ae dst nonce x A = ([], Panic (PanicError ErrInvalidNonceSize)) /\
  Open ae dst nonce x A = ([], Panic (PanicError ErrInvalidNonceSize)).
Proof.
  unfold Methods.NonceSizeOf. intros H. apply Nat.eqb_neq in H.
  unfold Seal, Open. rewrite H. split; reflexivity.
Qed.

Lemma wrong_nonce_size_panics_witness :
  Seal KAT.aead nilSlice (zeros 11) (KAT.w 5) [] = ([], Panic (PanicError ErrInvalidNonceSize)) /\
  Open KAT.aead nilSlice (zeros 11) (KAT.w 5) [] = ([], Panic (PanicError ErrInvalidNonceSize)).
Proof.
  apply (wrong_nonce_size_panics KAT.aead nilSlice (zeros 11) (KAT.w 5) []).
  vm_compute. lia.
Defined.

(** X15. An instance that [New] did not build: with a key that is not
    32 bytes long (the zero [AEAD] has none) Seal and Open, given a
    12-byte nonce, panic in [chacha20] on the key size, during the key
    setup. *)
Theorem wrong_key_size_panics ae dst nonce x A :
  length (key ae) <> 32%nat -> length nonce = 12%nat ->
  Seal ae dst nonce x A = ([], Panic InvalidChachaKeySize) /\
  Open ae dst nonce x A = ([], Panic InvalidChachaKeySize).
Proof.
  intros Hk Hn.
  assert (Es : setup (key ae) = Panic InvalidChachaKeySize).
  { unfold setup, chacha20, chachaKeySize. apply Nat.eqb_neq in Hk. now rewrite Hk. }
  unfold Seal, Open, NonceSize. rewrite Hn, Es. split; reflexivity.
Qed.

Lemma wrong_key_size_panics_witness :
  Seal (mkAEAD []) nilSlice KAT.n (KAT.w 5) [] = ([], Panic InvalidChachaKeySize) /\
  Open (mkAEAD []) nilSlice KAT.n (KAT.w 5) [] = ([], Panic InvalidChachaKeySize).
Proof.
  apply (wrong_key_size_panics (mkAEAD []) nilSlice KAT.n (KAT.w 5) []);
    [vm_compute; lia | reflexivity].
Defined.

(** X16. [New] accepts exactly the keys of 32 bytes: it returns an
    instance holding the bytes of the key, and panics with
    [ErrInvalidKeySize] on every other length. *)
Theorem New_checks_key_size userKey :
  (length userKey = 32%nat -> New userKey = Ok (mkAEAD userKey)) /\
  (length userKey <> 32%nat -> New userKey = Panic (PanicError ErrInvalidKeySize)).
Proof.
  unfold New, KeySize. split; intros H.
  - rewrite H. cbn [Nat.eqb negb]. do 2 f_equal.
    apply copy_exact. now rewrite length_zeros.
  - apply Nat.eqb_neq in H. now rewrite H.
Qed.

(** ** The derived keys *)

Lemma xorCopyChaChaKey_tail h ck :
  length h = 32%nat -> length ck = 32%nat ->
  skipn 24 (xorCopyChaChaKey h ck) = skipn 24 ck.
Proof.
  intros Hh Hc. unfold xorCopyChaChaKey.
  rewrite skipn_app, xorBytes_length, !length_firstn.
  replace (24 - Nat.min (Nat.min 24 (length h)) (Nat.min 24 (length ck)))%nat with 0%nat by lia.
  rewrite skipn_O, skipn_all2, app_nil_l
    by (rewrite xorBytes_length, !length_firstn; lia).
  apply copy_exact. rewrite !length_skipn. lia.
Qed.

Lemma padTo_16_length m : (length (padTo 16 m) mod 16 = 0)%nat.
Proof. unfold padTo. rewrite length_app, length_zeros. lia. Qed.

(** X17. The hash never reaches the last eight bytes of a ChaCha20 key:
    on a context as [setup] leaves it both derived keys, the one of the
    SIV phase and the one of the encryption phase, exist, and their
    bytes 24..31 are those of the cipher sub-key, for every message,
    associated data and SIV. *)
Theorem derived_keys_keep_key_tail ctx a m siv :
  wfCtx ctx -> length siv = 32%nat ->
  exists dk fk,
    sivKey ctx a m = Ok dk /\ messageKey ctx siv = Ok fk /\
    skipn 24 dk = skipn 24 (chachaKey ctx) /\
    skipn 24 fk = skipn 24 (chachaKey ctx).
Proof.
  intros Hwf Hs. pose proof Hwf as [Hck [Hnh Hrest]].
  destruct (messageKey_ok ctx Hwf siv Hs) as (acc & _ & Efk).
  pose proof (sivKey_eq ctx a m) as Edk. cbv zeta in Edk.
  set (padded := padTo 16 m) in *.
  set (whole := (64 * (length padded / 64))%nat) in *.
  assert (Hp16 : (length padded mod 16 = 0)%nat) by apply padTo_16_length.
  destruct (hashStep_total (hashCtx ctx) Hnh (padTo 64 a ++ firstn whole padded)
              (repeat 1 hs1HashRounds)) as (acc1 & E1 & _).
  { rewrite length_app, length_firstn. pose proof (padTo_64_length a).
    unfold whole. lia. }
  rewrite E1 in Edk. cbn [bind] in Edk.
  destruct (hashFinalize_spec (hashCtx ctx) (conj Hnh Hrest)
              (skipn whole padded ++ lenBlock (length a) (length m)) acc1)
    as (acc2 & _ & E2).
  { rewrite length_app, length_skipn, lenBlock_length. unfold whole. lia. }
  { rewrite length_app, length_skipn, lenBlock_length. unfold whole. lia. }
  rewrite (E2 (zeros chacha20KeySize)) in Edk by (rewrite length_zeros; cbv; lia).
  cbn [bind] in Edk.
  do 2 eexists. split; [exact Edk|]. split; [exact Efk|].
  split; apply xorCopyChaChaKey_tail; auto;
    rewrite length_app, digest_length, ?length_skipn, length_zeros; reflexivity.
Qed.

Lemma derived_keys_keep_key_tail_witness :
  let ctx := mkAeadCtx KAT.rfcKey (mkHs1Ctx (repeat 1 36) (repeat 1 6) (repeat 1 18))
                       (repeat 0 6) (zeros 16) in
  exists dk fk,
    sivKey ctx (KAT.h 3) (KAT.w 5) = Ok dk /\ messageKey ctx (zeros 32) = Ok fk /\
    skipn 24 dk = skipn 24 (chachaKey ctx) /\
    skipn 24 fk = skipn 24 (chachaKey ctx).
Proof.
  apply (derived_keys_keep_key_tail
           (mkAeadCtx KAT.rfcKey (mkHs1Ctx (repeat 1 36) (repeat 1 6) (repeat 1 18))
                      (repeat 0 6) (zeros 16))
           (KAT.h 3) (KAT.w 5) (zeros 32));
    [repeat split | reflexivity].
Defined.

(** ** When the hash returns *)

Lemma putUint32At_length res off v r :
  putUint32At res off v = Ok r -> length r = length res.
Proof.
  unfold putUint32At. intros H.
  destruct (Nat.le_gt_cases off (length res)) as [Hle | Hgt].
  - rewrite sliceFrom_ok in H by lia. cbn [bind] in H.
    destruct (Nat.le_gt_cases (length (skipn off res)) 3) as [H3 | H3].
    + rewrite index_panic in H by lia. discriminate.
    + destruct (index_ok (skipn off res) 3 H3) as [y Ey]. rewrite Ey in H.
      cbn [bind] in H. apply Ok_inj in H. subst r.
      rewrite length_skipn in H3.
      rewrite !length_app, length_firstn, length_skipn.
      unfold PutUint32. rewrite length_le_split. lia.
  - rewrite sliceFrom_panic in H by lia. discriminate.
Qed.

(** A result buffer of fewer than 24 bytes is overrun by one of the six
    stores. *)
Lemma asuRounds_short ctx accum res :
  length (asuKey ctx) = 18%nat -> (length res < 24)%nat ->
  exists p, asuRounds lanePairs ctx accum res = Panic p.
Proof.
  intros Hk Hr. unfold lanePairs. cbn [asuRounds].
  rewrite !sliceFrom_ok by lia. cbn [bind].
  rewrite !asuHash_ok by (rewrite length_skipn; lia). cbn [bind].
  repeat match goal with
  | |- context [putUint32At ?r ?o ?v] =>
      lazymatch r with
      | context [putUint32At] => fail
      | _ =>
        let E := fresh "E" in
        destruct (putUint32At r o v) as [?r|?p] eqn:E;
          [pose proof (putUint32At_length _ _ _ _ E); cbn [bind]
          |eexists; reflexivity]
      end
  end.
  all: try (eexists; reflexivity).
  match goal with
  | E : putUint32At ?r ?o ?v = Ok ?x |- exists _, Ok ?x = _ =>
      destruct (putUint32At_short r o v) as [p F]; [lia | congruence]
  end.
Qed.

(** X18. [hashStep] returns exactly on whole 64-byte blocks (it runs off
    the end of any other input), keeps the number of lanes, and leaves
    the accumulator as it is on the empty input. *)
Theorem hashStep_returns_iff_whole_blocks ctx inp accum :
  length (nhKey ctx) = nhKeyLen ->
  ((exists a, hashStep ctx inp accum = Ok a) <-> (length inp mod 64 = 0)%nat) /\
  (forall a, hashStep ctx inp accum = Ok a -> length a = length accum) /\
  hashStep ctx [] accum = Ok accum.
Proof.
  intros Hnh. change nhKeyLen with 36%nat in Hnh.
  split; [split|split].
  - intros [a Ea].
    destruct (Nat.eq_dec (length inp mod 64) 0) as [E | N]; [exact E|].
    destruct (hashStep_fails ctx Hnh inp accum N) as [p Ep]. congruence.
  - intros H. destruct (hashStep_total ctx Hnh inp accum H) as (a & Ea & _). eauto.
  - intros a Ea.
    destruct (Nat.eq_dec (length inp mod 64) 0) as [E | N].
    + destruct (hashStep_total ctx Hnh inp accum E) as (a' & Ea' & L). congruence.
    + destruct (hashStep_fails ctx Hnh inp accum N) as [p Ep]. congruence.
  - reflexivity.
Qed.

Lemma hashStep_returns_iff_whole_blocks_witness :
  ((exists a, hashStep KAT.hashKeys (KAT.w 64) (repeat 1 hs1HashRounds) = Ok a)
   <-> (length (KAT.w 64) mod 64 = 0)%nat) /\
  (forall a, hashStep KAT.hashKeys (KAT.w 64) (repeat 1 hs1HashRounds) = Ok a ->
             length a = length (repeat 1 hs1HashRounds)) /\
  hashStep KAT.hashKeys [] (repeat 1 hs1HashRounds) = Ok (repeat 1 hs1HashRounds).
Proof.
  apply (hashStep_returns_iff_whole_blocks KAT.hashKeys (KAT.w 64) (repeat 1 hs1HashRounds)).
  vm_compute. reflexivity.
Defined.

(** X19. [hashFinalize] returns exactly when its input is at most 64
    bytes in whole 16-byte chunks and the result buffer holds 24 bytes;
    on the empty input it leaves the accumulator as it is and only
    writes its digest. *)
Theorem hashFinalize_returns_iff ctx inp accum res :
  wfHashCtx ctx ->
  ((exists r, hashFinalize ctx inp accum res = Ok r) <->
   (length inp <= 64 /\ length inp mod 16 = 0 /\ 24 <= length res)%nat) /\
  ((24 <= length res)%nat ->
   hashFinalize ctx [] accum res = Ok (accum, digest ctx accum ++ skipn 24 res)).
Proof.
  intros Hwf. pose proof Hwf as (Hnh & Hpk & Hasu).
  change (hs1HashRounds * 3)%nat with 18%nat in Hasu.
  split; [split|].
  - intros [r Er].
    destruct (Nat.le_gt_cases (length inp) 64) as [H64 | H64].
    2:{ destruct (hashFinalize_fails ctx Hwf inp accum res (or_introl H64)) as [p Ep].
        congruence. }
    destruct (Nat.eq_dec (length inp mod 16) 0) as [H16 | H16].
    2:{ destruct (hashFinalize_fails ctx Hwf inp accum res (or_intror H16)) as [p Ep].
        congruence. }
    destruct (Nat.le_gt_cases 24 (length res)) as [H24 | H24]; [auto|].
    exfalso. unfold hashFinalize in Er.
    destruct (if (0 <? length inp)%nat then _ else _) as [acc|p]; [|discriminate].
    cbn [bind] in Er.
    destruct (asuRounds_short ctx acc res Hasu H24) as [p Ep].
    rewrite Ep in Er. discriminate.
  - intros (H64 & H16 & H24).
    destruct (hashFinalize_spec ctx Hwf inp accum H64 H16) as (acc & _ & E).
    rewrite (E res H24). eauto.
  - intros H24. unfold hashFinalize. cbn [length Nat.ltb Nat.leb bind].
    rewrite asuRounds_spec by assumption. reflexivity.
Qed.

Lemma hashFinalize_returns_iff_witness :
  ((exists r, hashFinalize KAT.hashKeys (KAT.w 17) (repeat 1 hs1HashRounds) (zeros 32) = Ok r) <->
   (length (KAT.w 17) <= 64 /\ length (KAT.w 17) mod 16 = 0 /\ 24 <= length (zeros 32))%nat) /\
  ((24 <= length (zeros 32))%nat ->
   hashFinalize KAT.hashKeys [] (repeat 1 hs1HashRounds) (zeros 32)
   = Ok (repeat 1 hs1HashRounds,
         digest KAT.hashKeys (repeat 1 hs1HashRounds) ++ skipn 24 (zeros 32))).
Proof.
  apply (hashFinalize_returns_iff KAT.hashKeys (KAT.w 17) (repeat 1 hs1HashRounds) (zeros 32)).
  vm_compute. repeat split.
Defined.

(** ** sliceForAppend and the length block *)

(** X20. [sliceForAppend(in, n)]: when the spare capacity of [in] holds
    [n] more bytes the head is [in] extended over that capacity and the
    tail is the [n] bytes that were there; otherwise the head is a fresh
    array holding [in] followed by [n] zero bytes, with no capacity
    left; a negative [n] panics. *)
Theorem sliceForAppend_cases dst k :
  ((k <= length (spare dst))%nat ->
   sliceForAppend dst (Z.of_nat k)
   = Ok (mkSlice (data dst ++ firstn k (spare dst)) (skipn k (spare dst)),
         firstn k (spare dst))) /\
  ((length (spare dst) < k)%nat ->
   sliceForAppend dst (Z.of_nat k)
   = Ok (mkSlice (data dst ++ zeros k) [], zeros k)) /\
  (forall n, n < 0 -> sliceForAppend dst n = Panic SliceBoundsOutOfRange).
Proof.
  split; [|split]; [intros Hk | intros Hk | apply sliceForAppend_negative].
  - unfold sliceForAppend, len, cap.
    assert (E : (Z.of_nat (length (data dst) + length (spare dst))
                 >=? Z.of_nat (length (data dst)) + Z.of_nat k) = true) by lia.
    assert (Hneg : (Z.of_nat (length (data dst)) + Z.of_nat k <? 0) = false) by lia.
    rewrite E, Hneg. cbn [bind data].
    replace (Z.to_nat (Z.of_nat (length (data dst)) + Z.of_nat k))
      with (length (data dst) + k)%nat by lia.
    rewrite firstn_app_2, skipn_app, (skipn_all2 (n := length (data dst) + k) (data dst)),
      app_nil_l by lia.
    replace (length (data dst) + k - length (data dst))%nat with k by lia.
    rewrite sliceFrom_ok by (rewrite length_app, length_firstn; lia). cbn [bind].
    rewrite skipn_app, Nat.sub_diag, skipn_O,
      (skipn_all2 (n := length (data dst)) (data dst)), app_nil_l by lia.
    reflexivity.
  - unfold sliceForAppend, len, cap.
    assert (E : (Z.of_nat (length (data dst) + length (spare dst))
                 >=? Z.of_nat (length (data dst)) + Z.of_nat k) = false) by lia.
    rewrite E. cbn [bind data].
    replace (Z.to_nat (Z.of_nat (length (data dst)) + Z.of_nat k))
      with (length (data dst) + k)%nat by lia.
    rewrite copy_zeros_pad by lia.
    replace (length (data dst) + k - length (data dst))%nat with k by lia.
    rewrite sliceFrom_ok by (rewrite length_app; lia). cbn [bind].
    rewrite skipn_app, Nat.sub_diag, skipn_O, skipn_all2, app_nil_l by lia.
    reflexivity.
Qed.

(** X21. The length block decodes: [sivSetup] stores the two lengths so
    that [Uint64] reads them back, for lengths below [2^64]; it starts
    the accumulator at six ones and keeps the keys. *)
Theorem sivSetup_length_block_round_trip ctx aBytes mBytes :
  Z.of_nat aBytes < 2 ^ 64 -> Z.of_nat mBytes < 2 ^ 64 ->
  let ctx' := sivSetup ctx aBytes mBytes in
  Uint64 (sivLenBuf ctx') = Z.of_nat aBytes /\
  Uint64 (skipn 8 (sivLenBuf ctx')) = Z.of_nat mBytes /\
  length (sivLenBuf ctx') = 16%nat /\
  sivAccum ctx' = [1; 1; 1; 1; 1; 1] /\
  chachaKey ctx' = chachaKey ctx /\ hashCtx ctx' = hashCtx ctx.
Proof.
  intros Ha Hm. cbv zeta. unfold sivSetup. cbn [sivLenBuf sivAccum chachaKey hashCtx].
  unfold Uint64, PutUint64, uint64.
  assert (L : forall v, length (le_split 8 v) = 8%nat) by (intros; apply length_le_split).
  rewrite firstn_app, L, Nat.sub_diag, firstn_O, app_nil_r, firstn_all2 by (rewrite L; lia).
  rewrite skipn_app, L, Nat.sub_diag, skipn_O, skipn_all2, app_nil_l by (rewrite L; lia).
  rewrite firstn_all2 by (rewrite L; lia).
  rewrite !le_combine_split, length_app, !L.
  change (Z.of_nat 8 * 8) with 64.
  rewrite !Z.mod_mod by lia.
  rewrite !Z.mod_small by lia.
  repeat split.
Qed.

Lemma sivSetup_length_block_round_trip_witness :
  let ctx' := sivSetup (mkAeadCtx (zeros 32) (mkHs1Ctx [] [] []) [] []) 300 1000 in
  Uint64 (sivLenBuf ctx') = Z.of_nat 300 /\
  Uint64 (skipn 8 (sivLenBuf ctx')) = Z.of_nat 1000 /\
  length (sivLenBuf ctx') = 16%nat /\
  sivAccum ctx' = [1; 1; 1; 1; 1; 1] /\
  chachaKey ctx' = zeros 32 /\ hashCtx ctx' = mkHs1Ctx [] [] [].
Proof.
  apply (sivSetup_length_block_round_trip (mkAeadCtx (zeros 32) (mkHs1Ctx [] [] []) [] []) 300 1000);
    vm_compute; reflexivity.
Defined.

(** ** The choice of the back end *)

Lemma land_bit r k :
  0 <= k -> (Z.land r (Z.shiftl 1 k) =? 0) = negb (Z.testbit r k).
Proof.
  intros Hk. rewrite Z.shiftl_1_l.
  destruct (Z.testbit r k) eqn:E; cbn [negb].
  - apply Z.eqb_neq. intros H.
    apply (f_equal (fun z => Z.testbit z k)) in H.
    rewrite Z.land_spec, E, Z.pow2_bits_eqb, Z.eqb_refl, Z.bits_0 in H by lia.
    discriminate.
  - apply Z.eqb_eq. apply Z.bits_inj'. intros i Hi.
    rewrite Z.land_spec, Z.pow2_bits_eqb, Z.bits_0 by lia.
    destruct (Z.eqb_spec k i) as [<- | N]; [now rewrite E | apply andb_false_r].
Qed.

Lemma land_6 x : (Z.land x 6 =? 6) = Z.testbit x 1 && Z.testbit x 2.
Proof.
  destruct (Z.testbit x 1 && Z.testbit x 2) eqn:E.
  - apply andb_true_iff in E as [E1 E2].
    apply Z.eqb_eq. apply Z.bits_inj'. intros i Hi.
    rewrite Z.land_spec.
    destruct (Z.eq_dec i 1) as [-> | N1]; [now rewrite E1|].
    destruct (Z.eq_dec i 2) as [-> | N2]; [now rewrite E2|].
    replace (Z.testbit 6 i) with false; [apply andb_false_r|].
    destruct (Z.eq_dec i 0) as [-> | N0]; [reflexivity|].
    change 6 with (Z.lor (2 ^ 1) (2 ^ 2)).
    rewrite Z.lor_spec, !Z.pow2_bits_eqb by lia.
    symmetry. apply orb_false_iff. split; apply Z.eqb_neq; lia.
  - apply Z.eqb_neq. intros H.
    assert (H1 := f_equal (fun z => Z.testbit z 1) H).
    assert (H2 := f_equal (fun z => Z.testbit z 2) H).
    cbv beta in H1, H2. rewrite Z.land_spec in H1, H2.
    change (Z.testbit 6 1) with true in H1. change (Z.testbit 6 2) with true in H2.
    rewrite andb_true_r in H1, H2. rewrite H1, H2 in E. discriminate.
Qed.

(** X22. What [supportsAVX2BMI2] asks of the processor: CPUID knows
    leaf 7, leaf 1 reports OSXSAVE (ECX bit 27), XCR0 has the XMM and
    YMM state bits 1 and 2 set, and leaf 7 reports AVX2 (EBX bit 5) and
    BMI2 (EBX bit 8).  It returns true exactly when all of these
    hold. *)
Theorem supportsAVX2BMI2_iff cpuid xgetbv :
  HwAccel.supportsAVX2BMI2 cpuid xgetbv = true <->
  let '(maxLeaf, _, _, _) := cpuid (0, 0, 0, 0) in
  let '(_, _, ecx1, _) := cpuid (1, 0, 0, 0) in
  let '(xcr0, _) := xgetbv (0, 0) in
  let '(_, ebx7, _, _) := cpuid (7, 0, 0, 0) in
  7 <= maxLeaf /\ Z.testbit ecx1 27 = true /\
  Z.testbit xcr0 1 = true /\ Z.testbit xcr0 2 = true /\
  Z.testbit ebx7 5 = true /\ Z.testbit ebx7 8 = true.
Proof.
  unfold HwAccel.supportsAVX2BMI2, HwAccel.osXsaveBit, HwAccel.avx2Bit, HwAccel.bmi2Bit.
  destruct (cpuid (0, 0, 0, 0)) as [[[a0 b0] c0] d0].
  destruct (cpuid (1, 0, 0, 0)) as [[[a1 b1] c1] d1].
  destruct (xgetbv (0, 0)) as [x0 x1].
  destruct (cpuid (7, 0, 0, 0)) as [[[a7 b7] c7] d7].
  rewrite !land_bit, land_6, !negb_involutive by lia.
  destruct (Z.ltb_spec a0 7) as [Hlt | Hge].
  { split; [discriminate | intros [H _]; lia]. }
  destruct (Z.testbit c1 27); cbn [negb];
    [|split; [discriminate | intros (_ & H & _); discriminate]].
  destruct (Z.testbit x0 1), (Z.testbit x0 2); cbn [andb negb];
    try (split; [discriminate | intros (_ & _ & H1 & H2 & _); discriminate]).
  destruct (Z.testbit b7 5), (Z.testbit b7 8); cbn [andb];
    try (split; [discriminate | intros (_ & _ & _ & _ & H1 & H2); discriminate]).
  split; auto. intros _. repeat split; auto.
Qed.

(** X23. The flag follows the back end: that [isHardwareAccelerated] is
    true exactly when the back end is the AVX2 one holds of the declared
    values and is kept by [forceDisableHardwareAcceleration] and by both
    versions of [initHardwareAcceleration]; the amd64 one never turns
    acceleration off, and after a forced disable
    [mustInitHardwareAcceleration] succeeds exactly when the processor
    supports AVX2 and BMI2, selecting the AVX2 back end. *)
Theorem hwaccel_flag_follows_impl cpuid xgetbv st :
  let ok s := HwAccel.IsHardwareAccelerated s = true
              <-> HwAccel.hardwareAccelImpl s = HwAccel.implAVX2BMI2 in
  ok HwAccel.declared /\
  ok (HwAccel.forceDisableHardwareAcceleration st) /\
  ok (HwAccel.initHardwareAccelerationRef st) /\
  (ok st -> ok (HwAccel.initHardwareAcceleration cpuid xgetbv st)) /\
  (HwAccel.IsHardwareAccelerated st = true ->
   HwAccel.IsHardwareAccelerated (HwAccel.initHardwareAcceleration cpuid xgetbv st) = true) /\
  HwAccel.mustInitHardwareAcceleration cpuid xgetbv
    (HwAccel.forceDisableHardwareAcceleration st)
  = (if HwAccel.supportsAVX2BMI2 cpuid xgetbv
     then Some (HwAccel.mkHwState true HwAccel.implAVX2BMI2) else None).
Proof.
  cbv zeta.
  unfold HwAccel.mustInitHardwareAcceleration, HwAccel.initHardwareAcceleration,
    HwAccel.initHardwareAccelerationRef, HwAccel.forceDisableHardwareAcceleration,
    HwAccel.IsHardwareAccelerated, HwAccel.declared.
  destruct (HwAccel.supportsAVX2BMI2 cpuid xgetbv);
    cbn [HwAccel.isHardwareAccelerated HwAccel.hardwareAccelImpl negb];
    intuition (try discriminate; auto).
Qed.
